(** * Coverage region aggregation (CXWorks/rug-ae): a shallow embedding

    The coverage scripts of the repository share one piece of logic: a
    raw [llvm-cov export] document is walked function by function, every
    region is checked against the line at which the test section of its
    source file starts, and the surviving regions are merged, under a
    string key, into a dictionary from which the reported counts are
    computed.  This file embeds that logic from four scripts

    - [src/base_4/llm_4_base_cov/main.py]            (module [Base4]),
    - [src/rug_ae1/source/rug-gpt/cov_collect.py]    (module [CovCollect]),
    - [src/rug_ae1/rulf/collect_cov.py]              (module [Rulf]),
    - [src/rug_ae1/rustyunit/.../rusty-unit-18/t.py] (module [RustyUnit]),

    and proves the properties of the specification against it.

    Python [int] is [Z], [str] is [string], a [dict] is a [gmap], an
    exception is the left summand of [result]. *)

From Stdlib Require Import ZArith Lia Ascii.
From Stdlib Require Import Decimal DecimalString DecimalZ DecimalPos DecimalN.
From stdpp Require Import base gmap strings list fin_maps.

Open Scope Z_scope.

(** ** Python primitives *)

(** The exceptions the embedded code can raise. *)
Inductive exn : Type :=
  | AssertionError   (* a failed [assert] *)
  | IndexError       (* [l[i]] with [i] out of range *)
  | OSError.         (* [open(file, 'r')] on a path that cannot be read *)

Definition result (A : Type) : Type := exn + A.

Definition raise {A : Type} (e : exn) : result A := inl e.
Definition ret {A : Type} (a : A) : result A := inr a.
Definition bind {A B : Type} (m : result A) (k : A → result B) : result B :=
  match m with
  | inl e => inl e
  | inr a => k a
  end.

Notation "'let*' x ':=' m 'in' k" := (bind m (fun x => k))
  (at level 10, x pattern, m at level 100, k at level 200).

(** [for x in xs: s = body(s, x)], where [body] may raise. *)
Fixpoint for_each {A S : Type} (body : S → A → result S) (xs : list A) (s : S)
  : result S :=
  match xs with
  | [] => ret s
  | x :: xs' => let* s' := body s x in for_each body xs' s'
  end.

(** [needle in hay] on strings. *)
Fixpoint str_in (needle hay : string) : bool :=
  String.prefix needle hay ||
  match hay with
  | EmptyString => false
  | String _ hay' => str_in needle hay'
  end.

(** [s.startswith(p)] *)
Definition startswith (s p : string) : bool := String.prefix p s.

(** [s.endswith(p)] *)
Fixpoint endswith (s p : string) : bool :=
  String.eqb s p ||
  match s with
  | EmptyString => false
  | String _ s' => endswith s' p
  end.

(** [str(z)] for an [int]: decimal digits, with a leading minus sign for
    negative numbers. *)
Definition str (z : Z) : string := NilZero.string_of_int (Z.to_int z).

(** ** The raw export *)

(** One entry of [func['regions']]: the array
    [[lineStart, colStart, lineEnd, colEnd, executionCount, ...]] of
    [llvm-cov export]; the scripts read indices 0 to 4 only. *)
Record region : Type := Region {
  reg0 : Z;   (* regions[0], bound to [lst] *)
  reg1 : Z;   (* regions[1] *)
  reg2 : Z;   (* regions[2], bound to [led] *)
  reg3 : Z;   (* regions[3] *)
  reg4 : Z    (* regions[4], bound to [count] *)
}.

(** One entry of [obj['data'][0]['functions']]. *)
Record func : Type := Func {
  name : string;
  filenames : list string;
  regions : list region
}.

(** [obj['data'][0]['functions']] *)
Abbreviation export := (list func).

(** The source tree as the pass sees it: the lines [fp.readlines()]
    returns for a path, or [None] when [open] fails. *)
Abbreviation source_tree := (string → option (list string)).

(** [k = filename + '/' + str(lst) + '/' + str(regions[1]) + '/' +
         str(led) + '/' + str(regions[3])],
    the same expression in every script. *)
Definition region_key (filename : string) (regions : region) : string :=
  (((((((filename +:+ "/") +:+ str (reg0 regions)) +:+ "/")
       +:+ str (reg1 regions)) +:+ "/") +:+ str (reg2 regions)) +:+ "/")
  +:+ str (reg3 regions).

(** ** The boundary scan

    [parse_file] is the same loop in every script but the last; the
    scripts differ in the test on the line only:
<<
    ans = 1
    for l in fp.readlines():
        if <marker test on l>:
            break
        ans += 1
    return ans
>> *)
Fixpoint scan_lines (is_marker : string → bool) (ls : list string) (ans : Z) : Z :=
  match ls with
  | [] => ans
  | l :: ls' => if is_marker l then ans else scan_lines is_marker ls' (ans + 1)
  end.

Definition read_boundary (is_marker : string → bool) (fs : source_tree)
    (file : string) : result Z :=
  match fs file with
  | None => raise OSError
  | Some ls => ret (scan_lines is_marker ls 1)
  end.

(** [map[filename]] after [if filename not in map: map[filename] =
    parse_file(filename)]: the boundary cache of one pass. *)
Definition cached (parse : string → result Z) (map : gmap string Z)
    (filename : string) : result (gmap string Z * Z) :=
  match map !! filename with
  | Some limit => ret (map, limit)
  | None => let* limit := parse filename in ret (<[filename := limit]> map, limit)
  end.

(** ** [src/base_4/llm_4_base_cov/main.py]: boolean store, persisted *)

Module Base4.
Section Pass.
Variable cwd : string.       (* os.getcwd() *)
Variable fs : source_tree.

(** ['mod tests' in l or '#[cfg(test)]' in l] *)
Definition is_marker (l : string) : bool :=
  str_in "mod tests" l || str_in "#[cfg(test)]" l.

Definition parse_file (file : string) : result Z :=
  read_boundary is_marker fs file.

(** [for regions in func['regions']: ...]; [is_valid_func] and [has_hit]
    are written but never read in this script and are left out. *)
Fixpoint regions_loop (filename : string) (limit : Z) (rs : list region)
    (mamp_reg : gmap string Z) : gmap string Z :=
  match rs with
  | [] => mamp_reg
  | regions :: rs' =>
      let led := reg2 regions in
      let count := reg4 regions in
      if led >? limit then mamp_reg                               (* break *)
      else
        let k := region_key filename regions in
        regions_loop filename limit rs'
          (if count >? 0 then <[k := 1]> mamp_reg
           else <[k := default 0 (mamp_reg !! k)]> mamp_reg)
  end.

(** The body of [for func in obj['data'][0]['functions']], on the pair
    of the boundary cache [map] and the store [mamp_reg]. *)
Definition func_body (s : gmap string Z * gmap string Z) (f : func)
  : result (gmap string Z * gmap string Z) :=
  let '(map, mamp_reg) := s in
  if (length (filenames f) <=? 1)%nat then
    match filenames f with
    | [] => raise IndexError                          (* func['filenames'][0] *)
    | filename :: _ =>
        if str_in cwd filename then
          let* (map, limit) := cached parse_file map filename in
          ret (map, regions_loop filename limit (regions f) mamp_reg)
        else ret (map, mamp_reg)
    end
  else raise AssertionError.

(** The whole loop over one export, started with [map = {}]. *)
Definition functions_loop (obj : export) (mamp_reg : gmap string Z)
  : result (gmap string Z) :=
  let* (_, mamp_reg) := for_each func_body obj (∅, mamp_reg) in ret mamp_reg.

(** [reg_total = len(mamp_reg)] *)
Definition reg_total (mamp_reg : gmap string Z) : Z := Z.of_nat (size mamp_reg).

(** [for k,v in mamp_reg.items(): if v != 0: reg_count += 1] *)
Definition reg_count (mamp_reg : gmap string Z) : Z :=
  Z.of_nat (size (filter (λ kv : string * Z, kv.2 ≠ 0) mamp_reg)).

(** [collect_result].  [merge_rc] and [export_rc] are the return codes
    of the two tool runs, [obj] the decoded export and [cov_map_json]
    the decoded content of [cov_map.json] when that file exists.  The
    result is [None] on the early return, and otherwise the store that
    is dumped to [cov_map.json] with the pair that is printed. *)
Definition collect_result (merge_rc export_rc : Z) (obj : export)
    (cov_map_json : option (gmap string Z))
  : result (option (gmap string Z * (Z * Z))) :=
  if negb (merge_rc =? 0) then ret None
  else if negb (export_rc =? 0) then raise AssertionError
  else
    let mamp_reg := default ∅ cov_map_json in
    let* mamp_reg := functions_loop obj mamp_reg in
    ret (Some (mamp_reg, (reg_count mamp_reg, reg_total mamp_reg))).
End Pass.
End Base4.

(** ** [src/rug_ae1/source/rug-gpt/cov_collect.py]: first sight counts *)

Module CovCollect.
(** The variables of [collect_result] that the loops update. *)
Record state : Type := State {
  map : gmap string Z;
  mamp_reg : gmap string Z;
  reg_total : Z;
  reg_count : Z;
  line_total : Z;
  line_count : Z;
  func_total : Z;
  func_count : Z
}.

Section Pass.
Variable cwd : string.
Variable fs : source_tree.

(** ['fuzzdriver_' in l or '#[cfg(test)]' in l] *)
Definition is_marker (l : string) : bool :=
  str_in "fuzzdriver_" l || str_in "#[cfg(test)]" l.

Definition parse_file (file : string) : result Z :=
  read_boundary is_marker fs file.

(** The region loop; it returns the state with the final values of
    [is_valid_func] and [has_hit]. *)
Fixpoint regions_loop (filename : string) (limit : Z) (rs : list region)
    (s : state) (has_hit : bool) : state * bool * bool :=
  match rs with
  | [] => (s, true, has_hit)
  | regions :: rs' =>
      let lst := reg0 regions in
      let led := reg2 regions in
      let count := reg4 regions in
      if led >? limit then (s, false, has_hit)    (* is_valid_func = False; break *)
      else
        let k := region_key filename regions in
        match mamp_reg s !! k with
        | Some _ => regions_loop filename limit rs' s has_hit     (* continue *)
        | None =>
            let s1 := State (map s) (<[k := 1]> (mamp_reg s))
                        (reg_total s + 1) (reg_count s)
                        (line_total s + (led - lst + 1)) (line_count s)
                        (func_total s) (func_count s) in
            if count >? 0 then
              regions_loop filename limit rs'
                (State (map s1) (mamp_reg s1) (reg_total s1) (reg_count s1 + 1)
                   (line_total s1) (line_count s1 + (led - lst + 1))
                   (func_total s1) (func_count s1))
                true
            else regions_loop filename limit rs' s1 has_hit
        end
  end.

Definition func_body (s : state) (f : func) : result state :=
  if (length (filenames f) <=? 1)%nat then
    match filenames f with
    | [] => raise IndexError
    | filename :: _ =>
        if str_in cwd filename then
          let* (map', limit) := cached parse_file (map s) filename in
          let s0 := State map' (mamp_reg s) (reg_total s) (reg_count s)
                      (line_total s) (line_count s) (func_total s) (func_count s) in
          let '(s1, is_valid_func, has_hit) :=
            regions_loop filename limit (regions f) s0 false in
          if is_valid_func then
            ret (State (map s1) (mamp_reg s1) (reg_total s1) (reg_count s1)
                   (line_total s1) (line_count s1) (func_total s1 + 1)
                   (if has_hit then func_count s1 + 1 else func_count s1))
          else ret s1
        else ret s
    end
  else raise AssertionError.

Definition init : state := State ∅ ∅ 0 0 0 0 0 0.

(** [collect_result]: both tool runs are asserted to succeed; the
    result is the final state, whose six counters are printed. *)
Definition collect_result (merge_rc export_rc : Z) (obj : export) : result state :=
  if negb (merge_rc =? 0) then raise AssertionError
  else if negb (export_rc =? 0) then raise AssertionError
  else for_each func_body obj init.
End Pass.
End CovCollect.

(** ** [src/rug_ae1/rulf/collect_cov.py]: summed counts, region pruning *)

Module Rulf.
Section Pass.
Variable cwd : string.
Variable fs : source_tree.

(** ['#[cfg(test)]' in l] *)
Definition is_marker (l : string) : bool := str_in "#[cfg(test)]" l.

Definition parse_file (file : string) : result Z :=
  read_boundary is_marker fs file.

(** A store value is the list [[led - lst + 1, count]]. *)
Fixpoint regions_loop (filename : string) (limit : Z) (rs : list region)
    (mamp_reg : gmap string (Z * Z)) : gmap string (Z * Z) :=
  match rs with
  | [] => mamp_reg
  | regions :: rs' =>
      let lst := reg0 regions in
      let led := reg2 regions in
      let count := reg4 regions in
      if led >? limit then regions_loop filename limit rs' mamp_reg   (* continue *)
      else
        let k := region_key filename regions in
        regions_loop filename limit rs'
          match mamp_reg !! k with
          | Some v => <[k := (v.1, v.2 + count)]> mamp_reg   (* mamp_reg[k][1] += count *)
          | None => <[k := (led - lst + 1, count)]> mamp_reg
          end
  end.

Definition func_body (s : gmap string Z * gmap string (Z * Z)) (f : func)
  : result (gmap string Z * gmap string (Z * Z)) :=
  let '(map, mamp_reg) := s in
  if (length (filenames f) <=? 1)%nat then
    match filenames f with
    | [] => raise IndexError
    | filename :: _ =>
        if str_in cwd filename && str_in "src/" filename then
          let* (map, limit) := cached parse_file map filename in
          ret (map, regions_loop filename limit (regions f) mamp_reg)
        else ret (map, mamp_reg)
    end
  else raise AssertionError.

(** The body of the loop over the fuzz targets, from the export on:
    the return code of [llvm-cov export] is asserted, then the
    functions of the export are merged into the same two dictionaries. *)
Definition target_body (s : gmap string Z * gmap string (Z * Z))
    (t : Z * export) : result (gmap string Z * gmap string (Z * Z)) :=
  let '(export_rc, obj) := t in
  if negb (export_rc =? 0) then raise AssertionError
  else for_each func_body obj s.

Definition reg_total (mamp_reg : gmap string (Z * Z)) : Z :=
  Z.of_nat (size mamp_reg).

(** [if v[1] > 0: reg_count += 1] *)
Definition reg_count (mamp_reg : gmap string (Z * Z)) : Z :=
  Z.of_nat (size (filter (λ kv : string * (Z * Z), 0 < kv.2.2) mamp_reg)).

(** [cov_select], on the exports of its targets; the result is the pair
    it prints.  ([line_total] and [line_count] are computed by the
    script but never printed or returned; they are left out.) *)
Definition cov_select (targets : list (Z * export)) : result (Z * Z) :=
  let* (_, mamp_reg) := for_each target_body targets (∅, ∅) in
  ret (reg_count mamp_reg, reg_total mamp_reg).
End Pass.
End Rulf.

(** ** [rusty-unit-18/t.py]: maximum count, look-ahead boundary scan *)

Module RustyUnit.
Section Pass.
Variable cwd : string.
Variable fs : source_tree.

Definition is_marker (l : string) : bool :=
  str_in "fuzzdriver_" l || str_in "#[cfg(test)]" l.

(** [for i in range(len(ls))]: a marker line ends the scan only when
    the line after it starts with [mod]; [ls[i+1]] is read unguarded. *)
Fixpoint scan_lines_mod (ls : list string) (ans : Z) : result Z :=
  match ls with
  | [] => ret ans
  | l :: ls' =>
      if is_marker l then
        match ls' with
        | [] => raise IndexError                                (* ls[i+1] *)
        | next :: _ =>
            if startswith next "mod" then ret ans               (* break *)
            else scan_lines_mod ls' (ans + 1)
        end
      else scan_lines_mod ls' (ans + 1)
  end.

Definition parse_file (file : string) : result Z :=
  match fs file with
  | None => raise OSError
  | Some ls => scan_lines_mod ls 1
  end.

Fixpoint regions_loop (filename : string) (limit : Z) (rs : list region)
    (mamp_reg : gmap string Z) : gmap string Z :=
  match rs with
  | [] => mamp_reg
  | regions :: rs' =>
      let led := reg2 regions in
      let count := reg4 regions in
      if led >? limit then mamp_reg                               (* break *)
      else
        let k := region_key filename regions in
        let mamp_reg1 :=
          match mamp_reg !! k with
          | None => <[k := 0]> mamp_reg
          | Some _ => mamp_reg
          end in
        regions_loop filename limit rs'
          (<[k := Z.max count (default 0 (mamp_reg1 !! k))]> mamp_reg1)
  end.

Definition func_body (s : gmap string Z * gmap string Z) (f : func)
  : result (gmap string Z * gmap string Z) :=
  let '(map, mamp_reg) := s in
  if (length (filenames f) <=? 1)%nat then
    match filenames f with
    | [] => raise IndexError
    | filename :: _ =>
        if str_in cwd filename && negb (endswith filename "rusty_monitor.rs") then
          let* (map, limit) := cached parse_file map filename in
          ret (map, regions_loop filename limit (regions f) mamp_reg)
        else ret (map, mamp_reg)
    end
  else raise AssertionError.

Definition reg_total (mamp_reg : gmap string Z) : Z := Z.of_nat (size mamp_reg).

(** [if v > 0: reg_count += 1] *)
Definition reg_count (mamp_reg : gmap string Z) : Z :=
  Z.of_nat (size (filter (λ kv : string * Z, 0 < kv.2) mamp_reg)).

(** [collect_result]: the store dumped to [cov_map.json] and the pair
    printed.  The export command is built from [binaries[0]]. *)
Definition collect_result (merge_rc export_rc : Z) (binaries : list string)
    (obj : export) : result (gmap string Z * (Z * Z)) :=
  if negb (merge_rc =? 0) then raise AssertionError
  else
    match binaries with
    | [] => raise IndexError
    | _ :: _ =>
        if negb (export_rc =? 0) then raise AssertionError
        else
          let* (_, mamp_reg) := for_each func_body obj (∅, ∅) in
          ret (mamp_reg, (reg_count mamp_reg, reg_total mamp_reg))
    end.
End Pass.
End RustyUnit.

(** ** Writing the snapshot

    Both persisting scripts end with
<<
    with open('cov_map.json', 'w') as fp:
        json.dump(mamp_reg, fp)
>>
    The disk maps a path to the content a reader sees there.  Opening
    with mode ['w'] creates or truncates the file at once; [json.dump]
    hands the serialization to [fp.write] chunk by chunk; written text
    waits in the file object until the I/O layer flushes it, at the
    latest when the [with] block closes the file. *)

Module Snapshot.
Record file_object : Type := FileObject {
  fo_path : string;
  fo_pending : string      (* written, not yet flushed *)
}.

Section Persist.
(** The chunks [json.dump(mamp_reg, fp)] writes, in order, and the
    flush policy of the I/O layer: [flush_now pending] tells whether
    the pending text is pushed to the disk after a write.  Both belong
    to the Python library. *)
Variable json_chunks : gmap string Z → list string.
Variable flush_now : string → bool.

Definition content (d : gmap string string) (path : string) : string :=
  default "" (d !! path).

(** [open(path, 'w')] *)
Definition open_w (d : gmap string string) (path : string)
  : gmap string string * file_object :=
  (<[path := ""]> d, FileObject path "").

Definition flush (s : gmap string string * file_object)
  : gmap string string * file_object :=
  let '(d, fp) := s in
  (<[fo_path fp := content d (fo_path fp) +:+ fo_pending fp]> d,
   FileObject (fo_path fp) "").

(** [fp.write(chunk)] *)
Definition write (s : gmap string string * file_object) (chunk : string)
  : gmap string string * file_object :=
  let '(d, fp) := s in
  let s' := (d, FileObject (fo_path fp) (fo_pending fp +:+ chunk)) in
  if flush_now (fo_pending fp +:+ chunk) then flush s' else s'.

(** [fp.close()], at the end of the [with] block *)
Definition close (s : gmap string string * file_object) : gmap string string :=
  (flush s).1.

(** The states a persist goes through before the file is closed: after
    [open], and after each [fp.write]. *)
Fixpoint writes (s : gmap string string * file_object) (chunks : list string)
  : list (gmap string string * file_object) :=
  match chunks with
  | [] => []
  | c :: chunks' => write s c :: writes (write s c) chunks'
  end.

Definition persist_states (d : gmap string string) (path : string)
    (mamp_reg : gmap string Z) : list (gmap string string * file_object) :=
  open_w d path :: writes (open_w d path) (json_chunks mamp_reg).

(** The disk once the [with] block is left. *)
Definition persist (d : gmap string string) (path : string)
    (mamp_reg : gmap string Z) : gmap string string :=
  close (foldl write (open_w d path) (json_chunks mamp_reg)).
End Persist.
End Snapshot.

(** ** Notions used in the statements

    The four function loops share their control flow: the assertion on
    [filenames], the read of [filenames[0]], the filter on the file name
    and the boundary cache.  [cache_body] is that common part alone;
    [walked] lists, for a function record, the file, limit and regions
    whose loop is run; [reached_break] and [reached_continue] list the
    regions that get to the store update under the two ways the scripts
    treat a region past the limit. *)

(** [has_char c s]: the character [c] occurs in [s]. *)
Fixpoint has_char (c : Ascii.ascii) (s : string) : bool :=
  match s with
  | EmptyString => false
  | String a s' => Ascii.eqb a c || has_char c s'
  end.

(** The longest prefix of [l] whose elements all pass [p]. *)
Fixpoint take_while {A : Type} (p : A → bool) (l : list A) : list A :=
  match l with
  | [] => []
  | x :: l' => if p x then x :: take_while p l' else []
  end.

(** [not (led > limit)] *)
Definition within (limit : Z) (r : region) : bool := negb (reg2 r >? limit).

Section Walk.
Variable parse : string → result Z.
Variable accept : string → bool.

(** Every cached limit is what [parse] returns for the file. *)
Definition cache_ok (map : gmap string Z) : Prop :=
  ∀ f v, map !! f = Some v → parse f = inr v.

Definition cache_body (map : gmap string Z) (f : func) : result (gmap string Z) :=
  if (length (filenames f) <=? 1)%nat then
    match filenames f with
    | [] => raise IndexError
    | filename :: _ =>
        if accept filename then
          let* (map, _) := cached parse map filename in ret map
        else ret map
    end
  else raise AssertionError.

Definition walked (f : func) : list (string * Z * list region) :=
  match filenames f with
  | filename :: _ =>
      if accept filename then
        match parse filename with
        | inr limit => [(filename, limit, regions f)]
        | inl _ => []
        end
      else []
  | [] => []
  end.

Definition reached_break (w : string * Z * list region) : list (string * region) :=
  pair w.1.1 <$> take_while (within w.1.2) w.2.

Definition reached_continue (w : string * Z * list region) : list (string * region) :=
  pair w.1.1 <$> filter (λ r, within w.1.2 r = true) w.2.

(** The regions of an export that reach the store update, in order,
    each with the file name of its function. *)
Definition emitted_break (obj : export) : list (string * region) :=
  mbind (M := list) reached_break (mbind (M := list) walked obj).

Definition emitted_continue (obj : export) : list (string * region) :=
  mbind (M := list) reached_continue (mbind (M := list) walked obj).
End Walk.

(** The file-name filters of [collect_cov.py] and of [t.py]; the other
    two scripts test [os.getcwd() in filename] alone. *)
Definition rulf_accept (cwd filename : string) : bool :=
  str_in cwd filename && str_in "src/" filename.

Definition rusty_accept (cwd filename : string) : bool :=
  str_in cwd filename && negb (endswith filename "rusty_monitor.rs").

(** The key of an emitted region. *)
Definition key_of (p : string * region) : string := region_key p.1 p.2.

(** The store updates of the four scripts, on an emitted region. *)
Definition update_bool (m : gmap string Z) (p : string * region) : gmap string Z :=
  if reg4 p.2 >? 0 then <[key_of p := 1]> m
  else <[key_of p := default 0 (m !! key_of p)]> m.

Definition update_seen (m : gmap string Z) (p : string * region) : gmap string Z :=
  match m !! key_of p with
  | Some _ => m
  | None => <[key_of p := 1]> m
  end.

Definition update_sum (m : gmap string (Z * Z)) (p : string * region)
  : gmap string (Z * Z) :=
  match m !! key_of p with
  | Some v => <[key_of p := (v.1, v.2 + reg4 p.2)]> m
  | None => <[key_of p := (reg2 p.2 - reg0 p.2 + 1, reg4 p.2)]> m
  end.

Definition update_max (m : gmap string Z) (p : string * region) : gmap string Z :=
  <[key_of p := Z.max (reg4 p.2) (default 0 (m !! key_of p))]> m.

(** The hit counts an emitted list reports for the key [k], summed. *)
Fixpoint hits (k : string) (l : list (string * region)) : Z :=
  match l with
  | [] => 0
  | p :: l' => (if decide (key_of p = k) then reg4 p.2 else 0) + hits k l'
  end.

(** Successive calls of [collect_result] of [main.py], as its main loop
    makes them: each call reads the [cov_map.json] the previous one
    wrote.  A call that returns early leaves the file as it was. *)
Definition collect_run (cwd : string) (fs : source_tree)
    (cov_map_json : option (gmap string Z)) (t : Z * Z * export)
  : result (option (gmap string Z)) :=
  let* r := Base4.collect_result cwd fs t.1.1 t.1.2 t.2 cov_map_json in
  ret match r with
      | Some (mamp_reg, _) => Some mamp_reg
      | None => cov_map_json
      end.

(** The regions those calls get to merge, in order. *)
Definition reported (cwd : string) (fs : source_tree) (ts : list (Z * Z * export))
  : list (string * region) :=
  ts ≫= λ t, if t.1.1 =? 0
             then emitted_break (Base4.parse_file fs) (str_in cwd) t.2
             else [].

(** Every hit count of the export is at least 0. *)
Definition nonneg_hits (obj : export) : Prop :=
  Forall (λ f, Forall (λ r, 0 ≤ reg4 r) (regions f)) obj.

(** [flag v]: the Python truth value of [v != 0]. *)
Definition flag (v : Z) : bool := negb (v =? 0).

(** Every count stored by [collect_cov.py] is at least 0. *)
Definition counts_nonneg (m : gmap string (Z * Z)) : Prop :=
  ∀ k v, m !! k = Some v → 0 ≤ v.2.

(** The text a list of chunks makes up. *)
Definition whole (chunks : list string) : string := foldr String.append "" chunks.

(** What holds of a state of the persist of [path] on the disk [d0] once
    the chunks [written] have been handed to [fp.write]: the file object
    is that of [path], the content at [path] followed by the pending
    text is what was written, and no other path has changed. *)
Definition persist_inv (d0 : gmap string string) (path : string)
    (written : list string) (s : gmap string string * Snapshot.file_object) : Prop :=
  Snapshot.fo_path s.2 = path ∧
  Snapshot.content s.1 path +:+ Snapshot.fo_pending s.2 = whole written ∧
  ∀ q, q ≠ path → s.1 !! q = d0 !! q.

(** ** A small project

    The working directory is [/p].  [/p/src/a.rs] has ten lines and its
    test section opens at line 7; [/p/src/b.rs] has three lines and no
    test section; [/x/p/src/lib.rs] belongs to a dependency whose path
    happens to contain [/p]. *)
Definition ten_lines : list string :=
  ["use std::fmt;"; ""; "pub fn double(x: u32) -> u32 {"; "    x * 2"; "}"; "";
   "#[cfg(test)]"; "mod tests {"; "    use super::*;"; "}"].

Definition three_lines : list string :=
  ["pub fn id(x: u32) -> u32 {"; "    x"; "}"].

Definition demo_tree : source_tree :=
  λ path,
    if String.eqb path "/p/src/a.rs" then Some ten_lines
    else if String.eqb path "/p/src/b.rs" then Some three_lines
    else if String.eqb path "/x/p/src/lib.rs" then Some three_lines
    else None.

(** A function of [a.rs] with a region on lines 2 to 5, hit 3 times, and
    a region on lines 8 to 9 inside the test section. *)
Definition demo_func : func :=
  Func "double" ["/p/src/a.rs"] [Region 2 1 5 2 3; Region 8 1 9 2 1].

(** A function of the dependency. *)
Definition dep_func : func :=
  Func "id" ["/x/p/src/lib.rs"] [Region 1 1 3 2 4].

(** A function of [b.rs] first reported unhit, then hit. *)
Definition cold_func : func := Func "id" ["/p/src/b.rs"] [Region 1 1 3 2 0].
Definition warm_func : func := Func "id" ["/p/src/b.rs"] [Region 1 1 3 2 2].

(** A function of [a.rs] whose only region ends on line 7, the marker
    line. *)
Definition edge_func : func := Func "edge" ["/p/src/a.rs"] [Region 6 1 7 2 4].

(** * The other functions of the scripts *)

(** The regions the targets of [cov_select] get to merge, in order. *)
Definition rulf_reported (cwd : string) (fs : source_tree)
    (targets : list (Z * export)) : list (string * region) :=
  targets ≫= λ t, emitted_continue (Rulf.parse_file fs) (rulf_accept cwd) t.2.

(** The look-ahead scan of [t.py] stops at [l] when [l] is a marker line
    and the line after it starts with [mod]. *)
Definition stops_scan (l next : string) : bool :=
  RustyUnit.is_marker l && startswith next "mod".

(** No line of [ls] is a marker line directly followed, within [ls], by
    a line that starts with [mod]. *)
Fixpoint no_stop (ls : list string) : bool :=
  match ls with
  | [] => true
  | l :: ls' =>
      match ls' with
      | [] => true
      | next :: _ => negb (stops_scan l next) && no_stop ls'
      end
  end.

(** The emitted regions whose key is met for the first time, given the
    keys [seen] so far: what [if k in mamp_reg: continue] lets through. *)
Fixpoint first_sightings (seen : gmap string Z) (l : list (string * region))
  : list (string * region) :=
  match l with
  | [] => []
  | p :: l' =>
      match seen !! key_of p with
      | Some _ => first_sightings seen l'
      | None => p :: first_sightings (<[key_of p := 1]> seen) l'
      end
  end.

(** [count > 0] *)
Definition was_hit (p : string * region) : bool := reg4 p.2 >? 0.

(** [led - lst + 1], summed over a list of regions. *)
Definition sum_lines (l : list (string * region)) : Z :=
  foldr (λ p acc, (reg2 p.2 - reg0 p.2 + 1) + acc) 0 l.

(** What the region and line counters of [cov_collect.py] have gained
    from one state to a later one, given the regions sighted for the
    first time in between. *)
Definition counted (s s' : CovCollect.state) (sighted : list (string * region)) : Prop :=
  CovCollect.reg_total s' = CovCollect.reg_total s + Z.of_nat (length sighted) ∧
  CovCollect.reg_count s' =
    CovCollect.reg_count s + Z.of_nat (length (filter (λ p, was_hit p = true) sighted)) ∧
  CovCollect.line_total s' = CovCollect.line_total s + sum_lines sighted ∧
  CovCollect.line_count s' =
    CovCollect.line_count s + sum_lines (filter (λ p, was_hit p = true) sighted).

(** The function counters of [cov_collect.py] from one state to a later
    one, over [n] function records. *)
Definition funcs_counted (s s' : CovCollect.state) (n : nat) : Prop :=
  CovCollect.func_total s ≤ CovCollect.func_total s' ≤
    CovCollect.func_total s + Z.of_nat n ∧
  0 ≤ CovCollect.func_count s' - CovCollect.func_count s ≤
    CovCollect.func_total s' - CovCollect.func_total s.

(** ** More Python primitives *)

(** [s.find(sub)]: the index of the first occurrence, or -1. *)
Fixpoint find_from (sub s : string) (i : Z) : Z :=
  if String.prefix sub s then i
  else match s with
       | EmptyString => -1
       | String _ s' => find_from sub s' (i + 1)
       end.

Definition find (s sub : string) : Z := find_from sub s 0.

Fixpoint drop_chars (n : nat) (s : string) : string :=
  match n, s with
  | O, _ => s
  | S n', String _ s' => drop_chars n' s'
  | S _, EmptyString => EmptyString
  end.

Fixpoint take_chars (n : nat) (s : string) : string :=
  match n, s with
  | O, _ => EmptyString
  | S n', String a s' => String a (take_chars n' s')
  | S _, EmptyString => EmptyString
  end.

(** A slice bound brought into [0 .. len]: negative bounds count from
    the end. *)
Definition slice_bound (len i : Z) : Z :=
  if i <? 0 then Z.max (i + len) 0 else Z.min i len.

(** [s[a:b]] *)
Definition slice (s : string) (a b : Z) : string :=
  let len := Z.of_nat (String.length s) in
  let a' := slice_bound len a in
  let b' := slice_bound len b in
  take_chars (Z.to_nat (b' - a')) (drop_chars (Z.to_nat a') s).

(** [s.split(sep)[0]] for a non-empty [sep]: the text before the first
    occurrence of [sep], or all of [s]. *)
Fixpoint split_head (s sep : string) : string :=
  if String.prefix sep s then EmptyString
  else match s with
       | EmptyString => EmptyString
       | String a s' => String a (split_head s' sep)
       end.

(** The double quote character, as a string. *)
Definition dquote : string := String (Ascii.ascii_of_nat 34) EmptyString.

(** ** [main.py]: finding the test binaries and running them *)

Module Base4Run.
(** [binary = l[st+1:ed]] with [st = l.find('(')], [ed = l.find(')')] *)
Definition binary_of (l : string) : string :=
  let st := find l "(" in
  let ed := find l ")" in
  slice l (st + 1) ed.

(** [for l in stderr.splitlines(): ...] *)
Fixpoint read_lines (ls : list string) (bins : list string) : list string :=
  match ls with
  | [] => bins
  | l :: ls' =>
      if str_in "Running unittests" l then read_lines ls' (bins ++ [binary_of l])
      else read_lines ls' bins
  end.

(** [read_targets], on the return code of [cargo test -- --list] and
    the lines of its standard error. *)
Definition read_targets (returncode : Z) (stderr : list string) : list string :=
  let bins := [] in
  if negb (returncode =? 0) then bins else read_lines stderr bins.

Section Exec.
Variable cwd : string.                      (* os.getcwd() *)
Variable listing : string → list string.    (* the lines [binary --list] prints *)

(** The file named by [LLVM_PROFILE_FILE] in the command of a test. *)
Definition profile_of (HOME : string) (counter : Z) : string :=
  HOME +:+ "/cov/cov_" +:+ str counter +:+ ".profraw".

(** ['LLVM_PROFILE_FILE={}/cov/cov_{}.profraw timeout 2m {} --test {}'
      .format(HOME, str(counter), binary, tar)] *)
Definition test_command (HOME : string) (counter : Z) (binary tar : string) : string :=
  "LLVM_PROFILE_FILE=" +:+ profile_of HOME counter +:+ " timeout 2m " +:+ binary
    +:+ " --test " +:+ tar.

(** The loop over the lines of one listing, on the counter and the
    commands run so far. *)
Fixpoint tests_loop (HOME binary : string) (ls : list string)
    (st : Z * list string) : Z * list string :=
  match ls with
  | [] => st
  | l :: ls' =>
      if str_in "tests_rug" l || str_in "tests_llm_16" l then
        let tar := split_head l ": " in
        let counter := st.1 + 1 in
        tests_loop HOME binary ls' (counter, st.2 ++ [test_command HOME counter binary tar])
      else tests_loop HOME binary ls' st
  end.

Fixpoint bins_loop (HOME : string) (bins : list string) (st : Z * list string)
  : Z * list string :=
  match bins with
  | [] => st
  | binary :: bins' => bins_loop HOME bins' (tests_loop HOME binary (listing binary) st)
  end.

(** [execute_cov]: the test commands it runs, in order. *)
Definition execute_cov (bins : list string) : list string :=
  let HOME := cwd +:+ "/" in
  (bins_loop HOME bins (0, [])).2.
End Exec.
End Base4Run.

(** ** [t.py]: scanning the sources, patching them, finding the binaries *)

(** A directory entry as [os.listdir] and [os.path.isdir] show it: its
    name, whether it is a directory, and the entries below it. *)
#[warnings="-register-all"]
Inductive tree : Type :=
  | Entry (f : string) (isdir : bool) (entries : list tree).

Module RustyUnitRun.
(** The paths [recur_scan] appends for one entry [f] of [folder]. *)
Fixpoint scan_entry (folder : string) (t : tree) : list string :=
  match t with
  | Entry f isdir entries =>
      let path := folder +:+ "/" +:+ f in
      (if endswith f ".rs" then [path] else []) ++
      (if isdir then
         (fix scan_entries (es : list tree) : list string :=
            match es with
            | [] => []
            | t' :: es' => scan_entry path t' ++ scan_entries es'
            end) entries
       else [])
  end.

(** [recur_scan(folder, ans)], where [entries] is the listing of
    [folder]: the list [ans] after the call. *)
Definition recur_scan (folder : string) (entries : list tree) (ans : list string)
  : list string :=
  ans ++ flat_map (scan_entry folder) entries.

(** The test of the patching loop of [run_single] on a line. *)
Definition to_comment (l : string) : bool :=
  startswith l "#[no_coverage]" || startswith l "#[should_panic]" ||
  startswith l "#[timeout(3000)]" ||
  (str_in ("panic!(" +:+ dquote +:+ "From RustyUnit with love" +:+ dquote +:+ ");") l
   && negb (str_in "//" l)) ||
  (str_in "rusty_monitor::set_test_id(" l && negb (str_in "//" l)).

(** [for i in range(len(ls)): ... ls[i] = '//' + l]: the lines written
    back to a source file. *)
Fixpoint patch_lines (ls : list string) : list string :=
  match ls with
  | [] => []
  | l :: ls' => (if to_comment l then "//" +:+ l else l) :: patch_lines ls'
  end.

(** [read_targets]: the return code is only reported; [exists] is
    [os.path.exists]. *)
Fixpoint read_lines (exists_ : string → bool) (ls : list string) (bins : list string)
  : list string :=
  match ls with
  | [] => bins
  | l :: ls' =>
      if str_in "Running " l && str_in "(" l && str_in ")" l then
        let binary := slice l (find l "(" + 1) (find l ")") in
        if exists_ binary then read_lines exists_ ls' (bins ++ [binary])
        else read_lines exists_ ls' bins
      else read_lines exists_ ls' bins
  end.

Definition read_targets (exists_ : string → bool) (returncode : Z)
    (stderr : list string) : list string :=
  read_lines exists_ stderr [].
End RustyUnitRun.

(** The tests [execute_cov] selects from the listings, each with its
    binary, in the order they are run. *)
Definition selected_tests (listing : string → list string) (bins : list string)
  : list (string * string) :=
  bins ≫= λ binary,
    (λ l, (binary, split_head l ": ")) <$>
    filter (λ l, str_in "tests_rug" l || str_in "tests_llm_16" l = true) (listing binary).

(** The commands of a list of tests, numbered from [counter + 1]. *)
Fixpoint numbered (HOME : string) (counter : Z) (tests : list (string * string))
  : list string :=
  match tests with
  | [] => []
  | bt :: tests' =>
      Base4Run.test_command HOME (counter + 1) bt.1 bt.2
      :: numbered HOME (counter + 1) tests'
  end.

(** A line of the shape [a(b)c] with no parenthesis in [a] and no
    closing one in [b]. *)
Definition parenthesized (a b c : string) : string :=
  a +:+ String "("%char (b +:+ String ")"%char c).

Definition outside_parens (a b : string) : Prop :=
  has_char "("%char a = false ∧ has_char ")"%char a = false ∧
  has_char ")"%char b = false.

(** ** [collect_cov.py]: replaying the fuzzing queue of a target *)

Module RulfRun.
(** [target = f[:-3]] *)
Definition target_of (f : string) : string := slice f 0 (-3).

(** ['LLVM_PROFILE_FILE={}/cov/{}.profraw {}/replay/target/debug/{}
       {}/fuzz/{}/default/queue/{}'.format(dir, idx, dir, target, dir, target, ipt)] *)
Definition replay_command (dir : string) (idx : Z) (target ipt : string) : string :=
  "LLVM_PROFILE_FILE=" +:+ dir +:+ "/cov/" +:+ str idx +:+ ".profraw "
    +:+ dir +:+ "/replay/target/debug/" +:+ target +:+ " "
    +:+ dir +:+ "/fuzz/" +:+ target +:+ "/default/queue/" +:+ ipt.

(** The loop over the queue directory of a target, on [idx] and the
    commands run so far. *)
Fixpoint queue_loop (dir target : string) (queue : list string)
    (st : Z * list string) : Z * list string :=
  match queue with
  | [] => st
  | ipt :: queue' =>
      let idx := st.1 + 1 in
      if startswith ipt "id" then
        queue_loop dir target queue' (idx, st.2 ++ [replay_command dir idx target ipt])
      else queue_loop dir target queue' (idx, st.2)
  end.

(** The replay commands [cov_select] runs for the test file [f], where
    [queue] is the listing of the queue directory of its target. *)
Definition replay_queue (dir f : string) (queue : list string) : list string :=
  let target := target_of f in
  (queue_loop dir target queue (0, [])).2.
End RulfRun.

(** ** [rustyunit_replay/main.py]: coverage by function name *)

Module Replay.
Section Pass.
Variable cwd : string.

(** [for regions in func['regions']: if count > 0: has = True] *)
Fixpoint regions_loop (rs : list region) (has : bool) : bool :=
  match rs with
  | [] => has
  | regions :: rs' =>
      let count := reg4 regions in
      regions_loop rs' (if count >? 0 then true else has)
  end.

Definition func_body (mamp_reg : gmap string Z) (f : func) : result (gmap string Z) :=
  if (length (filenames f) <=? 1)%nat then
    match filenames f with
    | [] => raise IndexError
    | filename :: _ =>
        if str_in cwd filename then
          let has := regions_loop (regions f) false in
          let mamp_reg1 :=
            match mamp_reg !! name f with
            | None => <[name f := 0]> mamp_reg
            | Some _ => mamp_reg
            end in
          ret (if has then <[name f := 1]> mamp_reg1 else mamp_reg1)
        else ret mamp_reg
    end
  else raise AssertionError.

Definition reg_total (mamp_reg : gmap string Z) : Z := Z.of_nat (size mamp_reg).

Definition reg_count (mamp_reg : gmap string Z) : Z :=
  Z.of_nat (size (filter (λ kv : string * Z, kv.2 ≠ 0) mamp_reg)).

(** [collect_result]: [None] on the early return, and otherwise the
    dictionary dumped to [cov_map_fn.json] with the pair printed. *)
Definition collect_result (merge_rc export_rc : Z) (obj : export)
  : result (option (gmap string Z * (Z * Z))) :=
  if negb (merge_rc =? 0) then ret None
  else if negb (export_rc =? 0) then raise AssertionError
  else
    let* mamp_reg := for_each func_body obj ∅ in
    ret (Some (mamp_reg, (reg_count mamp_reg, reg_total mamp_reg))).
End Pass.
End Replay.

(** A function record whose file name passes [os.getcwd() in filename]. *)
Definition in_cwd (cwd : string) (f : func) : Prop :=
  ∃ filename rest, filenames f = filename :: rest ∧ str_in cwd filename = true.

(** A function record with a region that was hit. *)
Definition has_hit_region (f : func) : Prop :=
  ∃ r, r ∈ regions f ∧ 0 < reg4 r.

(** ** [rug-gpt/t.py]: comparing the coverage maps of two runs *)

(** [s.replace(old, new)] for a non-empty [old]: the occurrences of [old]
    are replaced from left to right, and [skip] characters of an
    occurrence just replaced are still to be passed over. *)
Fixpoint replace_from (old new : string) (skip : nat) (s : string) : string :=
  match s with
  | EmptyString => EmptyString
  | String a s' =>
      match skip with
      | S skip' => replace_from old new skip' s'
      | O =>
          if String.prefix old s
          then new +:+ replace_from old new (String.length old - 1) s'
          else String a (replace_from old new 0 s')
      end
  end.

Definition replace (s old new : string) : string := replace_from old new 0 s.

Module RugCompare.
Definition rp : string := "/fuzz/llm_base_cov/".
Definition rs : string := "/rug/llm_rug_final_cov/".

(** The body of [for k,v in ma.items()], on [mb] and [ct]. *)
Definition item_body (st : gmap string Z * Z) (kv : string * Z) : gmap string Z * Z :=
  let k := kv.1 in
  let v := kv.2 in
  let nk := replace k rp rs in
  match st.1 !! nk with
  | Some _ => if negb (v =? 0) then (<[nk := 1]> st.1, st.2) else st
  | None => (st.1, st.2 + 1)
  end.

Definition items_loop (ma : list (string * Z)) (st : gmap string Z * Z)
  : gmap string Z * Z :=
  foldl item_body st ma.

Definition cover_of (mb : gmap string Z) : Z :=
  Z.of_nat (size (filter (λ kv : string * Z, kv.2 ≠ 0) mb)).

(** [run_single]: the numbers [cover, total, ct] of its last [print], or
    [None] when one of the two [cov_map.json] files does not exist.  The
    items of [ma] come in the order of the JSON object. *)
Definition run_single (ma : option (list (string * Z))) (mb : option (gmap string Z))
  : option (Z * Z * Z) :=
  match ma, mb with
  | Some ma, Some mb =>
      let st := items_loop ma (mb, 0) in
      let total := Z.of_nat (size st.1) in
      let cover := cover_of st.1 in
      Some (cover, total, st.2)
  | _, _ => None
  end.
End RugCompare.

(** The key of the second run a key of the first run is looked up under. *)
Definition renamed (k : string) : string := replace k RugCompare.rp RugCompare.rs.

(** The items of the first run whose key the second run does not have. *)
Definition missing (mb : gmap string Z) (ma : list (string * Z)) : list (string * Z) :=
  filter (λ kv, mb !! renamed kv.1 = None) ma.

(** Example data for the functions above. *)
Definition replay_demo : export :=
  [demo_func; dep_func; Func "double" ["/p/src/b.rs"] [Region 1 1 1 2 0];
   Func "unused" ["/p/src/b.rs"] [Region 2 1 2 2 0];
   Func "far" ["/q/src/c.rs"] [Region 1 1 1 2 5]].

Definition base_map : list (string * Z) :=
  [("/w/fuzz/llm_base_cov/a.rs/1/1/2/2", 3);
   ("/w/fuzz/llm_base_cov/a.rs/4/1/5/2", 0);
   ("/w/fuzz/llm_base_cov/b.rs/1/1/2/2", 1)].

Definition rug_map : gmap string Z :=
  {[ "/w/rug/llm_rug_final_cov/a.rs/1/1/2/2" := 0;
     "/w/rug/llm_rug_final_cov/a.rs/4/1/5/2" := 0;
     "/w/rug/llm_rug_final_cov/c.rs/1/1/2/2" := 1 ]}.

(** * Properties *)

(** ** Strings and keys *)

Section Strings.
Implicit Types s t x y : string.

Lemma string_app_nil t : "" +:+ t = t.
Proof. reflexivity. Qed.

Lemma string_app_cons a x t : String a x +:+ t = String a (x +:+ t).
Proof. reflexivity. Qed.

Lemma string_app_assoc x y t : (x +:+ y) +:+ t = x +:+ (y +:+ t).
Proof.
  induction x as [|a x IH]; [done|].
  by rewrite !string_app_cons, IH.
Qed.

Lemma has_char_app_mid c x t : has_char c (x +:+ String c t) = true.
Proof.
  induction x as [|a x IH]; rewrite ?string_app_nil, ?string_app_cons; simpl.
  - by rewrite Ascii.eqb_refl.
  - rewrite IH. apply orb_true_r.
Qed.

(** A text ending in a field free of the separator splits in one way
    only at its last separator. *)
Lemma split_last_sep c x y s t :
  has_char c s = false → has_char c t = false →
  x +:+ String c s = y +:+ String c t → x = y ∧ s = t.
Proof.
  intros Hs Ht. revert y.
  induction x as [|a x IH]; intros [|b y];
    rewrite ?string_app_nil, ?string_app_cons; intros Heq.
  - by inversion Heq.
  - inversion Heq; subst. by rewrite has_char_app_mid in Hs.
  - inversion Heq; subst. by rewrite has_char_app_mid in Ht.
  - inversion Heq; subst. destruct (IH y) as [-> ->]; done.
Qed.

Lemma uint_digits_no_slash d : has_char "/"%char (NilEmpty.string_of_uint d) = false.
Proof. induction d; simpl; done. Qed.

Lemma str_no_slash z : has_char "/"%char (str z) = false.
Proof.
  unfold str, NilZero.string_of_int, NilZero.string_of_uint.
  destruct (Z.to_int z) as [d|d]; destruct d; simpl;
    rewrite ?uint_digits_no_slash; done.
Qed.

Lemma to_int_not_nil z : Z.to_int z ≠ Pos Nil ∧ Z.to_int z ≠ Neg Nil.
Proof.
  destruct z as [|p|p]; simpl; split; try done;
    intros [= H]; by apply (DecimalPos.Unsigned.to_uint_nonnil p).
Qed.

Lemma str_inj z1 z2 : str z1 = str z2 → z1 = z2.
Proof.
  unfold str. intros Heq.
  apply DecimalZ.to_int_inj.
  destruct (to_int_not_nil z1) as [H1 H1'], (to_int_not_nil z2) as [H2 H2'].
  pose proof (NilZero.isi _ H1 H1') as E1.
  pose proof (NilZero.isi _ H2 H2') as E2.
  rewrite Heq in E1. congruence.
Qed.

Lemma string_app_sep x c t : (x +:+ String c "") +:+ t = x +:+ String c t.
Proof. by rewrite string_app_assoc, string_app_cons, string_app_nil. Qed.

(** The key as a file name followed by four separated fields. *)
Lemma region_key_unfold filename r :
  region_key filename r =
  (((filename +:+ String "/" (str (reg0 r))) +:+ String "/" (str (reg1 r)))
     +:+ String "/" (str (reg2 r))) +:+ String "/" (str (reg3 r)).
Proof. unfold region_key. by rewrite !string_app_sep. Qed.

(** Equal keys come from the same file and the same four coordinates. *)
Lemma region_key_inj f1 r1 f2 r2 :
  region_key f1 r1 = region_key f2 r2 →
  f1 = f2 ∧ reg0 r1 = reg0 r2 ∧ reg1 r1 = reg1 r2 ∧
  reg2 r1 = reg2 r2 ∧ reg3 r1 = reg3 r2.
Proof.
  rewrite !region_key_unfold. intros H.
  apply split_last_sep in H as [H H3]; [|apply str_no_slash..].
  apply split_last_sep in H as [H H2]; [|apply str_no_slash..].
  apply split_last_sep in H as [H H1]; [|apply str_no_slash..].
  apply split_last_sep in H as [H H0]; [|apply str_no_slash..].
  repeat split; auto using str_inj.
Qed.
End Strings.

(** ** The boundary scan *)

Section Boundary.
Variable is_marker : string → bool.

Lemma scan_lines_clean ls ans :
  Forall (λ l, is_marker l = false) ls →
  scan_lines is_marker ls ans = ans + Z.of_nat (length ls).
Proof.
  intros H. revert ans.
  induction H as [|l ls Hl _ IH]; intros ans; simpl scan_lines.
  - simpl. lia.
  - rewrite Hl, IH. simpl length. lia.
Qed.

Lemma scan_lines_first_marker pre m post ans :
  Forall (λ l, is_marker l = false) pre → is_marker m = true →
  scan_lines is_marker (pre ++ m :: post) ans = ans + Z.of_nat (length pre).
Proof.
  intros H Hm. revert ans.
  induction H as [|l ls Hl _ IH]; intros ans; simpl.
  - rewrite Hm. lia.
  - rewrite Hl, IH. lia.
Qed.

Lemma read_boundary_first_marker fs file pre m post :
  fs file = Some (pre ++ m :: post) →
  Forall (λ l, is_marker l = false) pre → is_marker m = true →
  read_boundary is_marker fs file = inr (Z.of_nat (length pre) + 1).
Proof.
  intros Hf Hpre Hm. unfold read_boundary. rewrite Hf.
  unfold ret. f_equal. rewrite scan_lines_first_marker by done. lia.
Qed.

Lemma read_boundary_clean fs file ls :
  fs file = Some ls → Forall (λ l, is_marker l = false) ls →
  read_boundary is_marker fs file = inr (Z.of_nat (length ls) + 1).
Proof.
  intros Hf Hls. unfold read_boundary. rewrite Hf.
  unfold ret. f_equal. rewrite scan_lines_clean by done. lia.
Qed.
End Boundary.

(** C1, as stated, fails: [/p/src/a.rs] has ten lines and its first
    marker is line 7, yet both [parse_file] variants return 7 and not 6;
    [/p/src/b.rs] has three lines and no marker, and they return 4 and
    not 3. *)
Lemma parse_file_off_by_one :
  length ten_lines = 10%nat ∧
  (∃ pre post, ten_lines = pre ++ "#[cfg(test)]" :: post ∧ length pre = 6%nat ∧
     Forall (λ l, Base4.is_marker l = false) pre) ∧
  Rulf.parse_file demo_tree "/p/src/a.rs" = inr 7 ∧
  Rulf.parse_file demo_tree "/p/src/a.rs" ≠ inr (7 - 1) ∧
  Base4.parse_file demo_tree "/p/src/a.rs" = inr 7 ∧
  Base4.parse_file demo_tree "/p/src/a.rs" ≠ inr (7 - 1) ∧
  length three_lines = 3%nat ∧
  Forall (λ l, Base4.is_marker l = false) three_lines ∧
  Rulf.parse_file demo_tree "/p/src/b.rs" = inr 4 ∧
  Rulf.parse_file demo_tree "/p/src/b.rs" ≠ inr 3 ∧
  Base4.parse_file demo_tree "/p/src/b.rs" = inr 4 ∧
  Base4.parse_file demo_tree "/p/src/b.rs" ≠ inr 3.
Proof.
  split; [reflexivity|]. split.
  { exists (take 6 ten_lines), (drop 7 ten_lines).
    split; [reflexivity|]. split; [reflexivity|].
    repeat constructor. }
  repeat split; try (vm_compute; congruence); try reflexivity.
  repeat constructor.
Qed.

(** C1, amended: [parse_file] returns the 1-based line number [M] of the
    first marker line, that is one more than the number of lines before
    it, and [N + 1] for a file of [N] lines without a marker.  This holds
    for the scan of [collect_cov.py] and for that of [main.py]. *)
Theorem parse_file_boundary (fs : source_tree) (file : string) (ls : list string)
    (Hfile : fs file = Some ls) :
  (∀ pre m post, ls = pre ++ m :: post →
     Forall (λ l, Rulf.is_marker l = false) pre → Rulf.is_marker m = true →
     Rulf.parse_file fs file = inr (Z.of_nat (length pre) + 1)) ∧
  (Forall (λ l, Rulf.is_marker l = false) ls →
     Rulf.parse_file fs file = inr (Z.of_nat (length ls) + 1)) ∧
  (∀ pre m post, ls = pre ++ m :: post →
     Forall (λ l, Base4.is_marker l = false) pre → Base4.is_marker m = true →
     Base4.parse_file fs file = inr (Z.of_nat (length pre) + 1)) ∧
  (Forall (λ l, Base4.is_marker l = false) ls →
     Base4.parse_file fs file = inr (Z.of_nat (length ls) + 1)).
Proof.
  unfold Rulf.parse_file, Base4.parse_file. repeat split.
  - intros pre m post -> Hpre Hm. by eapply read_boundary_first_marker.
  - intros Hls. by eapply read_boundary_clean.
  - intros pre m post -> Hpre Hm. by eapply read_boundary_first_marker.
  - intros Hls. by eapply read_boundary_clean.
Qed.

Lemma parse_file_boundary_witness :
  Rulf.parse_file demo_tree "/p/src/a.rs" = inr 7 ∧
  Base4.parse_file demo_tree "/p/src/a.rs" = inr 7.
Proof.
  pose proof (parse_file_boundary demo_tree "/p/src/a.rs" ten_lines eq_refl)
    as (HR & _ & HB & _).
  split.
  - apply (HR (take 6 ten_lines) "#[cfg(test)]" (drop 7 ten_lines));
      [reflexivity | repeat constructor | reflexivity].
  - apply (HB (take 6 ten_lines) "#[cfg(test)]" (drop 7 ten_lines));
      [reflexivity | repeat constructor | reflexivity].
Defined.

(** ** Loops that may raise *)

Lemma bind_inr {A B : Type} (m : result A) (k : A → result B) (b : B) :
  bind m k = inr b ↔ ∃ a, m = inr a ∧ k a = inr b.
Proof.
  destruct m as [e|a]; simpl; split.
  - done.
  - by intros (a & ? & _).
  - eauto.
  - by intros (a' & [= <-] & ?).
Qed.

Lemma for_each_app {A S : Type} (body : S → A → result S) (xs ys : list A) (s : S) :
  for_each body (xs ++ ys) s = let* s' := for_each body xs s in for_each body ys s'.
Proof.
  revert s. induction xs as [|x xs IH]; intros s; simpl; [done|].
  destruct (body s x) as [e|s1]; simpl; [done | apply IH].
Qed.

(** An invariant of the loop body holds after the loop. *)
Lemma for_each_invariant {A S : Type} (body : S → A → result S) (I : S → Prop)
    (xs : list A) (s s' : S) :
  (∀ s x s', x ∈ xs → I s → body s x = inr s' → I s') →
  I s → for_each body xs s = inr s' → I s'.
Proof.
  revert s. induction xs as [|x xs IH]; intros s Hstep Hs; simpl.
  - by intros [= <-].
  - intros (s1 & H1 & Hrest)%bind_inr.
    apply (IH s1); [|by eapply Hstep; [left|..]|done].
    intros ? ? ? ?. apply Hstep. by right.
Qed.

Lemma foldl_bind_list {A B S : Type} (f : S → B → S) (g : A → list B)
    (l : list A) (s : S) :
  foldl (λ s a, foldl f s (g a)) s l = foldl f s (l ≫= g).
Proof.
  revert s. induction l as [|a l IH]; intros s; [done|].
  rewrite bind_cons, foldl_app. simpl. apply IH.
Qed.

(** ** The shared control flow of the function loops *)

Section WalkFacts.
Variable parse : string → result Z.
Variable accept : string → bool.

Lemma cache_ok_empty : cache_ok parse ∅.
Proof. intros f v. by rewrite lookup_empty. Qed.

Lemma cache_ok_insert map f v :
  cache_ok parse map → parse f = inr v → cache_ok parse (<[f := v]> map).
Proof.
  intros Hok Hf g w. rewrite lookup_insert. case_decide; subst.
  - by intros [= <-].
  - apply Hok.
Qed.

(** With a sound cache, the cached lookup succeeds or fails as [parse]
    does, returns its limit, and leaves the cache sound. *)
Lemma cached_cases map fn :
  cache_ok parse map →
  match parse fn with
  | inl e => cached parse map fn = inl e
  | inr limit => ∃ map', cached parse map fn = inr (map', limit) ∧ cache_ok parse map'
  end.
Proof.
  intros Hok. unfold cached.
  destruct (map !! fn) as [v|] eqn:Hm.
  - rewrite (Hok _ _ Hm). eauto.
  - destruct (parse fn) as [e|limit] eqn:Hp; simpl; [done|].
    eexists; split; [done|]. by apply cache_ok_insert.
Qed.

Lemma cache_body_ok map f map' :
  cache_ok parse map → cache_body parse accept map f = inr map' →
  cache_ok parse map'.
Proof.
  intros Hok. unfold cache_body.
  destruct (length (filenames f) <=? 1)%nat; [|done].
  destruct (filenames f) as [|fn ?]; [done|].
  destruct (accept fn); [|by intros [= <-]].
  pose proof (cached_cases map fn Hok) as Hc.
  destruct (parse fn) as [e|limit].
  - by rewrite Hc.
  - destruct Hc as (m1 & -> & Hok1). simpl. by intros [= <-].
Qed.

Lemma for_each_cache_ok obj map map' :
  cache_ok parse map → for_each (cache_body parse accept) obj map = inr map' →
  cache_ok parse map'.
Proof.
  intros Hok. eapply (for_each_invariant _ (cache_ok parse)); [|done].
  intros ? ? ? _. apply cache_body_ok.
Qed.

(** Whether the walk raises depends on the export only, not on what
    the cache already holds. *)
Lemma cache_body_success map1 map2 f map1' :
  cache_ok parse map1 → cache_ok parse map2 →
  cache_body parse accept map1 f = inr map1' →
  ∃ map2', cache_body parse accept map2 f = inr map2'.
Proof.
  intros Hok1 Hok2. unfold cache_body.
  destruct (length (filenames f) <=? 1)%nat; [|done].
  destruct (filenames f) as [|fn ?]; [done|].
  destruct (accept fn); [|by eauto].
  pose proof (cached_cases map1 fn Hok1) as Hc1.
  pose proof (cached_cases map2 fn Hok2) as Hc2.
  destruct (parse fn) as [e|limit].
  - by rewrite Hc1.
  - destruct Hc2 as (m2 & -> & _). simpl. eauto.
Qed.

Lemma for_each_cache_success obj map1 map2 map1' :
  cache_ok parse map1 → cache_ok parse map2 →
  for_each (cache_body parse accept) obj map1 = inr map1' →
  ∃ map2', for_each (cache_body parse accept) obj map2 = inr map2'.
Proof.
  revert map1 map2.
  induction obj as [|f obj IH]; intros map1 map2 Hok1 Hok2; simpl; [by eauto|].
  intros (m1 & H1 & Hrest)%bind_inr.
  destruct (cache_body_success _ _ _ _ Hok1 Hok2 H1) as (m2 & H2).
  rewrite H2. simpl. eapply (IH m1 m2); eauto using cache_body_ok.
Qed.

(** A function loop whose body is the shared control flow around a
    walk of the regions is the walk folded over the records that pass,
    next to the cache run. *)
Lemma for_each_walk {St : Type}
    (body : gmap string Z * St → func → result (gmap string Z * St))
    (walk : St → string * Z * list region → St) :
  (∀ map s f, cache_ok parse map →
     body (map, s) f =
     let* map' := cache_body parse accept map f in
     ret (map', foldl walk s (walked parse accept f))) →
  ∀ obj map s, cache_ok parse map →
    for_each body obj (map, s) =
    let* map' := for_each (cache_body parse accept) obj map in
    ret (map', foldl walk s (obj ≫= walked parse accept)).
Proof.
  intros Hbody obj.
  induction obj as [|f obj IH]; intros map s Hok; simpl; [done|].
  rewrite Hbody by done.
  destruct (cache_body parse accept map f) as [e|m1] eqn:Hc; simpl; [done|].
  rewrite IH by (by eapply cache_body_ok).
  by rewrite foldl_app.
Qed.

(** The shape of [walked] under the shared control flow. *)
Lemma body_walk_cases map f :
  cache_ok parse map →
  (∃ e, cache_body parse accept map f = inl e) ∨
  (∃ fn rest, filenames f = fn :: rest ∧ accept fn = false ∧
     cache_body parse accept map f = inr map ∧ walked parse accept f = []) ∨
  (∃ fn rest limit map', filenames f = fn :: rest ∧ accept fn = true ∧
     parse fn = inr limit ∧ cached parse map fn = inr (map', limit) ∧
     cache_body parse accept map f = inr map' ∧
     walked parse accept f = [(fn, limit, regions f)]).
Proof.
  intros Hok. unfold cache_body, walked.
  destruct (length (filenames f) <=? 1)%nat; [|left; by eauto].
  destruct (filenames f) as [|fn rest]; [left; by eauto|].
  destruct (accept fn) eqn:Hacc; [|right; left; by eauto 10].
  pose proof (cached_cases map fn Hok) as Hc.
  destruct (parse fn) as [e|limit] eqn:Hp.
  - left. rewrite Hc. by eauto.
  - destruct Hc as (m1 & Hc & _). right; right. rewrite Hc. simpl.
    exists fn, rest, limit, m1. done.
Qed.

(** What is known of a region that reaches the store update. *)
Lemma elem_of_walked w f :
  w ∈ walked parse accept f →
  head (filenames f) = Some w.1.1 ∧ accept w.1.1 = true ∧
  parse w.1.1 = inr w.1.2 ∧ w.2 = regions f.
Proof.
  unfold walked. destruct (filenames f) as [|fn rest]; [by intros ?%elem_of_nil|].
  destruct (accept fn) eqn:Hacc; [|by intros ?%elem_of_nil].
  destruct (parse fn) as [e|limit] eqn:Hp; [by intros ?%elem_of_nil|].
  intros ->%list_elem_of_singleton. done.
Qed.

Lemma take_while_elem {A : Type} (p : A → bool) (l : list A) x :
  x ∈ take_while p l → x ∈ l ∧ p x = true.
Proof.
  induction l as [|y l IH]; simpl; [by intros ?%elem_of_nil|].
  destruct (p y) eqn:Hy; [|by intros ?%elem_of_nil].
  intros [->|Hin]%elem_of_cons.
  - split; [left|done].
  - destruct (IH Hin). split; [by right|done].
Qed.

Lemma within_le limit r : within limit r = true ↔ reg2 r ≤ limit.
Proof. unfold within. destruct (Z.gtb_spec (reg2 r) limit); simpl; split; (done || lia). Qed.

Lemma elem_of_emitted_break obj p :
  p ∈ emitted_break parse accept obj →
  ∃ f limit, f ∈ obj ∧ head (filenames f) = Some p.1 ∧ accept p.1 = true ∧
    parse p.1 = inr limit ∧ p.2 ∈ regions f ∧ reg2 p.2 ≤ limit.
Proof.
  unfold emitted_break.
  intros (w & Hp & (f & Hw & Hf)%list_elem_of_bind)%list_elem_of_bind.
  apply elem_of_walked in Hw as (Hhead & Hacc & Hparse & Hregs).
  unfold reached_break in Hp.
  apply list_elem_of_fmap in Hp as (r & -> & Hr).
  apply take_while_elem in Hr as [Hr Hle]. apply within_le in Hle.
  exists f, w.1.2. simpl. rewrite <- Hregs. done.
Qed.

Lemma elem_of_emitted_continue obj p :
  p ∈ emitted_continue parse accept obj →
  ∃ f limit, f ∈ obj ∧ head (filenames f) = Some p.1 ∧ accept p.1 = true ∧
    parse p.1 = inr limit ∧ p.2 ∈ regions f ∧ reg2 p.2 ≤ limit.
Proof.
  unfold emitted_continue.
  intros (w & Hp & (f & Hw & Hf)%list_elem_of_bind)%list_elem_of_bind.
  apply elem_of_walked in Hw as (Hhead & Hacc & Hparse & Hregs).
  unfold reached_continue in Hp.
  apply list_elem_of_fmap in Hp as (r & -> & Hr).
  apply list_elem_of_filter in Hr as [Hle Hr]. apply within_le in Hle.
  exists f, w.1.2. simpl. rewrite <- Hregs. done.
Qed.
End WalkFacts.

(** ** Folding a store update over the emitted regions *)

Section Folds.
Context {V : Type}.
Variable upd : gmap string V → string * region → gmap string V.
Hypothesis upd_other : ∀ m p k, key_of p ≠ k → upd m p !! k = m !! k.
Hypothesis upd_key : ∀ m p, is_Some (upd m p !! key_of p).

Lemma upd_keeps m p k : is_Some (m !! k) → is_Some (upd m p !! k).
Proof.
  intros Hk. destruct (decide (key_of p = k)) as [<-|Hne]; [apply upd_key|].
  by rewrite upd_other.
Qed.

Lemma foldl_upd_other l m k :
  k ∉ key_of <$> l → foldl upd m l !! k = m !! k.
Proof.
  revert m. induction l as [|p l IH]; intros m Hk; [done|].
  rewrite fmap_cons, not_elem_of_cons in Hk. destruct Hk as [Hne Hk].
  simpl. rewrite IH by done. by apply upd_other.
Qed.

Lemma foldl_upd_dom l m k :
  is_Some (foldl upd m l !! k) ↔ is_Some (m !! k) ∨ k ∈ key_of <$> l.
Proof.
  revert m. induction l as [|p l IH]; intros m; simpl.
  - rewrite elem_of_nil. tauto.
  - rewrite IH, elem_of_cons.
    destruct (decide (key_of p = k)) as [<-|Hne].
    + split; [auto|]. intros _. left. apply upd_key.
    + rewrite upd_other by done. split; [tauto|].
      intros [?|[?|?]]; [tauto | congruence | tauto].
Qed.

Lemma foldl_upd_keeps l m k : is_Some (m !! k) → is_Some (foldl upd m l !! k).
Proof. intros ?. apply foldl_upd_dom. by left. Qed.
End Folds.

Section UpdateFacts.
Implicit Types (m : gmap string Z) (p : string * region) (k : string).

Lemma update_bool_other m p k : key_of p ≠ k → update_bool m p !! k = m !! k.
Proof. intros ?. unfold update_bool. case_match; by rewrite lookup_insert_ne. Qed.

Lemma update_bool_key m p : is_Some (update_bool m p !! key_of p).
Proof. unfold update_bool. case_match; rewrite lookup_insert_eq; eauto. Qed.

Lemma update_bool_hit m p : 0 < reg4 p.2 → update_bool m p !! key_of p = Some 1.
Proof.
  intros H. unfold update_bool.
  destruct (Z.gtb_spec (reg4 p.2) 0); [|lia]. apply lookup_insert_eq.
Qed.

Lemma update_bool_nohit m p :
  reg4 p.2 ≤ 0 → update_bool m p !! key_of p = Some (default 0 (m !! key_of p)).
Proof.
  intros H. unfold update_bool.
  destruct (Z.gtb_spec (reg4 p.2) 0); [lia|]. apply lookup_insert_eq.
Qed.

(** An entry set to 1 stays 1. *)
Lemma update_bool_one m p k : m !! k = Some 1 → update_bool m p !! k = Some 1.
Proof.
  intros Hk. destruct (decide (key_of p = k)) as [<-|Hne].
  - destruct (Z.lt_ge_cases 0 (reg4 p.2)).
    + by apply update_bool_hit.
    + rewrite update_bool_nohit by lia. by rewrite Hk.
  - by rewrite update_bool_other.
Qed.

Lemma foldl_bool_one l m k :
  m !! k = Some 1 → foldl update_bool m l !! k = Some 1.
Proof.
  revert m. induction l as [|p l IH]; intros m Hk; [done|].
  simpl. apply IH. by apply update_bool_one.
Qed.

(** Some emitted region of the key has a positive count: the entry is 1. *)
Lemma foldl_bool_hit l m k :
  Exists (λ p, key_of p = k ∧ 0 < reg4 p.2) l →
  foldl update_bool m l !! k = Some 1.
Proof.
  intros H. revert m. induction H as [p l [<- Hp]|p l _ IH]; intros m; simpl.
  - apply foldl_bool_one. by apply update_bool_hit.
  - apply IH.
Qed.

(** The key is emitted, never with a positive count: the entry keeps
    its old value, or is created with 0. *)
Lemma foldl_bool_nohit l m k :
  k ∈ key_of <$> l → Forall (λ p, key_of p = k → reg4 p.2 ≤ 0) l →
  foldl update_bool m l !! k = Some (default 0 (m !! k)).
Proof.
  intros Hin Hall. revert m Hin.
  induction Hall as [|p l Hp Hall IH]; intros m Hin; [by apply elem_of_nil in Hin|].
  simpl. destruct (decide (key_of p = k)) as [<-|Hne].
  - destruct (decide (key_of p ∈ key_of <$> l)) as [Hl|Hl].
    + rewrite IH by done. rewrite update_bool_nohit by auto. done.
    + rewrite (foldl_upd_other _ update_bool_other) by done.
      by apply update_bool_nohit; auto.
  - rewrite fmap_cons, elem_of_cons in Hin. destruct Hin as [?|Hin]; [congruence|].
    rewrite IH by done. by rewrite update_bool_other.
Qed.

Lemma hits_case l k :
  Exists (λ p, key_of p = k ∧ 0 < reg4 p.2) l ∨
  Forall (λ p, key_of p = k → reg4 p.2 ≤ 0) l.
Proof.
  induction l as [|p l [IH|IH]]; [by right| by left; right |].
  destruct (decide (key_of p = k)) as [Hk|Hk].
  - destruct (Z.lt_ge_cases 0 (reg4 p.2)).
    + left; left. done.
    + right. constructor; [intros; lia | done].
  - right. constructor; [done | done].
Qed.

(** Merging the same emitted regions again changes nothing. *)
Lemma foldl_bool_idem l m :
  foldl update_bool (foldl update_bool m l) l = foldl update_bool m l.
Proof.
  apply map_eq. intros k.
  destruct (hits_case l k) as [Hhit|Hno].
  - by rewrite !foldl_bool_hit.
  - destruct (decide (k ∈ key_of <$> l)) as [Hin|Hin].
    + rewrite (foldl_bool_nohit l (foldl update_bool m l)) by done.
      by rewrite foldl_bool_nohit.
    + by rewrite (foldl_upd_other _ update_bool_other l (foldl update_bool m l)).
Qed.

Lemma update_seen_other m p k : key_of p ≠ k → update_seen m p !! k = m !! k.
Proof. intros ?. unfold update_seen. case_match; [done|]. by rewrite lookup_insert_ne. Qed.

Lemma update_seen_key m p : is_Some (update_seen m p !! key_of p).
Proof.
  unfold update_seen. destruct (m !! key_of p) eqn:H; [by rewrite H|].
  rewrite lookup_insert_eq. eauto.
Qed.

Lemma update_max_other m p k : key_of p ≠ k → update_max m p !! k = m !! k.
Proof. intros ?. unfold update_max. by rewrite lookup_insert_ne. Qed.

Lemma update_max_key m p : is_Some (update_max m p !! key_of p).
Proof. unfold update_max. rewrite lookup_insert_eq. eauto. Qed.
End UpdateFacts.

Section SumFacts.
Implicit Types (m : gmap string (Z * Z)) (p : string * region) (k : string).

Lemma update_sum_other m p k : key_of p ≠ k → update_sum m p !! k = m !! k.
Proof. intros ?. unfold update_sum. case_match; by rewrite lookup_insert_ne. Qed.

Lemma update_sum_key m p : is_Some (update_sum m p !! key_of p).
Proof. unfold update_sum. case_match; rewrite lookup_insert_eq; eauto. Qed.

(** An entry that exists keeps its line count and gains the hits. *)
Lemma foldl_sum_old l m k v :
  m !! k = Some v → foldl update_sum m l !! k = Some (v.1, v.2 + hits k l).
Proof.
  revert m v. induction l as [|p l IH]; intros m v Hk; simpl.
  - rewrite Hk. destruct v; simpl. do 2 f_equal. lia.
  - case_decide as Hp.
    + subst k. erewrite IH; last first.
      { unfold update_sum. rewrite Hk. apply lookup_insert_eq. }
      simpl. do 2 f_equal. lia.
    + erewrite IH; [done|]. by rewrite update_sum_other.
Qed.

(** A new entry holds the hits of the pass. *)
Lemma foldl_sum_new l m k :
  m !! k = None → k ∈ key_of <$> l →
  ∃ lines, foldl update_sum m l !! k = Some (lines, hits k l).
Proof.
  revert m. induction l as [|p l IH]; intros m Hk Hin; [by apply elem_of_nil in Hin|].
  simpl. case_decide as Hp.
  - subst k. eexists. erewrite foldl_sum_old; last first.
    { unfold update_sum. rewrite Hk. apply lookup_insert_eq. }
    done.
  - rewrite fmap_cons, elem_of_cons in Hin. destruct Hin as [?|Hin]; [congruence|].
    destruct (IH (update_sum m p)) as (lines & ->); [|done|].
    + by rewrite update_sum_other.
    + exists lines. do 2 f_equal.
  Qed.

Lemma hits_nonneg l k : Forall (λ p, 0 ≤ reg4 p.2) l → 0 ≤ hits k l.
Proof.
  induction 1 as [|p l Hp _ IH]; simpl; [lia|]. case_decide; lia.
Qed.
End SumFacts.

(** ** The function loops as folds *)

(** Splits a function body along the shared control flow. *)
Ltac walk_body Hok loop_eq :=
  unfold cache_body, walked; cbv beta;
  match goal with
  | |- context [length (filenames ?f)] =>
      destruct (length (filenames f) <=? 1)%nat; [|done];
      destruct (filenames f) as [|?fn ?rest]; [done|]
  end;
  match goal with
  | |- context [if ?c then bind (cached ?parse ?map ?fn) _ else _] =>
      destruct c; [|done];
      pose proof (cached_cases parse map fn Hok) as Hc;
      destruct (parse fn) as [?e|?limit]; [by rewrite Hc|];
      destruct Hc as (?m1 & -> & _); simpl; by rewrite loop_eq
  end.

Section Base4Facts.
Variable cwd : string.
Variable fs : source_tree.

Lemma base4_regions_loop fn limit rs m :
  Base4.regions_loop fn limit rs m =
  foldl update_bool m (reached_break (fn, limit, rs)).
Proof.
  unfold reached_break; simpl. revert m.
  induction rs as [|r rs IH]; intros m; simpl; [done|].
  unfold within. destruct (reg2 r >? limit); simpl; [done|]. by rewrite IH.
Qed.

Lemma base4_func_body map m f :
  cache_ok (Base4.parse_file fs) map →
  Base4.func_body cwd fs (map, m) f =
  let* map' := cache_body (Base4.parse_file fs) (str_in cwd) map f in
  ret (map', foldl (λ m w, foldl update_bool m (reached_break w)) m
               (walked (Base4.parse_file fs) (str_in cwd) f)).
Proof. intros Hok. unfold Base4.func_body. walk_body Hok base4_regions_loop. Qed.

(** The loop of [main.py] over an export: it raises as the cache run
    does, and otherwise folds the boolean update over the emitted
    regions. *)
Lemma base4_functions_loop obj m :
  Base4.functions_loop cwd fs obj m =
  let* _ := for_each (cache_body (Base4.parse_file fs) (str_in cwd)) obj ∅ in
  ret (foldl update_bool m (emitted_break (Base4.parse_file fs) (str_in cwd) obj)).
Proof.
  unfold Base4.functions_loop.
  rewrite (for_each_walk _ _ _ _ base4_func_body) by apply cache_ok_empty.
  destruct (for_each _ obj ∅) as [e|map']; simpl; [done|].
  by rewrite foldl_bind_list.
Qed.

Lemma base4_functions_loop_inr obj m m' :
  Base4.functions_loop cwd fs obj m = inr m' →
  m' = foldl update_bool m (emitted_break (Base4.parse_file fs) (str_in cwd) obj).
Proof.
  rewrite base4_functions_loop.
  destruct (for_each _ obj ∅) as [e|map']; simpl; [done|]. by intros [= <-].
Qed.

(** Whether the loop raises does not depend on the store. *)
Lemma base4_functions_loop_success obj m1 m1' m2 :
  Base4.functions_loop cwd fs obj m1 = inr m1' →
  ∃ m2', Base4.functions_loop cwd fs obj m2 = inr m2'.
Proof.
  rewrite !base4_functions_loop.
  destruct (for_each _ obj ∅) as [e|map']; simpl; [done|]. eauto.
Qed.
End Base4Facts.

Section RulfFacts.
Variable cwd : string.
Variable fs : source_tree.

Lemma rulf_regions_loop fn limit rs m :
  Rulf.regions_loop fn limit rs m =
  foldl update_sum m (reached_continue (fn, limit, rs)).
Proof.
  unfold reached_continue; simpl. revert m.
  induction rs as [|r rs IH]; intros m; simpl; [done|].
  rewrite filter_cons.
  destruct (decide (within limit r = true)) as [Hw|Hw];
    unfold within in Hw; destruct (reg2 r >? limit); simpl in *; done.
Qed.

Lemma rulf_func_body map m f :
  cache_ok (Rulf.parse_file fs) map →
  Rulf.func_body cwd fs (map, m) f =
  let* map' := cache_body (Rulf.parse_file fs) (rulf_accept cwd) map f in
  ret (map', foldl (λ m w, foldl update_sum m (reached_continue w)) m
               (walked (Rulf.parse_file fs) (rulf_accept cwd) f)).
Proof.
  intros Hok. unfold Rulf.func_body, rulf_accept.
  walk_body Hok rulf_regions_loop.
Qed.

Lemma rulf_for_each obj map m :
  cache_ok (Rulf.parse_file fs) map →
  for_each (Rulf.func_body cwd fs) obj (map, m) =
  let* map' := for_each (cache_body (Rulf.parse_file fs) (rulf_accept cwd)) obj map in
  ret (map', foldl update_sum m
               (emitted_continue (Rulf.parse_file fs) (rulf_accept cwd) obj)).
Proof.
  intros Hok.
  rewrite (for_each_walk _ _ _ _ rulf_func_body) by done.
  destruct (for_each _ obj map) as [e|map']; simpl; [done|].
  by rewrite foldl_bind_list.
Qed.
End RulfFacts.

Section RustyUnitFacts.
Variable cwd : string.
Variable fs : source_tree.

Lemma rusty_update m p :
  <[key_of p := Z.max (reg4 p.2)
      (default 0 (match m !! key_of p with
                  | None => <[key_of p := 0]> m
                  | Some _ => m
                  end !! key_of p))]>
    match m !! key_of p with
    | None => <[key_of p := 0]> m
    | Some _ => m
    end = update_max m p.
Proof.
  unfold update_max. destruct (m !! key_of p) as [v|] eqn:Hk.
  - by rewrite Hk.
  - by rewrite lookup_insert_eq, insert_insert_eq.
Qed.

Lemma rusty_regions_loop fn limit rs m :
  RustyUnit.regions_loop fn limit rs m =
  foldl update_max m (reached_break (fn, limit, rs)).
Proof.
  unfold reached_break; simpl. revert m.
  induction rs as [|r rs IH]; intros m; simpl; [done|].
  unfold within. destruct (reg2 r >? limit); simpl; [done|].
  rewrite IH. f_equal. apply (rusty_update m (fn, r)).
Qed.

Lemma rusty_func_body map m f :
  cache_ok (RustyUnit.parse_file fs) map →
  RustyUnit.func_body cwd fs (map, m) f =
  let* map' := cache_body (RustyUnit.parse_file fs) (rusty_accept cwd) map f in
  ret (map', foldl (λ m w, foldl update_max m (reached_break w)) m
               (walked (RustyUnit.parse_file fs) (rusty_accept cwd) f)).
Proof.
  intros Hok. unfold RustyUnit.func_body, rusty_accept.
  walk_body Hok rusty_regions_loop.
Qed.

Lemma rusty_for_each obj map m :
  cache_ok (RustyUnit.parse_file fs) map →
  for_each (RustyUnit.func_body cwd fs) obj (map, m) =
  let* map' := for_each (cache_body (RustyUnit.parse_file fs) (rusty_accept cwd)) obj map in
  ret (map', foldl update_max m
               (emitted_break (RustyUnit.parse_file fs) (rusty_accept cwd) obj)).
Proof.
  intros Hok.
  rewrite (for_each_walk _ _ _ _ rusty_func_body) by done.
  destruct (for_each _ obj map) as [e|map']; simpl; [done|].
  by rewrite foldl_bind_list.
Qed.
End RustyUnitFacts.

Section CovCollectFacts.
Variable cwd : string.
Variable fs : source_tree.

Lemma covcollect_regions_loop fn limit rs s has_hit :
  CovCollect.mamp_reg (CovCollect.regions_loop fn limit rs s has_hit).1.1 =
    foldl update_seen (CovCollect.mamp_reg s) (reached_break (fn, limit, rs)) ∧
  CovCollect.map (CovCollect.regions_loop fn limit rs s has_hit).1.1 =
    CovCollect.map s.
Proof.
  unfold reached_break; simpl. revert s has_hit.
  induction rs as [|r rs IH]; intros s has_hit; simpl; [done|].
  unfold within. destruct (reg2 r >? limit); simpl; [done|].
  unfold update_seen at 2, key_of; simpl.
  destruct (CovCollect.mamp_reg s !! region_key fn r) eqn:Hk; [apply IH|].
  destruct (reg4 r >? 0);
    match goal with
    | |- context [CovCollect.regions_loop fn limit rs ?s1 ?h] =>
        destruct (IH s1 h) as [-> ->]; done
    end.
Qed.

Lemma covcollect_func_body s f s' :
  cache_ok (CovCollect.parse_file fs) (CovCollect.map s) →
  CovCollect.func_body cwd fs s f = inr s' →
  cache_ok (CovCollect.parse_file fs) (CovCollect.map s') ∧
  CovCollect.mamp_reg s' =
    foldl (λ m w, foldl update_seen m (reached_break w)) (CovCollect.mamp_reg s)
      (walked (CovCollect.parse_file fs) (str_in cwd) f).
Proof.
  intros Hok. unfold CovCollect.func_body, walked.
  destruct (length (filenames f) <=? 1)%nat; [|done].
  destruct (filenames f) as [|fn rest]; [done|].
  destruct (str_in cwd fn); [|by intros [= <-]].
  pose proof (cached_cases _ _ fn Hok) as Hc.
  destruct (CovCollect.parse_file fs fn) as [e|limit]; [by rewrite Hc|].
  destruct Hc as (m1 & -> & Hok1). simpl.
  match goal with
  | |- context [CovCollect.regions_loop fn limit (regions f) ?s0 false] =>
      pose proof (covcollect_regions_loop fn limit (regions f) s0 false) as [Hm Hc];
      destruct (CovCollect.regions_loop fn limit (regions f) s0 false)
        as [[s1 is_valid_func] has_hit]
  end.
  simpl in Hm, Hc.
  destruct is_valid_func; intros [= <-]; simpl; rewrite Hc; done.
Qed.

(** The loop of [cov_collect.py] over an export, when it does not
    raise: the keys seen are those of the emitted regions. *)
Lemma covcollect_for_each obj s s' :
  cache_ok (CovCollect.parse_file fs) (CovCollect.map s) →
  for_each (CovCollect.func_body cwd fs) obj s = inr s' →
  cache_ok (CovCollect.parse_file fs) (CovCollect.map s') ∧
  CovCollect.mamp_reg s' =
    foldl update_seen (CovCollect.mamp_reg s)
      (emitted_break (CovCollect.parse_file fs) (str_in cwd) obj).
Proof.
  unfold emitted_break. rewrite <- foldl_bind_list.
  revert s. induction obj as [|f obj IH]; intros s Hok; simpl.
  - by intros [= <-].
  - intros (s1 & H1 & Hrest)%bind_inr.
    apply covcollect_func_body in H1 as [Hok1 Hm1]; [|done].
    destruct (IH s1 Hok1 Hrest) as [Hok' Hm']. split; [done|].
    by rewrite foldl_app, Hm', Hm1.
Qed.
End CovCollectFacts.

(** ** Keys that are never emitted *)

Section Filtering.
Variable parse : string → result Z.
Variable accept : string → bool.

Lemma beyond_not_emitted_break obj fn limit r :
  parse fn = inr limit → limit < reg2 r →
  region_key fn r ∉ key_of <$> emitted_break parse accept obj.
Proof.
  intros Hp Hlt (p & Hk & Hin)%list_elem_of_fmap.
  apply elem_of_emitted_break in Hin as (f & lim & _ & _ & _ & Hp' & _ & Hle).
  apply region_key_inj in Hk as (-> & _ & _ & Hr & _).
  rewrite Hp in Hp'. injection Hp' as <-. lia.
Qed.

Lemma beyond_not_emitted_continue obj fn limit r :
  parse fn = inr limit → limit < reg2 r →
  region_key fn r ∉ key_of <$> emitted_continue parse accept obj.
Proof.
  intros Hp Hlt (p & Hk & Hin)%list_elem_of_fmap.
  apply elem_of_emitted_continue in Hin as (f & lim & _ & _ & _ & Hp' & _ & Hle).
  apply region_key_inj in Hk as (-> & _ & _ & Hr & _).
  rewrite Hp in Hp'. injection Hp' as <-. lia.
Qed.

Lemma rejected_not_emitted_break obj fn r :
  accept fn = false →
  region_key fn r ∉ key_of <$> emitted_break parse accept obj.
Proof.
  intros Hacc (p & Hk & Hin)%list_elem_of_fmap.
  apply elem_of_emitted_break in Hin as (f & lim & _ & _ & Hacc' & _).
  apply region_key_inj in Hk as (-> & _). congruence.
Qed.

Lemma rejected_not_emitted_continue obj fn r :
  accept fn = false →
  region_key fn r ∉ key_of <$> emitted_continue parse accept obj.
Proof.
  intros Hacc (p & Hk & Hin)%list_elem_of_fmap.
  apply elem_of_emitted_continue in Hin as (f & lim & _ & _ & Hacc' & _).
  apply region_key_inj in Hk as (-> & _). congruence.
Qed.
End Filtering.

Section Runs.
Variable cwd : string.
Variable fs : source_tree.

Lemma covcollect_collect_result merge_rc export_rc obj s :
  CovCollect.collect_result cwd fs merge_rc export_rc obj = inr s →
  CovCollect.mamp_reg s =
    foldl update_seen ∅ (emitted_break (CovCollect.parse_file fs) (str_in cwd) obj).
Proof.
  unfold CovCollect.collect_result.
  destruct (negb (merge_rc =? 0)); [done|].
  destruct (negb (export_rc =? 0)); [done|].
  intros H. apply covcollect_for_each in H as [_ H]; [done|].
  apply cache_ok_empty.
Qed.

(** The targets of [cov_select]: the store folds the summing update
    over the emitted regions of all exports, in order. *)
Lemma rulf_targets targets map m map' m' :
  cache_ok (Rulf.parse_file fs) map →
  for_each (Rulf.target_body cwd fs) targets (map, m) = inr (map', m') →
  cache_ok (Rulf.parse_file fs) map' ∧
  m' = foldl update_sum m
         (targets ≫= λ t, emitted_continue (Rulf.parse_file fs) (rulf_accept cwd) t.2).
Proof.
  revert map m. induction targets as [|[rc obj] ts IH]; intros map m Hok; simpl.
  - by intros [= <- <-].
  - intros ([map1 m1] & H1 & Hrest)%bind_inr.
    destruct (negb (rc =? 0)); [done|].
    rewrite rulf_for_each in H1 by done.
    apply bind_inr in H1 as (mapx & Hc & [= <- <-]).
    apply for_each_cache_ok in Hc; [|done].
    destruct (IH _ _ Hc Hrest) as [Hok' ->]. split; [done|].
    by rewrite foldl_app.
Qed.
End Runs.

(** ** C10: the key function *)

(** C10, as stated, fails: no two distinct tuples of a file path and four
    integer coordinates have the same key.  The decimal form of an
    integer holds no ['/'], so the last four separators of a key delimit
    the coordinates whatever the path contains. *)
Lemma region_key_no_collision :
  ¬ ∃ f1 r1 f2 r2,
      (f1, reg0 r1, reg1 r1, reg2 r1, reg3 r1) ≠
      (f2, reg0 r2, reg1 r2, reg2 r2, reg3 r2) ∧
      region_key f1 r1 = region_key f2 r2.
Proof.
  intros (f1 & r1 & f2 & r2 & Hne & Heq).
  apply region_key_inj in Heq as (E & E0 & E1 & E2 & E3).
  apply Hne. congruence.
Qed.

(** C10, amended: the key is a function of the file path and the four
    coordinates (equal tuples give equal keys), and it is injective on
    them: two regions share a key exactly when they agree on the path,
    start line, start column, end line and end column. *)
Theorem region_key_injective (f1 f2 : string) (r1 r2 : region) :
  region_key f1 r1 = region_key f2 r2 ↔
  f1 = f2 ∧ reg0 r1 = reg0 r2 ∧ reg1 r1 = reg1 r2 ∧
  reg2 r1 = reg2 r2 ∧ reg3 r1 = reg3 r2.
Proof.
  split; [apply region_key_inj|].
  intros (-> & H0 & H1 & H2 & H3). unfold region_key. by rewrite H0, H1, H2, H3.
Qed.

Lemma region_key_injective_witness :
  region_key "/p/src/a.rs" (Region 2 1 5 2 3) =
  region_key "/p/src/a.rs" (Region 2 1 5 2 0).
Proof. apply region_key_injective. simpl. done. Defined.

(** ** C6: regions past the boundary *)

(** C6, as stated, fails on the marker line.  Six production lines of
    [/p/src/a.rs] come before the marker on line 7, so line 6 is the
    last production line.  A region that ends on line 7 lies beyond it,
    and yet both scripts store its key: they compare the end line with
    the limit 7 that [parse_file] returns, and 7 > 7 is false. *)
Lemma marker_line_region_inserted :
  ten_lines = take 6 ten_lines ++ "#[cfg(test)]" :: drop 7 ten_lines ∧
  Forall (λ l, Base4.is_marker l = false) (take 6 ten_lines) ∧
  length (take 6 ten_lines) = 6%nat ∧
  regions edge_func = [Region 6 1 7 2 4] ∧
  6 < reg2 (Region 6 1 7 2 4) ∧
  Base4.functions_loop "/p" demo_tree [edge_func] ∅
    = inr {[ region_key "/p/src/a.rs" (Region 6 1 7 2 4) := 1 ]} ∧
  match CovCollect.collect_result "/p" demo_tree 0 0 [edge_func] with
  | inr s =>
      CovCollect.mamp_reg s !! region_key "/p/src/a.rs" (Region 6 1 7 2 4) = Some 1 ∧
      CovCollect.reg_total s = 1 ∧ CovCollect.reg_count s = 1
  | inl _ => False
  end.
Proof.
  split; [reflexivity|]. split; [repeat constructor|].
  split; [reflexivity|]. split; [reflexivity|]. split; [reflexivity|].
  split; [vm_compute; reflexivity|].
  vm_compute. repeat split; reflexivity.
Qed.

(** C6, amended: a region whose end line exceeds the limit that
    [parse_file] returns for its file never has its key inserted:
    [main.py] leaves the entry of that key as the loaded store had it,
    and [cov_collect.py], whose store starts empty, ends without it. *)
Theorem beyond_boundary_never_inserted (cwd : string) (fs : source_tree)
    (obj : export) (fn : string) (r : region) :
  (∀ limit m m',
     Base4.parse_file fs fn = inr limit → limit < reg2 r →
     Base4.functions_loop cwd fs obj m = inr m' →
     m' !! region_key fn r = m !! region_key fn r) ∧
  (∀ limit merge_rc export_rc s,
     CovCollect.parse_file fs fn = inr limit → limit < reg2 r →
     CovCollect.collect_result cwd fs merge_rc export_rc obj = inr s →
     CovCollect.mamp_reg s !! region_key fn r = None).
Proof.
  split.
  - intros limit m m' Hp Hlt ->%base4_functions_loop_inr.
    apply (foldl_upd_other _ update_bool_other).
    by eapply beyond_not_emitted_break.
  - intros limit merge_rc export_rc s Hp Hlt ->%covcollect_collect_result.
    rewrite (foldl_upd_other _ update_seen_other); [done|].
    by eapply beyond_not_emitted_break.
Qed.

Lemma beyond_boundary_never_inserted_witness :
  Base4.functions_loop "/p" demo_tree [demo_func] ∅
    = inr {[ "/p/src/a.rs/2/1/5/2" := 1 ]} ∧
  ({[ "/p/src/a.rs/2/1/5/2" := 1 ]} : gmap string Z)
    !! region_key "/p/src/a.rs" (Region 8 1 9 2 1) = None.
Proof.
  assert (Base4.functions_loop "/p" demo_tree [demo_func] ∅
            = inr {[ "/p/src/a.rs/2/1/5/2" := 1 ]}) as Hrun by (vm_compute; reflexivity).
  split; [exact Hrun|].
  destruct (beyond_boundary_never_inserted "/p" demo_tree [demo_func]
              "/p/src/a.rs" (Region 8 1 9 2 1)) as [HB _].
  rewrite (HB 7 ∅ _ eq_refl eq_refl Hrun). done.
Defined.

(** ** C7: files outside the project *)

(** C7, as stated, fails: the scripts test [os.getcwd() in filename], a
    substring test.  [/p] is not a prefix of [/x/p/src/lib.rs], yet the
    function of that file is accepted and its region enters the store of
    [cov_collect.py] and of [collect_cov.py]. *)
Lemma unrooted_file_accepted :
  String.prefix "/p" "/x/p/src/lib.rs" = false ∧
  match CovCollect.collect_result "/p" demo_tree 0 0 [dep_func] with
  | inr s => CovCollect.mamp_reg s !! region_key "/x/p/src/lib.rs" (Region 1 1 3 2 4)
             = Some 1
  | inl _ => False
  end ∧
  match for_each (Rulf.target_body "/p" demo_tree) [(0, [dep_func])] (∅, ∅) with
  | inr (_, mamp_reg) =>
      mamp_reg !! region_key "/x/p/src/lib.rs" (Region 1 1 3 2 4) = Some (3, 4)
  | inl _ => False
  end.
Proof. by vm_compute. Qed.

(** C7, amended: a function record whose file path does not contain the
    working directory as a substring is skipped, and no region of such a
    file is a key of the store: not after [collect_result] of
    [cov_collect.py], and not after the target loop of [cov_select]. *)
Theorem outside_cwd_never_inserted (cwd : string) (fs : source_tree)
    (fn : string) (r : region) (Hout : str_in cwd fn = false) :
  (∀ s f rest, filenames f = fn :: rest →
     (length (filenames f) <=? 1)%nat = true →
     CovCollect.func_body cwd fs s f = inr s) ∧
  (∀ merge_rc export_rc obj s,
     CovCollect.collect_result cwd fs merge_rc export_rc obj = inr s →
     CovCollect.mamp_reg s !! region_key fn r = None) ∧
  (∀ targets map mamp_reg,
     for_each (Rulf.target_body cwd fs) targets (∅, ∅) = inr (map, mamp_reg) →
     mamp_reg !! region_key fn r = None).
Proof.
  split; [|split].
  - intros s f rest Hf Hlen. unfold CovCollect.func_body.
    by rewrite Hlen, Hf, Hout.
  - intros merge_rc export_rc obj s ->%covcollect_collect_result.
    rewrite (foldl_upd_other _ update_seen_other); [done|].
    by apply rejected_not_emitted_break.
  - intros targets map mamp_reg H.
    apply rulf_targets in H as [_ ->]; [|apply cache_ok_empty].
    rewrite (foldl_upd_other _ update_sum_other); [done|].
    intros (p & Hk & (t & Hp & _)%list_elem_of_bind)%list_elem_of_fmap.
    eapply (rejected_not_emitted_continue _ (rulf_accept cwd) t.2 fn r).
    + unfold rulf_accept. by rewrite Hout.
    + apply list_elem_of_fmap. eauto.
Qed.

Lemma outside_cwd_never_inserted_witness :
  match CovCollect.collect_result "/p" demo_tree 0 0
          [Func "fmt" ["/rustc/lib.rs"] [Region 1 1 2 2 9]; demo_func] with
  | inr s => CovCollect.mamp_reg s !! region_key "/rustc/lib.rs" (Region 1 1 2 2 9)
  | inl _ => Some 0
  end = None.
Proof.
  destruct (CovCollect.collect_result "/p" demo_tree 0 0
              [Func "fmt" ["/rustc/lib.rs"] [Region 1 1 2 2 9]; demo_func])
    as [e|s] eqn:Hrun; [by vm_compute in Hrun|].
  destruct (outside_cwd_never_inserted "/p" demo_tree "/rustc/lib.rs"
              (Region 1 1 2 2 9) eq_refl) as (_ & HA & _).
  exact (HA 0 0 _ s Hrun).
Defined.

(** ** C9: the read of [filenames[0]] *)

Section FilenamesGuard.
Variable cwd : string.
Variable fs : source_tree.

Lemma base4_body_one_filename s f s' :
  Base4.func_body cwd fs s f = inr s' → length (filenames f) = 1%nat.
Proof.
  destruct s as [map m]. unfold Base4.func_body.
  destruct (Nat.leb_spec (length (filenames f)) 1); [|done].
  destruct (filenames f); [done|]. simpl in *. lia.
Qed.

Lemma covcollect_body_one_filename s f s' :
  CovCollect.func_body cwd fs s f = inr s' → length (filenames f) = 1%nat.
Proof.
  unfold CovCollect.func_body.
  destruct (Nat.leb_spec (length (filenames f)) 1); [|done].
  destruct (filenames f); [done|]. simpl in *. lia.
Qed.

Lemma for_each_all {A S : Type} (body : S → A → result S) (P : A → Prop)
    (xs : list A) (s s' : S) :
  (∀ s x s', body s x = inr s' → P x) →
  for_each body xs s = inr s' → Forall P xs.
Proof.
  intros HP. revert s. induction xs as [|x xs IH]; intros s; simpl; [done|].
  intros (s1 & H1 & Hrest)%bind_inr. constructor; eauto.
Qed.

Lemma for_each_raises {A S : Type} (body : S → A → result S)
    (pre post : list A) (x : A) (s s1 : S) (e : exn) :
  for_each body pre s = inr s1 → body s1 x = inl e →
  for_each body (pre ++ x :: post) s = inl e.
Proof. intros Hpre Hx. rewrite for_each_app, Hpre. simpl. by rewrite Hx. Qed.
End FilenamesGuard.

(** C9: a function record with an empty [filenames] list passes the
    assertion [len(func['filenames']) <= 1], and the read of
    [filenames[0]] then raises [IndexError], in [cov_collect.py] and in
    [main.py]; the record is neither filtered nor skipped, and the pass
    over an export that holds such a record after records that went
    through raises that error.  A pass that returns has met exactly one
    file name in every record. *)
Theorem empty_filenames_raises (cwd : string) (fs : source_tree) (f : func)
    (Hempty : filenames f = []) :
  (length (filenames f) <=? 1)%nat = true ∧
  (∀ s, CovCollect.func_body cwd fs s f = inl IndexError) ∧
  (∀ s, Base4.func_body cwd fs s f = inl IndexError) ∧
  (∀ pre post s s1,
     for_each (CovCollect.func_body cwd fs) pre s = inr s1 →
     for_each (CovCollect.func_body cwd fs) (pre ++ f :: post) s = inl IndexError) ∧
  (∀ pre post s s1,
     for_each (Base4.func_body cwd fs) pre s = inr s1 →
     for_each (Base4.func_body cwd fs) (pre ++ f :: post) s = inl IndexError) ∧
  (∀ obj merge_rc export_rc s,
     CovCollect.collect_result cwd fs merge_rc export_rc obj = inr s →
     Forall (λ g, length (filenames g) = 1%nat) obj ∧ f ∉ obj) ∧
  (∀ obj m m',
     Base4.functions_loop cwd fs obj m = inr m' →
     Forall (λ g, length (filenames g) = 1%nat) obj ∧ f ∉ obj).
Proof.
  assert (HA : ∀ s, CovCollect.func_body cwd fs s f = inl IndexError).
  { intros s. unfold CovCollect.func_body. by rewrite Hempty. }
  assert (HB : ∀ s, Base4.func_body cwd fs s f = inl IndexError).
  { intros [map m]. unfold Base4.func_body. by rewrite Hempty. }
  assert (Hnot : ∀ obj, Forall (λ g, length (filenames g) = 1%nat) obj → f ∉ obj).
  { intros obj Hall Hin. rewrite Forall_forall in Hall.
    specialize (Hall f Hin). by rewrite Hempty in Hall. }
  split; [by rewrite Hempty|]. split; [done|]. split; [done|].
  split; [|split; [|split]].
  - intros pre post s s1 Hpre. by eapply for_each_raises.
  - intros pre post s s1 Hpre. by eapply for_each_raises.
  - intros obj merge_rc export_rc s. unfold CovCollect.collect_result.
    destruct (negb (merge_rc =? 0)); [done|].
    destruct (negb (export_rc =? 0)); [done|].
    intros Hrun.
    assert (Forall (λ g, length (filenames g) = 1%nat) obj) as Hall; [|by auto].
    eapply for_each_all; [|done]. apply covcollect_body_one_filename.
  - intros obj m m'. unfold Base4.functions_loop.
    intros ([map1 m1] & Hrun & _)%bind_inr.
    assert (Forall (λ g, length (filenames g) = 1%nat) obj) as Hall; [|by auto].
    eapply for_each_all; [|done]. apply base4_body_one_filename.
Qed.

Lemma empty_filenames_raises_witness :
  CovCollect.collect_result "/p" demo_tree 0 0 [demo_func; Func "ghost" [] []]
    = inl IndexError ∧
  Base4.collect_result "/p" demo_tree 0 0 [demo_func; Func "ghost" [] []] None
    = inl IndexError.
Proof.
  destruct (empty_filenames_raises "/p" demo_tree (Func "ghost" [] []) eq_refl)
    as (_ & _ & _ & HA & HB & _).
  split.
  - unfold CovCollect.collect_result. simpl negb. cbv iota.
    apply (HA [demo_func] [] CovCollect.init
             (CovCollect.State {[ "/p/src/a.rs" := 7 ]}
                {[ "/p/src/a.rs/2/1/5/2" := 1 ]} 1 1 4 4 0 0)).
    by vm_compute.
  - unfold Base4.collect_result, Base4.functions_loop. simpl negb. cbv iota.
    rewrite (HB [demo_func] [] (∅, default ∅ None)
               ({[ "/p/src/a.rs" := 7 ]}, {[ "/p/src/a.rs/2/1/5/2" := 1 ]}));
      [done | vm_compute; reflexivity].
Defined.

(** ** C2: a function with a region past the boundary *)

Section Offender.
Lemma take_while_first_fail {A : Type} (p : A → bool) (pre post : list A) (bad : A) :
  Forall (λ x, p x = true) pre → p bad = false →
  take_while p (pre ++ bad :: post) = pre.
Proof.
  intros Hpre Hbad. induction Hpre as [|x pre Hx _ IH]; simpl.
  - by rewrite Hbad.
  - by rewrite Hx, IH.
Qed.

Lemma covcollect_regions_loop_funcs fn limit rs s has_hit :
  CovCollect.func_total (CovCollect.regions_loop fn limit rs s has_hit).1.1 =
    CovCollect.func_total s ∧
  CovCollect.func_count (CovCollect.regions_loop fn limit rs s has_hit).1.1 =
    CovCollect.func_count s ∧
  (CovCollect.regions_loop fn limit rs s has_hit).1.2 = forallb (within limit) rs.
Proof.
  revert s has_hit. induction rs as [|r rs IH]; intros s has_hit; simpl; [done|].
  unfold within at 1. destruct (reg2 r >? limit); simpl; [done|].
  destruct (CovCollect.mamp_reg s !! region_key fn r); [apply IH|].
  destruct (reg4 r >? 0);
    match goal with
    | |- context [CovCollect.regions_loop fn limit rs ?s1 ?h] =>
        destruct (IH s1 h) as (-> & -> & ->); done
    end.
Qed.

Lemma forallb_first_fail {A : Type} (p : A → bool) (pre post : list A) (bad : A) :
  p bad = false → forallb p (pre ++ bad :: post) = false.
Proof.
  intros Hbad. induction pre as [|x pre IH]; simpl.
  - by rewrite Hbad.
  - rewrite IH. apply andb_false_r.
Qed.
End Offender.

(** C2, as stated, fails: in [/p/src/a.rs] the limit is 7; [demo_func]
    lists a region ending on line 5 and then one ending on line 9.  The
    first region is in the store of [cov_collect.py] and is counted, and
    it is in the store of [collect_cov.py], although a later region of
    the same function is past the limit. *)
Lemma earlier_regions_kept :
  CovCollect.parse_file demo_tree "/p/src/a.rs" = inr 7 ∧
  Rulf.parse_file demo_tree "/p/src/a.rs" = inr 7 ∧
  regions demo_func = [Region 2 1 5 2 3; Region 8 1 9 2 1] ∧
  match CovCollect.collect_result "/p" demo_tree 0 0 [demo_func] with
  | inr s =>
      CovCollect.mamp_reg s !! region_key "/p/src/a.rs" (Region 2 1 5 2 3) = Some 1 ∧
      CovCollect.reg_total s = 1 ∧ CovCollect.reg_count s = 1
  | inl _ => False
  end ∧
  match for_each (Rulf.target_body "/p" demo_tree) [(0, [demo_func])] (∅, ∅) with
  | inr (_, mamp_reg) =>
      mamp_reg !! region_key "/p/src/a.rs" (Region 2 1 5 2 3) = Some (4, 3)
  | inl _ => False
  end.
Proof. by vm_compute. Qed.

(** C2, amended: when a region of a function record ends past the limit
    of its file, the regions listed before the first such region are
    emitted and enter the store.  [cov_collect.py] stops at that region:
    the keys it adds are those of the regions before it, neither it nor
    any region after it is processed, and the function is not counted in
    [func_total].  [collect_cov.py] skips that region only: the keys it
    adds are those of the regions before it and of the later regions
    that end within the limit. *)
Theorem regions_before_first_offender (cwd : string) (fs : source_tree)
    (f : func) (fn : string) (pre post : list region) (bad : region)
    (Hfile : filenames f = [fn])
    (Hregions : regions f = pre ++ bad :: post) :
  (∀ s limit,
     str_in cwd fn = true → CovCollect.parse_file fs fn = inr limit →
     cache_ok (CovCollect.parse_file fs) (CovCollect.map s) →
     Forall (λ r, reg2 r ≤ limit) pre → limit < reg2 bad →
     ∃ s', CovCollect.func_body cwd fs s f = inr s' ∧
       CovCollect.func_total s' = CovCollect.func_total s ∧
       ∀ k, is_Some (CovCollect.mamp_reg s' !! k) ↔
            is_Some (CovCollect.mamp_reg s !! k) ∨
            ∃ r, r ∈ pre ∧ k = region_key fn r) ∧
  (∀ map m limit,
     str_in cwd fn = true → str_in "src/" fn = true →
     Rulf.parse_file fs fn = inr limit →
     cache_ok (Rulf.parse_file fs) map →
     Forall (λ r, reg2 r ≤ limit) pre → limit < reg2 bad →
     ∃ map' m', Rulf.func_body cwd fs (map, m) f = inr (map', m') ∧
       ∀ k, is_Some (m' !! k) ↔
            is_Some (m !! k) ∨
            ∃ r, (r ∈ pre ∨ r ∈ post ∧ reg2 r ≤ limit) ∧ k = region_key fn r).
Proof.
  split.
  - intros s limit Hacc Hp Hok Hpre Hbad.
    pose proof (cached_cases _ _ fn Hok) as Hc. rewrite Hp in Hc.
    destruct Hc as (m1 & Hc & _).
    unfold CovCollect.func_body. rewrite Hfile. simpl. rewrite Hacc, Hc. simpl.
    match goal with
    | |- context [CovCollect.regions_loop fn limit (regions f) ?s0 false] =>
        pose proof (covcollect_regions_loop fn limit (regions f) s0 false) as [Hm _];
        pose proof (covcollect_regions_loop_funcs fn limit (regions f) s0 false)
          as (Hft & _ & Hflag);
        destruct (CovCollect.regions_loop fn limit (regions f) s0 false)
          as [[s1 is_valid_func] has_hit]
    end.
    simpl in Hm, Hft, Hflag.
    assert (within limit bad = false) as Hw.
    { apply not_true_is_false. rewrite within_le. lia. }
    rewrite Hregions, forallb_first_fail in Hflag by done. subst is_valid_func.
    exists s1. split; [done|]. split; [done|].
    intros k. rewrite Hm, (foldl_upd_dom _ update_seen_other update_seen_key).
    unfold reached_break; simpl. rewrite Hregions, take_while_first_fail; [|  |done].
    + rewrite <- list_fmap_compose, list_elem_of_fmap.
      split; (intros [?|(r & ? & ?)]; [by left|right; exists r; done]).
    + eapply Forall_impl; [done|]. intros r ?. by apply within_le.
  - intros map m limit Hacc Hsrc Hp Hok Hpre Hbad.
    pose proof (cached_cases _ _ fn Hok) as Hc. rewrite Hp in Hc.
    destruct Hc as (m1 & Hc & _).
    rewrite rulf_func_body by done.
    unfold cache_body, walked, rulf_accept. rewrite Hfile. simpl.
    rewrite Hacc, Hsrc, Hc, Hp. simpl.
    eexists _, _. split; [done|].
    intros k. rewrite (foldl_upd_dom _ update_sum_other update_sum_key).
    unfold reached_continue; simpl.
    rewrite <- list_fmap_compose, list_elem_of_fmap.
    setoid_rewrite list_elem_of_filter. setoid_rewrite within_le.
    rewrite Hregions. setoid_rewrite elem_of_app. setoid_rewrite elem_of_cons.
    rewrite Forall_forall in Hpre.
    split; (intros [?|(r & Hr1 & Hr2)]; [by left|right; exists r]).
    + simpl in Hr1. destruct Hr2 as [Hle [?|[->|?]]]; [auto | lia | auto].
    + simpl. destruct Hr1 as [?|[? ?]]; auto.
Qed.

Lemma regions_before_first_offender_witness :
  ∃ s', CovCollect.func_body "/p" demo_tree CovCollect.init demo_func = inr s' ∧
    CovCollect.func_total s' = 0 ∧
    is_Some (CovCollect.mamp_reg s' !! "/p/src/a.rs/2/1/5/2").
Proof.
  destruct (regions_before_first_offender "/p" demo_tree demo_func "/p/src/a.rs"
              [Region 2 1 5 2 3] [] (Region 8 1 9 2 1) eq_refl eq_refl) as [HA _].
  destruct (HA CovCollect.init 7) as (s' & Hrun & Hft & Hdom).
  - reflexivity.
  - reflexivity.
  - simpl. apply cache_ok_empty.
  - repeat constructor. simpl. lia.
  - simpl. lia.
  - exists s'. split; [done|]. split; [done|].
    apply Hdom. right. exists (Region 2 1 5 2 3). split; [by left|reflexivity].
Defined.

(** ** C4: merging is monotone *)

Section Monotone.
Context {V : Type}.
Implicit Types m : gmap string V.

Lemma size_mono m m' :
  (∀ k, is_Some (m !! k) → is_Some (m' !! k)) → (size m ≤ size m')%nat.
Proof.
  intros H. rewrite <- !(size_dom (D := gset string)).
  apply subseteq_size. intros k. rewrite !elem_of_dom. apply H.
Qed.

Lemma size_filter_mono (P : string * V → Prop) `{!∀ x, Decision (P x)} m m' :
  (∀ k v, m !! k = Some v → P (k, v) → ∃ v', m' !! k = Some v' ∧ P (k, v')) →
  (size (filter P m) ≤ size (filter P m'))%nat.
Proof.
  intros Hcov. apply size_mono. intros k [v Hv].
  apply map_lookup_filter_Some in Hv as [Hv HP].
  destruct (Hcov k v Hv HP) as (v' & Hv' & HP').
  exists v'. by apply map_lookup_filter_Some.
Qed.
End Monotone.

Section MonotoneUpdates.
Implicit Types (m : gmap string Z) (p : string * region) (k : string).

Lemma update_bool_covered m p k v :
  m !! k = Some v → v ≠ 0 → ∃ v', update_bool m p !! k = Some v' ∧ v' ≠ 0.
Proof.
  intros Hk Hv. destruct (decide (key_of p = k)) as [<-|Hne].
  - destruct (Z.lt_ge_cases 0 (reg4 p.2)).
    + exists 1. by rewrite update_bool_hit.
    + exists v. rewrite update_bool_nohit by lia. by rewrite Hk.
  - exists v. by rewrite update_bool_other.
Qed.

Lemma foldl_bool_covered l m k v :
  m !! k = Some v → v ≠ 0 →
  ∃ v', foldl update_bool m l !! k = Some v' ∧ v' ≠ 0.
Proof.
  revert m v. induction l as [|p l IH]; intros m v Hk Hv; simpl; [by eauto|].
  destruct (update_bool_covered m p k v Hk Hv) as (v1 & Hk1 & Hv1). eauto.
Qed.

(** A store of 0/1 flags stays one, and none of its flags goes down. *)
Lemma update_bool_flags m p :
  (∀ k v, m !! k = Some v → v = 0 ∨ v = 1) →
  (∀ k v, update_bool m p !! k = Some v → v = 0 ∨ v = 1) ∧
  (∀ k v, m !! k = Some v → ∃ v', update_bool m p !! k = Some v' ∧ v ≤ v').
Proof.
  intros Hm. split; intros k v.
  - destruct (decide (key_of p = k)) as [<-|Hne].
    + destruct (Z.lt_ge_cases 0 (reg4 p.2)).
      * rewrite update_bool_hit by done. intros [= <-]. by right.
      * rewrite update_bool_nohit by lia. intros [= <-].
        destruct (m !! key_of p) as [w|] eqn:Hw; simpl; [by eapply Hm|by left].
    + rewrite update_bool_other by done. apply Hm.
  - intros Hk. destruct (decide (key_of p = k)) as [<-|Hne].
    + destruct (Z.lt_ge_cases 0 (reg4 p.2)).
      * rewrite update_bool_hit by done. exists 1. split; [done|].
        destruct (Hm _ _ Hk); lia.
      * rewrite update_bool_nohit by lia. rewrite Hk. exists v. split; [done|lia].
    + rewrite update_bool_other by done. exists v. split; [done|lia].
Qed.

Lemma foldl_bool_flags l m :
  (∀ k v, m !! k = Some v → v = 0 ∨ v = 1) →
  (∀ k v, foldl update_bool m l !! k = Some v → v = 0 ∨ v = 1) ∧
  (∀ k v, m !! k = Some v → ∃ v', foldl update_bool m l !! k = Some v' ∧ v ≤ v').
Proof.
  revert m. induction l as [|p l IH]; intros m Hm; simpl.
  - split; [done|]. intros k v Hk. exists v. split; [done|lia].
  - destruct (update_bool_flags m p Hm) as [Hflags Hgrow].
    destruct (IH _ Hflags) as [Hflags' Hgrow']. split; [done|].
    intros k v Hk. destruct (Hgrow k v Hk) as (v1 & Hk1 & Hle1).
    destruct (Hgrow' k v1 Hk1) as (v' & Hk' & Hle'). exists v'. split; [done|lia].
Qed.

Lemma update_max_grows m p k v :
  m !! k = Some v → ∃ v', update_max m p !! k = Some v' ∧ v ≤ v'.
Proof.
  intros Hk. unfold update_max. destruct (decide (key_of p = k)) as [<-|Hne].
  - rewrite lookup_insert_eq, Hk. simpl. eexists; split; [done|]. lia.
  - rewrite lookup_insert_ne by done. exists v. split; [done|lia].
Qed.

Lemma foldl_max_grows l m k v :
  m !! k = Some v → ∃ v', foldl update_max m l !! k = Some v' ∧ v ≤ v'.
Proof.
  revert m v. induction l as [|p l IH]; intros m v Hk; simpl.
  - exists v. split; [done|lia].
  - destruct (update_max_grows m p k v Hk) as (v1 & Hk1 & Hv1).
    destruct (IH _ _ Hk1) as (v' & Hk' & Hv'). exists v'. split; [done|lia].
Qed.
End MonotoneUpdates.

(** The loop of [t.py] folds the maximum update over some list of
    regions, whatever the boundary cache holds. *)
Lemma rusty_for_each_fold cwd fs obj map m map' m' :
  for_each (RustyUnit.func_body cwd fs) obj (map, m) = inr (map', m') →
  ∃ l, m' = foldl update_max m l.
Proof.
  revert map m. induction obj as [|f obj IH]; intros map m; simpl.
  - intros [= <- <-]. by exists [].
  - intros ([map1 m1] & H1 & Hrest)%bind_inr.
    destruct (IH _ _ Hrest) as (l2 & ->).
    assert (∃ l1, m1 = foldl update_max m l1) as (l1 & ->).
    { revert H1. unfold RustyUnit.func_body.
      destruct (length (filenames f) <=? 1)%nat; [|done].
      destruct (filenames f) as [|fn rest]; [done|].
      destruct (_ && _); [|intros [= <- <-]; by exists []].
      destruct (cached _ map fn) as [e|[mapc limit]]; simpl; [done|].
      intros [= <- <-]. rewrite rusty_regions_loop. eauto. }
    exists (l1 ++ l2). by rewrite foldl_app.
Qed.

(** C4: a merge never turns a covered entry into an uncovered one and
    never lowers a stored count, so the number of covered keys and the
    number of keys do not decrease.  For [main.py] covered means a
    non-zero flag, and in a store of 0/1 flags, as the script writes
    it, no flag goes down; for [t.py], which keeps the maximum count
    seen, covered means a positive count and every stored count can
    only grow. *)
Theorem merge_monotone (cwd : string) (fs : source_tree) (obj : export) :
  (∀ m m' : gmap string Z,
     Base4.functions_loop cwd fs obj m = inr m' →
     (∀ k v, m !! k = Some v → v ≠ 0 → ∃ v', m' !! k = Some v' ∧ v' ≠ 0) ∧
     ((∀ k v, m !! k = Some v → v = 0 ∨ v = 1) →
      ∀ k v, m !! k = Some v → ∃ v', m' !! k = Some v' ∧ v ≤ v') ∧
     Base4.reg_count m ≤ Base4.reg_count m' ∧
     Base4.reg_total m ≤ Base4.reg_total m') ∧
  (∀ map map' n n' : gmap string Z,
     for_each (RustyUnit.func_body cwd fs) obj (map, n) = inr (map', n') →
     (∀ k v, n !! k = Some v → ∃ v', n' !! k = Some v' ∧ v ≤ v') ∧
     RustyUnit.reg_count n ≤ RustyUnit.reg_count n' ∧
     RustyUnit.reg_total n ≤ RustyUnit.reg_total n').
Proof.
  split.
  - intros m m' ->%base4_functions_loop_inr.
    split; [intros k v; apply foldl_bool_covered|].
    split; [intros Hm; by apply foldl_bool_flags|].
    split.
    + unfold Base4.reg_count. apply inj_le.
      apply size_filter_mono. intros k v. apply foldl_bool_covered.
    + unfold Base4.reg_total. apply inj_le, size_mono. intros k.
      apply (foldl_upd_keeps _ update_bool_other update_bool_key).
  - intros map map' n n' (l & ->)%rusty_for_each_fold.
    split; [intros k v; apply foldl_max_grows|].
    split.
    + unfold RustyUnit.reg_count. apply inj_le.
      apply size_filter_mono. intros k v Hk Hv. simpl in *.
      destruct (foldl_max_grows l n k v Hk) as (v' & Hk' & Hle).
      exists v'. split; [done|lia].
    + unfold RustyUnit.reg_total. apply inj_le, size_mono. intros k.
      apply (foldl_upd_keeps _ update_max_other update_max_key).
Qed.

Lemma merge_monotone_witness :
  Base4.reg_count {[ "/p/src/b.rs/1/1/3/2" := 0 ]} ≤
  Base4.reg_count {[ "/p/src/b.rs/1/1/3/2" := 1 ]} ∧
  RustyUnit.reg_count {[ "/p/src/b.rs/1/1/3/2" := 1 ]} ≤
  RustyUnit.reg_count {[ "/p/src/b.rs/1/1/3/2" := 2 ]}.
Proof.
  destruct (merge_monotone "/p" demo_tree [warm_func]) as [HB HT].
  destruct (HB {[ "/p/src/b.rs/1/1/3/2" := 0 ]} {[ "/p/src/b.rs/1/1/3/2" := 1 ]})
    as (_ & _ & HB1 & _); [vm_compute; reflexivity|].
  destruct (HT ∅ {[ "/p/src/b.rs" := 4 ]}
              {[ "/p/src/b.rs/1/1/3/2" := 1 ]} {[ "/p/src/b.rs/1/1/3/2" := 2 ]})
    as (_ & HT1 & _); [vm_compute; reflexivity|].
  split; [exact HB1 | exact HT1].
Defined.

(** ** First sightings in [cov_collect.py] *)

Section Sightings.
Implicit Types (seen : gmap string Z) (l : list (string * region)).

Lemma update_seen_old seen p v : seen !! key_of p = Some v → update_seen seen p = seen.
Proof. intros H. unfold update_seen. by rewrite H. Qed.

Lemma update_seen_new seen p :
  seen !! key_of p = None → update_seen seen p = <[key_of p := 1]> seen.
Proof. intros H. unfold update_seen. by rewrite H. Qed.

Lemma first_sightings_app seen l1 l2 :
  first_sightings seen (l1 ++ l2) =
  first_sightings seen l1 ++ first_sightings (foldl update_seen seen l1) l2.
Proof.
  revert seen. induction l1 as [|p l1 IH]; intros seen; simpl; [done|].
  destruct (seen !! key_of p) eqn:Hk.
  - rewrite (update_seen_old _ _ _ Hk). apply IH.
  - rewrite (update_seen_new _ _ Hk). simpl. by rewrite IH.
Qed.


(** A first sighting is the first emitted region of its key. *)
Lemma first_sightings_elem seen l p :
  p ∈ first_sightings seen l →
  seen !! key_of p = None ∧
  ∃ l1 l2, l = l1 ++ p :: l2 ∧ key_of p ∉ key_of <$> l1.
Proof.
  revert seen. induction l as [|q l IH]; intros seen; simpl; [by intros ?%elem_of_nil|].
  destruct (seen !! key_of q) eqn:Hq.
  - intros Hp. destruct (IH _ Hp) as (Hk & l1 & l2 & -> & Hl1).
    split; [done|]. exists (q :: l1), l2. split; [done|].
    rewrite fmap_cons, not_elem_of_cons. split; [congruence|done].
  - intros [->|Hp]%elem_of_cons.
    + split; [done|]. exists [], l. split; [done|]. apply not_elem_of_nil.
    + destruct (IH _ Hp) as (Hk & l1 & l2 & -> & Hl1).
      destruct (decide (key_of q = key_of p)) as [Heq|Hne].
      { rewrite Heq, lookup_insert_eq in Hk. done. }
      rewrite lookup_insert_ne in Hk by done.
      split; [done|]. exists (q :: l1), l2. split; [done|].
      rewrite fmap_cons, not_elem_of_cons. split; [congruence|done].
Qed.

(** The first emitted region of a key is a first sighting. *)
Lemma first_sightings_first seen l1 p l2 :
  seen !! key_of p = None → key_of p ∉ key_of <$> l1 →
  p ∈ first_sightings seen (l1 ++ p :: l2).
Proof.
  revert seen. induction l1 as [|q l1 IH]; intros seen Hs Hk; cbn [app first_sightings].
  - rewrite Hs. left.
  - rewrite fmap_cons, not_elem_of_cons in Hk. destruct Hk as [Hne Hk].
    destruct (seen !! key_of q); [by apply IH|].
    right. apply IH; [|done]. rewrite lookup_insert_ne; [done|congruence].
Qed.

(** Every value of the dictionary is 1. *)
Lemma foldl_seen_values seen l :
  (∀ k v, seen !! k = Some v → v = 1) →
  ∀ k v, foldl update_seen seen l !! k = Some v → v = 1.
Proof.
  revert seen. induction l as [|p l IH]; intros seen Hm; simpl; [done|].
  apply IH. intros k v. unfold update_seen.
  destruct (seen !! key_of p) eqn:Hp; [apply Hm|].
  rewrite lookup_insert. case_decide; [by intros [= <-]|apply Hm].
Qed.

(** Regions that start no later than they end add lines, and the
    regions that were hit add no more lines than all regions. *)
Lemma sum_lines_filter l :
  (∀ p, p ∈ l → reg0 p.2 ≤ reg2 p.2) →
  0 ≤ sum_lines (filter (λ p, was_hit p = true) l) ≤ sum_lines l.
Proof.
  unfold sum_lines. induction l as [|p l IH]; intros Hl; [simpl; lia|].
  assert (reg0 p.2 ≤ reg2 p.2) by (apply Hl; left).
  assert (∀ q, q ∈ l → reg0 q.2 ≤ reg2 q.2) as Hl' by (intros q ?; apply Hl; by right).
  specialize (IH Hl').
  destruct (decide (was_hit p = true)).
  - rewrite filter_cons_True by done. simpl. lia.
  - rewrite filter_cons_False by done. simpl. lia.
Qed.

Lemma sum_lines_app l1 l2 : sum_lines (l1 ++ l2) = sum_lines l1 + sum_lines l2.
Proof. unfold sum_lines. induction l1 as [|p l1 IH]; simpl; lia. Qed.
End Sightings.

Section CovCollectCounters.
Variable cwd : string.
Variable fs : source_tree.

Lemma counted_refl s : counted s s [].
Proof. unfold counted; simpl. repeat split; lia. Qed.

Lemma counted_trans s1 s2 s3 l1 l2 :
  counted s1 s2 l1 → counted s2 s3 l2 → counted s1 s3 (l1 ++ l2).
Proof.
  intros (A1 & A2 & A3 & A4) (B1 & B2 & B3 & B4). unfold counted.
  rewrite filter_app, !length_app, !sum_lines_app. repeat split; lia.
Qed.

Lemma covcollect_regions_loop_counted fn limit rs s has_hit :
  counted s (CovCollect.regions_loop fn limit rs s has_hit).1.1
    (first_sightings (CovCollect.mamp_reg s) (reached_break (fn, limit, rs))).
Proof.
  unfold reached_break; simpl. revert s has_hit.
  induction rs as [|r rs IH]; intros s has_hit; simpl; [apply counted_refl|].
  unfold within. destruct (reg2 r >? limit); simpl; [apply counted_refl|].
  unfold key_of at 1; simpl.
  destruct (CovCollect.mamp_reg s !! region_key fn r) eqn:Hk; [apply IH|].
  destruct (reg4 r >? 0) eqn:Hhit;
    match goal with
    | |- context [CovCollect.regions_loop fn limit rs ?s1 ?h] =>
        apply (counted_trans s s1 _ [(fn, r)]); [|apply IH]
    end; unfold counted;
    [rewrite filter_cons_True by (unfold was_hit; simpl; exact Hhit)
    |rewrite filter_cons_False by (unfold was_hit; simpl; rewrite Hhit; done)];
    rewrite filter_nil; unfold sum_lines; simpl; repeat split; lia.
Qed.

Lemma covcollect_func_body_counted s f s' :
  cache_ok (CovCollect.parse_file fs) (CovCollect.map s) →
  CovCollect.func_body cwd fs s f = inr s' →
  counted s s'
    (first_sightings (CovCollect.mamp_reg s)
       (walked (CovCollect.parse_file fs) (str_in cwd) f ≫= reached_break)) ∧
  funcs_counted s s' 1.
Proof.
  intros Hok. unfold CovCollect.func_body, walked.
  destruct (length (filenames f) <=? 1)%nat; [|done].
  destruct (filenames f) as [|fn rest]; [done|].
  destruct (str_in cwd fn).
  2:{ intros [= <-]. split; [apply counted_refl|]. unfold funcs_counted. lia. }
  pose proof (cached_cases _ _ fn Hok) as Hc.
  destruct (CovCollect.parse_file fs fn) as [e|limit]; [by rewrite Hc|].
  destruct Hc as (m1 & -> & Hok1). simpl.
  match goal with
  | |- context [CovCollect.regions_loop fn limit (regions f) ?s0 false] =>
      pose proof (covcollect_regions_loop_counted fn limit (regions f) s0 false) as Hcnt;
      pose proof (covcollect_regions_loop_funcs fn limit (regions f) s0 false)
        as (Hft & Hfc & _);
      destruct (CovCollect.regions_loop fn limit (regions f) s0 false)
        as [[s1 is_valid_func] has_hit]
  end.
  simpl in Hcnt, Hft, Hfc. rewrite app_nil_r.
  unfold counted, funcs_counted in *.
  destruct is_valid_func; [destruct has_hit|]; intros [= <-]; simpl in *;
    (split; [done|lia]).
Qed.

Lemma covcollect_for_each_counted obj s s' :
  cache_ok (CovCollect.parse_file fs) (CovCollect.map s) →
  for_each (CovCollect.func_body cwd fs) obj s = inr s' →
  counted s s'
    (first_sightings (CovCollect.mamp_reg s)
       (emitted_break (CovCollect.parse_file fs) (str_in cwd) obj)) ∧
  funcs_counted s s' (length obj).
Proof.
  unfold emitted_break.
  revert s. induction obj as [|f obj IH]; intros s Hok; simpl.
  - intros [= <-]. split; [apply counted_refl|]. unfold funcs_counted. lia.
  - intros (s1 & H1 & Hrest)%bind_inr.
    destruct (covcollect_func_body_counted _ _ _ Hok H1) as [Hc1 Hf1].
    apply covcollect_func_body in H1 as [Hok1 Hm1]; [|done].
    destruct (IH s1 Hok1 Hrest) as [Hc Hf].
    rewrite bind_app, first_sightings_app. split.
    + eapply counted_trans; [done|].
      rewrite Hm1 in Hc. by rewrite <- foldl_bind_list.
    + unfold funcs_counted in *. lia.
Qed.
End CovCollectCounters.

(** ** C5: the boolean store, script by script *)

Section BooleanRuns.
Variable cwd : string.
Variable fs : source_tree.

Lemma collect_run_fold snap t snap' :
  collect_run cwd fs snap t = inr snap' →
  default ∅ snap' =
    foldl update_bool (default ∅ snap)
      (if t.1.1 =? 0
       then emitted_break (Base4.parse_file fs) (str_in cwd) t.2 else []).
Proof.
  unfold collect_run, Base4.collect_result.
  destruct (t.1.1 =? 0); simpl; [|by intros [= <-]].
  destruct (negb (t.1.2 =? 0)); simpl; [done|].
  destruct (Base4.functions_loop cwd fs t.2 (default ∅ snap)) as [e|m'] eqn:Hloop;
    simpl; [done|].
  intros [= <-]. simpl. by apply base4_functions_loop_inr.
Qed.

Lemma collect_runs_fold ts snap snap' :
  for_each (collect_run cwd fs) ts snap = inr snap' →
  default ∅ snap' = foldl update_bool (default ∅ snap) (reported cwd fs ts).
Proof.
  unfold reported. revert snap.
  induction ts as [|t ts IH]; intros snap; simpl.
  - by intros [= <-].
  - intros (snap1 & H1 & Hrest)%bind_inr.
    rewrite foldl_app, <- (collect_run_fold _ _ _ H1). by apply IH.
Qed.

(** One region: the new flag is the old flag or [count > 0]. *)
Lemma update_bool_or m p :
  flag (default 0 (update_bool m p !! key_of p)) =
  flag (default 0 (m !! key_of p)) || (reg4 p.2 >? 0).
Proof.
  unfold update_bool. destruct (reg4 p.2 >? 0); rewrite lookup_insert_eq; simpl.
  - by rewrite orb_true_r.
  - by rewrite orb_false_r.
Qed.
End BooleanRuns.

(** C5, as stated, fails on [cov_collect.py], which keeps no store
    between executions: its dictionary starts empty on every call and
    only records which keys were seen.  A key reported with count 0 only
    has the entry 1; and within one export a key is counted by its first
    sighting: reported first with count 0 and then with count 2, it adds
    to [reg_total] and not to [reg_count]. *)
Lemma covcollect_first_sighting :
  match CovCollect.collect_result "/p" demo_tree 0 0 [cold_func] with
  | inr s => CovCollect.mamp_reg s !! region_key "/p/src/b.rs" (Region 1 1 3 2 0)
             = Some 1
  | inl _ => False
  end ∧
  region_key "/p/src/b.rs" (Region 1 1 3 2 0) = region_key "/p/src/b.rs" (Region 1 1 3 2 2) ∧
  match CovCollect.collect_result "/p" demo_tree 0 0 [cold_func; warm_func] with
  | inr s => CovCollect.reg_total s = 1 ∧ CovCollect.reg_count s = 0
  | inl _ => False
  end.
Proof. vm_compute. repeat split; reflexivity. Qed.

(** C5, amended.  In [main.py], over any sequence of calls of
    [collect_result], the entry of a key in [cov_map.json] is 1 as soon
    as one merged region of that key had a positive hit count, whatever
    was reported before or after; while the key was reported with
    non-positive counts only, the entry keeps the value it had (0 for a
    new key); a key never reported is untouched; and for one region the
    update is [store[key] = store[key] OR (hitCount > 0)].  In
    [cov_collect.py] the entry of every emitted key is 1 and no other key
    has an entry, whatever the hit counts; [reg_count] is the number of
    keys whose first emitted region in the export has a positive hit
    count, so that a positive count that follows a count of 0 for the
    same key does not make the key covered. *)
Theorem boolean_merge_per_script (cwd : string) (fs : source_tree) :
  (∀ (ts : list (Z * Z * export)) (snap snap' : option (gmap string Z)) (k : string),
     for_each (collect_run cwd fs) ts snap = inr snap' →
     (Exists (λ p, key_of p = k ∧ 0 < reg4 p.2) (reported cwd fs ts) →
        default ∅ snap' !! k = Some 1) ∧
     (k ∈ key_of <$> reported cwd fs ts →
      Forall (λ p, key_of p = k → reg4 p.2 ≤ 0) (reported cwd fs ts) →
        default ∅ snap' !! k = Some (default 0 (default ∅ snap !! k))) ∧
     (k ∉ key_of <$> reported cwd fs ts →
        default ∅ snap' !! k = default ∅ snap !! k)) ∧
  (∀ m fn limit r, reg2 r ≤ limit →
     flag (default 0 (Base4.regions_loop fn limit [r] m !! region_key fn r)) =
     flag (default 0 (m !! region_key fn r)) || (reg4 r >? 0)) ∧
  (∀ merge_rc export_rc obj s,
     CovCollect.collect_result cwd fs merge_rc export_rc obj = inr s →
     (∀ k, k ∈ key_of <$> emitted_break (CovCollect.parse_file fs) (str_in cwd) obj →
        CovCollect.mamp_reg s !! k = Some 1) ∧
     (∀ k, k ∉ key_of <$> emitted_break (CovCollect.parse_file fs) (str_in cwd) obj →
        CovCollect.mamp_reg s !! k = None) ∧
     CovCollect.reg_count s =
       Z.of_nat (length (filter (λ p, was_hit p = true) (first_sightings ∅
         (emitted_break (CovCollect.parse_file fs) (str_in cwd) obj)))) ∧
     (∀ p, p ∈ first_sightings ∅
               (emitted_break (CovCollect.parse_file fs) (str_in cwd) obj) ↔
        ∃ l1 l2, emitted_break (CovCollect.parse_file fs) (str_in cwd) obj
                   = l1 ++ p :: l2 ∧ key_of p ∉ key_of <$> l1)).
Proof.
  split; [|split].
  - intros ts snap snap' k Hruns.
    rewrite (collect_runs_fold _ _ _ _ _ Hruns).
    split; [apply foldl_bool_hit|].
    split; [apply foldl_bool_nohit|].
    apply (foldl_upd_other _ update_bool_other).
  - intros m fn limit r Hle. rewrite base4_regions_loop.
    unfold reached_break; simpl.
    destruct (within_le limit r) as [_ ->]; [|done]. simpl.
    apply (update_bool_or m (fn, r)).
  - intros merge_rc export_rc obj s Hrun.
    pose proof (covcollect_collect_result _ _ _ _ _ _ Hrun) as Hm.
    unfold CovCollect.collect_result in Hrun.
    destruct (negb (merge_rc =? 0)); [done|].
    destruct (negb (export_rc =? 0)); [done|].
    apply covcollect_for_each_counted in Hrun as [(_ & A2 & _) _];
      [|apply cache_ok_empty].
    simpl in A2.
    split; [|split; [|split]].
    + intros k Hk. rewrite Hm.
      destruct (proj2 (foldl_upd_dom _ update_seen_other update_seen_key
                  (emitted_break (CovCollect.parse_file fs) (str_in cwd) obj) ∅ k))
        as [v Hv]; [by right|].
      rewrite Hv. f_equal. eapply foldl_seen_values; [|exact Hv].
      intros k' v'. by rewrite lookup_empty.
    + intros k Hk. rewrite Hm.
      by rewrite (foldl_upd_other _ update_seen_other).
    + rewrite A2. lia.
    + intros p. split.
      * intros Hp. by apply first_sightings_elem in Hp as [_ ?].
      * intros (l1 & l2 & -> & Hk). by apply first_sightings_first.
Qed.

Lemma boolean_merge_per_script_witness :
  (for_each (collect_run "/p" demo_tree)
     [(0, 0, [cold_func]); (0, 0, [cold_func])] None
   = inr (Some {[ "/p/src/b.rs/1/1/3/2" := 0 ]})) ∧
  (for_each (collect_run "/p" demo_tree)
     [(0, 0, [cold_func]); (0, 0, [cold_func]); (0, 0, [warm_func])] None
   = inr (Some {[ "/p/src/b.rs/1/1/3/2" := 1 ]})) ∧
  ({[ "/p/src/b.rs/1/1/3/2" := 1 ]} : gmap string Z) !! "/p/src/b.rs/1/1/3/2"
   = Some 1 ∧
  match CovCollect.collect_result "/p" demo_tree 0 0 [cold_func; warm_func] with
  | inr s => CovCollect.mamp_reg s !! "/p/src/b.rs/1/1/3/2" = Some 1 ∧
             CovCollect.reg_count s = 0
  | inl _ => False
  end.
Proof.
  assert (for_each (collect_run "/p" demo_tree)
            [(0, 0, [cold_func]); (0, 0, [cold_func])] None
          = inr (Some {[ "/p/src/b.rs/1/1/3/2" := 0 ]})) as H2
    by (vm_compute; reflexivity).
  assert (for_each (collect_run "/p" demo_tree)
            [(0, 0, [cold_func]); (0, 0, [cold_func]); (0, 0, [warm_func])] None
          = inr (Some {[ "/p/src/b.rs/1/1/3/2" := 1 ]})) as H3
    by (vm_compute; reflexivity).
  split; [exact H2|]. split; [exact H3|].
  destruct (boolean_merge_per_script "/p" demo_tree) as (Hmain & _ & Hcov).
  split.
  - destruct (Hmain _ _ _ "/p/src/b.rs/1/1/3/2" H3) as (Hhit & _).
    apply Hhit. vm_compute. do 2 right. left. split; [reflexivity | reflexivity].
  - destruct (CovCollect.collect_result "/p" demo_tree 0 0 [cold_func; warm_func])
      as [e|s] eqn:Hrun; [by vm_compute in Hrun|].
    destruct (Hcov 0 0 _ s Hrun) as (Hone & _ & Hcount & _).
    split.
    + apply Hone. vm_compute. left.
    + rewrite Hcount. vm_compute. reflexivity.
Defined.

(** ** C3: merging the same export again *)

Section Remerge.
Implicit Types (m : gmap string (Z * Z)) (l : list (string * region)).

Lemma foldl_sum_lookup l m k v1 :
  counts_nonneg m → Forall (λ p, 0 ≤ reg4 p.2) l →
  foldl update_sum m l !! k = Some v1 →
  0 ≤ hits k l ≤ v1.2 ∧
  foldl update_sum (foldl update_sum m l) l !! k = Some (v1.1, v1.2 + hits k l).
Proof.
  intros Hm Hl Hk1. pose proof (hits_nonneg l k Hl) as Hh.
  split; [|by apply foldl_sum_old].
  destruct (m !! k) as [v|] eqn:Hk.
  - rewrite (foldl_sum_old l m k v Hk) in Hk1. injection Hk1 as <-.
    specialize (Hm k v Hk). simpl. lia.
  - destruct (decide (k ∈ key_of <$> l)) as [Hin|Hin].
    + destruct (foldl_sum_new l m k Hk Hin) as (lines & Hnew).
      rewrite Hnew in Hk1. injection Hk1 as <-. simpl. lia.
    + rewrite (foldl_upd_other _ update_sum_other) in Hk1 by done. congruence.
Qed.

Lemma foldl_sum_nonneg l m :
  counts_nonneg m → Forall (λ p, 0 ≤ reg4 p.2) l →
  counts_nonneg (foldl update_sum m l).
Proof.
  intros Hm Hl k v Hk.
  destruct (foldl_sum_lookup l m k v Hm Hl Hk) as [? _]. lia.
Qed.

(** Merging the emitted regions a second time adds their counts again
    but covers no new key and adds no key. *)
Lemma remerge_sum_metrics l m :
  counts_nonneg m → Forall (λ p, 0 ≤ reg4 p.2) l →
  Rulf.reg_count (foldl update_sum (foldl update_sum m l) l) =
    Rulf.reg_count (foldl update_sum m l) ∧
  Rulf.reg_total (foldl update_sum (foldl update_sum m l) l) =
    Rulf.reg_total (foldl update_sum m l).
Proof.
  intros Hm Hl.
  assert (Hback : ∀ k, is_Some (foldl update_sum (foldl update_sum m l) l !! k) →
                       is_Some (foldl update_sum m l !! k)).
  { intros k [H|H]%(foldl_upd_dom _ update_sum_other update_sum_key); [done|].
    apply (foldl_upd_dom _ update_sum_other update_sum_key). by right. }
  unfold Rulf.reg_count, Rulf.reg_total. split; f_equal; apply Nat.le_antisymm.
  - apply size_filter_mono. intros k v2 Hk2 Hpos. simpl in *.
    destruct (Hback k) as [v1 Hk1]; [by eauto|].
    destruct (foldl_sum_lookup l m k v1 Hm Hl Hk1) as [Hh Hk2'].
    rewrite Hk2' in Hk2. injection Hk2 as <-. simpl in Hpos.
    exists v1. split; [done|]. lia.
  - apply size_filter_mono. intros k v1 Hk1 Hpos. simpl in *.
    destruct (foldl_sum_lookup l m k v1 Hm Hl Hk1) as [Hh Hk2].
    eexists. split; [done|]. simpl. lia.
  - by apply size_mono.
  - apply size_mono. intros k.
    apply (foldl_upd_keeps _ update_sum_other update_sum_key).
Qed.

Lemma emitted_continue_nonneg parse accept obj :
  nonneg_hits obj →
  Forall (λ p, 0 ≤ reg4 p.2) (emitted_continue parse accept obj).
Proof.
  intros Hobj. apply Forall_forall. intros p Hp.
  apply elem_of_emitted_continue in Hp as (f & _ & Hf & _ & _ & _ & Hr & _).
  unfold nonneg_hits in Hobj. rewrite Forall_forall in Hobj.
  specialize (Hobj f Hf). rewrite Forall_forall in Hobj. by apply Hobj.
Qed.
End Remerge.

(** C3, as stated, fails in count mode: [collect_cov.py] has no guard
    against a second contribution.  One merge of an export that reports
    3 hits stores the count 3; merging the same export again stores 6. *)
Lemma count_mode_adds_again :
  match for_each (Rulf.target_body "/p" demo_tree) [(0, [demo_func])] (∅, ∅) with
  | inr (_, mamp_reg) =>
      mamp_reg !! region_key "/p/src/a.rs" (Region 2 1 5 2 3) = Some (4, 3)
  | inl _ => False
  end ∧
  match for_each (Rulf.target_body "/p" demo_tree)
          [(0, [demo_func]); (0, [demo_func])] (∅, ∅) with
  | inr (_, mamp_reg) =>
      mamp_reg !! region_key "/p/src/a.rs" (Region 2 1 5 2 3) = Some (4, 6)
  | inl _ => False
  end.
Proof. by vm_compute. Qed.

(** C3, amended: merging the identical export a second time leaves the
    reported metrics unchanged.  In boolean mode ([main.py]) the second
    merge returns the very store of the first, hence the same printed
    pair.  In count mode ([collect_cov.py]) the hit counts are added
    again, and for hit counts that are at least 0 the pair that
    [cov_select] prints is the same whether its last export is merged
    once or twice. *)
Theorem remerge_keeps_metrics (cwd : string) (fs : source_tree) (obj : export) :
  (∀ m m1, Base4.functions_loop cwd fs obj m = inr m1 →
     Base4.functions_loop cwd fs obj m1 = inr m1) ∧
  (∀ merge_rc export_rc snap m1 printed,
     Base4.collect_result cwd fs merge_rc export_rc obj snap
       = inr (Some (m1, printed)) →
     Base4.collect_result cwd fs merge_rc export_rc obj (Some m1)
       = inr (Some (m1, printed))) ∧
  (∀ targets rc printed,
     Forall (λ t, nonneg_hits t.2) targets → nonneg_hits obj →
     Rulf.cov_select cwd fs (targets ++ [(rc, obj)]) = inr printed →
     Rulf.cov_select cwd fs (targets ++ [(rc, obj); (rc, obj)]) = inr printed).
Proof.
  assert (HB : ∀ m m1, Base4.functions_loop cwd fs obj m = inr m1 →
                       Base4.functions_loop cwd fs obj m1 = inr m1).
  { intros m m1 H.
    destruct (base4_functions_loop_success _ _ _ _ _ m1 H) as (m2 & H2).
    rewrite H2. f_equal.
    apply base4_functions_loop_inr in H as ->.
    apply base4_functions_loop_inr in H2 as ->.
    apply foldl_bool_idem. }
  split; [exact HB|]. split.
  - intros merge_rc export_rc snap m1 printed. unfold Base4.collect_result.
    destruct (negb (merge_rc =? 0)); [done|].
    destruct (negb (export_rc =? 0)); [done|].
    intros (m' & Hloop & [= -> <-])%bind_inr.
    simpl. by rewrite (HB _ _ Hloop).
  - intros targets rc printed Hts Hobj. unfold Rulf.cov_select.
    intros ([map1 m1] & Hrun & [= <-])%bind_inr.
    rewrite for_each_app in Hrun.
    apply bind_inr in Hrun as ([map0 m0] & Hpre & Hlast).
    rewrite for_each_app, Hpre. simpl. simpl in Hlast.
    destruct (negb (rc =? 0)); [done|].
    apply bind_inr in Hlast as (s1 & Hlast & [= ->]).
    apply rulf_targets in Hpre as [Hok0 ->]; [|apply cache_ok_empty].
    rewrite rulf_for_each in Hlast by done.
    apply bind_inr in Hlast as (mapx & Hc & [= <- <-]).
    rewrite rulf_for_each by done. rewrite Hc. simpl.
    pose proof (for_each_cache_ok _ _ _ _ _ Hok0 Hc) as Hok1.
    rewrite rulf_for_each by done.
    destruct (for_each_cache_success _ _ _ _ mapx _ Hok0 Hok1 Hc) as (map2 & ->).
    simpl. unfold ret. f_equal.
    destruct (remerge_sum_metrics
                (emitted_continue (Rulf.parse_file fs) (rulf_accept cwd) obj)
                (foldl update_sum ∅
                   (targets ≫= λ t, emitted_continue (Rulf.parse_file fs)
                                      (rulf_accept cwd) t.2))) as [-> ->].
    + apply foldl_sum_nonneg; [by intros k v; rewrite lookup_empty|].
      apply Forall_forall. intros p (t & Hp & Ht)%list_elem_of_bind.
      rewrite Forall_forall in Hts.
      pose proof (emitted_continue_nonneg (Rulf.parse_file fs) (rulf_accept cwd)
                    t.2 (Hts t Ht)) as Hnn.
      rewrite Forall_forall in Hnn. by apply Hnn.
    + by apply emitted_continue_nonneg.
    + done.
Qed.

Lemma remerge_keeps_metrics_witness :
  Base4.functions_loop "/p" demo_tree [demo_func] {[ "/p/src/a.rs/2/1/5/2" := 1 ]}
    = inr {[ "/p/src/a.rs/2/1/5/2" := 1 ]} ∧
  Rulf.cov_select "/p" demo_tree ([] ++ [(0, [demo_func]); (0, [demo_func])])
    = inr (1, 1).
Proof.
  destruct (remerge_keeps_metrics "/p" demo_tree [demo_func]) as (HB & _ & HC).
  split.
  - apply (HB ∅). vm_compute; reflexivity.
  - apply (HC [] 0 (1, 1)).
    + constructor.
    + repeat constructor; simpl; lia.
    + vm_compute; reflexivity.
Defined.

(** ** C8: how the snapshot is written *)

Section PersistFacts.
Variable json_chunks : gmap string Z → list string.
Variable flush_now : string → bool.

Lemma string_app_nil_r s : s +:+ "" = s.
Proof. induction s as [|a s IH]; [done|]. by rewrite string_app_cons, IH. Qed.

Lemma open_inv d0 path : persist_inv d0 path [] (Snapshot.open_w d0 path).
Proof.
  unfold persist_inv, Snapshot.open_w, Snapshot.content; simpl.
  split; [done|]. split; [by rewrite lookup_insert_eq|].
  intros q Hq. by rewrite lookup_insert_ne.
Qed.

Lemma flush_inv d0 path written s :
  persist_inv d0 path written s → persist_inv d0 path written (Snapshot.flush s).
Proof.
  destruct s as [d [p pending]]. unfold persist_inv, Snapshot.flush; simpl.
  intros (-> & Hc & Hother). split; [done|]. split.
  - unfold Snapshot.content at 1. rewrite lookup_insert_eq. simpl.
    by rewrite string_app_nil_r.
  - intros q Hq. rewrite lookup_insert_ne by done. by apply Hother.
Qed.

Lemma whole_snoc written chunk : whole (written ++ [chunk]) = whole written +:+ chunk.
Proof.
  unfold whole. induction written as [|c written IH]; simpl.
  - by rewrite string_app_nil_r.
  - by rewrite IH, string_app_assoc.
Qed.

Lemma write_inv d0 path written s chunk :
  persist_inv d0 path written s →
  persist_inv d0 path (written ++ [chunk]) (Snapshot.write flush_now s chunk).
Proof.
  intros Hs.
  assert (persist_inv d0 path (written ++ [chunk])
            (s.1, Snapshot.FileObject (Snapshot.fo_path s.2)
                    (Snapshot.fo_pending s.2 +:+ chunk))) as Hs'.
  { destruct Hs as (Hp & Hc & Hother). unfold persist_inv; simpl.
    split; [done|]. split; [|done].
    by rewrite whole_snoc, <- Hc, string_app_assoc. }
  destruct s as [d fp]. unfold Snapshot.write.
  destruct (flush_now _); [by apply flush_inv|done].
Qed.

Lemma writes_inv d0 path written s chunks s' :
  persist_inv d0 path written s →
  s' ∈ Snapshot.writes flush_now s chunks →
  ∃ written' rest, written ++ chunks = written' ++ rest ∧
    persist_inv d0 path written' s'.
Proof.
  revert written s. induction chunks as [|c chunks IH]; intros written s Hs; simpl.
  - by intros ?%elem_of_nil.
  - pose proof (write_inv _ _ _ _ c Hs) as Hs1.
    intros [->|Hin]%elem_of_cons.
    + exists (written ++ [c]), chunks. by rewrite <- app_assoc.
    + destruct (IH _ _ Hs1 Hin) as (w' & rest & Heq & Hinv).
      exists w', rest. by rewrite <- Heq, <- app_assoc.
Qed.

Lemma foldl_write_inv d0 path written s chunks :
  persist_inv d0 path written s →
  persist_inv d0 path (written ++ chunks) (foldl (Snapshot.write flush_now) s chunks).
Proof.
  revert written s. induction chunks as [|c chunks IH]; intros written s Hs; simpl.
  - by rewrite app_nil_r.
  - replace (written ++ c :: chunks) with ((written ++ [c]) ++ chunks)
      by (by rewrite <- app_assoc).
    apply IH. by apply write_inv.
Qed.

Lemma whole_app l1 l2 : whole (l1 ++ l2) = whole l1 +:+ whole l2.
Proof.
  unfold whole. induction l1 as [|c l1 IH]; simpl; [done|].
  by rewrite IH, string_app_assoc.
Qed.
End PersistFacts.

(** C8, as stated, fails: the scripts open [cov_map.json] itself with
    mode ['w'].  With a prior snapshot [{}] on the disk, the first state
    of a persist already shows an empty file at the path, which is
    neither the prior snapshot nor, for a serializer that writes
    anything at all, the new one; this holds whatever the serializer and
    the flush policy of the I/O layer are. *)
Lemma persist_truncates_first :
  ¬ ∃ json_chunks flush_now,
      whole (json_chunks ∅) ≠ "" ∧
      Forall (λ s : gmap string string * Snapshot.file_object,
                Snapshot.content s.1 "cov_map.json" = "{}" ∨
                Snapshot.content s.1 "cov_map.json" = whole (json_chunks ∅))
        (Snapshot.persist_states json_chunks flush_now
           {[ "cov_map.json" := "{}" ]} "cov_map.json" ∅).
Proof.
  intros (json_chunks & flush_now & Hne & Hall).
  unfold Snapshot.persist_states in Hall.
  apply Forall_cons in Hall as [Hfirst _].
  unfold Snapshot.open_w, Snapshot.content in Hfirst; simpl in Hfirst.
  rewrite lookup_insert_eq in Hfirst. simpl in Hfirst.
  destruct Hfirst as [?|?]; [done|]. by apply Hne.
Qed.

(** C8, amended: persist writes in place.  It opens the snapshot path
    itself for writing, which empties the file at once; until the file
    is closed the path shows a prefix of the serialization; after the
    close it holds the whole serialization.  No other path of the disk
    is created or changed at any step, so there is no temporary file and
    no rename. *)
Theorem persist_in_place (json_chunks : gmap string Z → list string)
    (flush_now : string → bool) (d : gmap string string) (path : string)
    (mamp_reg : gmap string Z) :
  head (Snapshot.persist_states json_chunks flush_now d path mamp_reg)
    = Some (<[path := ""]> d, Snapshot.FileObject path "") ∧
  (∀ s, s ∈ Snapshot.persist_states json_chunks flush_now d path mamp_reg →
     (∃ rest, Snapshot.content s.1 path +:+ rest = whole (json_chunks mamp_reg)) ∧
     ∀ q, q ≠ path → s.1 !! q = d !! q) ∧
  Snapshot.persist json_chunks flush_now d path mamp_reg !! path
    = Some (whole (json_chunks mamp_reg)) ∧
  (∀ q, q ≠ path →
     Snapshot.persist json_chunks flush_now d path mamp_reg !! q = d !! q).
Proof.
  split; [done|]. split; [|split].
  - intros s Hs.
    assert (∃ written rest, json_chunks mamp_reg = written ++ rest ∧
              persist_inv d path written s) as (written & rest & Heq & Hinv).
    { unfold Snapshot.persist_states in Hs.
      apply elem_of_cons in Hs as [->|Hs].
      - exists [], (json_chunks mamp_reg). split; [done|]. apply open_inv.
      - apply (writes_inv flush_now d path [] _ _ _ (open_inv d path) Hs). }
    destruct Hinv as (_ & Hc & Hother). split; [|done].
    exists (Snapshot.fo_pending s.2 +:+ whole rest).
    by rewrite Heq, whole_app, <- Hc, string_app_assoc.
  - pose proof (foldl_write_inv flush_now d path [] _ (json_chunks mamp_reg)
                  (open_inv d path)) as Hinv.
    apply flush_inv in Hinv. unfold Snapshot.persist, Snapshot.close.
    destruct (foldl _ _ _) as [d1 [p pending]]. simpl in *.
    destruct Hinv as (Hp & Hc & _). simpl in *. subst p.
    unfold Snapshot.content in *. rewrite lookup_insert_eq in *. simpl in Hc.
    by rewrite string_app_nil_r in Hc; rewrite Hc.
  - intros q Hq.
    pose proof (foldl_write_inv flush_now d path [] _ (json_chunks mamp_reg)
                  (open_inv d path)) as Hinv.
    apply flush_inv in Hinv. destruct Hinv as (_ & _ & Hother).
    unfold Snapshot.persist, Snapshot.close. by apply Hother.
Qed.

(** * Properties of the other functions *)

(** ** The other scripts: filters *)

Lemma rusty_collect_result cwd fs merge_rc export_rc binaries obj m printed :
  RustyUnit.collect_result cwd fs merge_rc export_rc binaries obj = inr (m, printed) →
  m = foldl update_max ∅
        (emitted_break (RustyUnit.parse_file fs) (rusty_accept cwd) obj) ∧
  printed = (RustyUnit.reg_count m, RustyUnit.reg_total m).
Proof.
  unfold RustyUnit.collect_result.
  destruct (negb (merge_rc =? 0)); [done|].
  destruct binaries as [|b bs]; [done|].
  destruct (negb (export_rc =? 0)); [done|].
  rewrite rusty_for_each by apply cache_ok_empty.
  destruct (for_each _ obj ∅) as [e|map']; simpl; [done|].
  by intros [= <- <-].
Qed.

Lemma rulf_target_loop cwd fs targets map m :
  for_each (Rulf.target_body cwd fs) targets (∅, ∅) = inr (map, m) →
  m = foldl update_sum ∅ (rulf_reported cwd fs targets).
Proof. intros H. by apply rulf_targets in H as [_ ->]; [|apply cache_ok_empty]. Qed.

Lemma rulf_reported_elem cwd fs targets p :
  p ∈ rulf_reported cwd fs targets →
  ∃ t f limit, t ∈ targets ∧ f ∈ t.2 ∧ head (filenames f) = Some p.1 ∧
    rulf_accept cwd p.1 = true ∧ Rulf.parse_file fs p.1 = inr limit ∧
    p.2 ∈ regions f ∧ reg2 p.2 ≤ limit.
Proof.
  intros (t & Hp & Ht)%list_elem_of_bind.
  apply elem_of_emitted_continue in Hp as (f & limit & ? & ? & ? & ? & ? & ?).
  exists t, f, limit. done.
Qed.

(** X1: in [collect_cov.py] and in [t.py] too, a region whose end line
    exceeds the limit that the script's [parse_file] returns for its
    file is never a key of the store. *)
Theorem beyond_boundary_other_scripts (cwd : string) (fs : source_tree)
    (fn : string) (r : region) :
  (∀ limit targets map m,
     Rulf.parse_file fs fn = inr limit → limit < reg2 r →
     for_each (Rulf.target_body cwd fs) targets (∅, ∅) = inr (map, m) →
     m !! region_key fn r = None) ∧
  (∀ limit merge_rc export_rc binaries obj m printed,
     RustyUnit.parse_file fs fn = inr limit → limit < reg2 r →
     RustyUnit.collect_result cwd fs merge_rc export_rc binaries obj
       = inr (m, printed) →
     m !! region_key fn r = None).
Proof.
  split.
  - intros limit targets map m Hp Hlt ->%rulf_target_loop.
    rewrite (foldl_upd_other _ update_sum_other); [done|].
    intros (p & Hk & (t & Hin & _)%list_elem_of_bind)%list_elem_of_fmap.
    eapply (beyond_not_emitted_continue _ _ t.2); [done..|].
    apply list_elem_of_fmap. eauto.
  - intros limit merge_rc export_rc binaries obj m printed Hp Hlt
      [-> _]%rusty_collect_result.
    rewrite (foldl_upd_other _ update_max_other); [done|].
    by eapply beyond_not_emitted_break.
Qed.

Lemma beyond_boundary_other_scripts_witness :
  match RustyUnit.collect_result "/p" demo_tree 0 0 ["bin"] [demo_func] with
  | inr (m, _) => m !! region_key "/p/src/a.rs" (Region 8 1 9 2 1)
  | inl _ => Some 0
  end = None.
Proof.
  destruct (RustyUnit.collect_result "/p" demo_tree 0 0 ["bin"] [demo_func])
    as [e|[m printed]] eqn:Hrun; [by vm_compute in Hrun|].
  destruct (beyond_boundary_other_scripts "/p" demo_tree "/p/src/a.rs"
              (Region 8 1 9 2 1)) as [_ HT].
  apply (HT 7 0 0 ["bin"] [demo_func] m printed); [reflexivity|reflexivity|exact Hrun].
Defined.

(** X2: the file-name filters of the other scripts.  [main.py] leaves
    the entry of every region of a file whose path does not contain the
    working directory as it was loaded; [t.py] stores no region of such
    a file, nor of a file whose name ends in [rusty_monitor.rs];
    [collect_cov.py] stores no region of a file whose path does not
    contain [src/]. *)
Theorem file_filters_other_scripts (cwd : string) (fs : source_tree)
    (fn : string) (r : region) :
  (str_in cwd fn = false →
   ∀ obj m m', Base4.functions_loop cwd fs obj m = inr m' →
     m' !! region_key fn r = m !! region_key fn r) ∧
  (str_in cwd fn = false ∨ endswith fn "rusty_monitor.rs" = true →
   ∀ merge_rc export_rc binaries obj m printed,
     RustyUnit.collect_result cwd fs merge_rc export_rc binaries obj
       = inr (m, printed) →
     m !! region_key fn r = None) ∧
  (str_in "src/" fn = false →
   ∀ targets map m,
     for_each (Rulf.target_body cwd fs) targets (∅, ∅) = inr (map, m) →
     m !! region_key fn r = None).
Proof.
  split; [|split].
  - intros Hout obj m m' ->%base4_functions_loop_inr.
    apply (foldl_upd_other _ update_bool_other).
    by apply rejected_not_emitted_break.
  - intros Hout merge_rc export_rc binaries obj m printed
      [-> _]%rusty_collect_result.
    rewrite (foldl_upd_other _ update_max_other); [done|].
    apply rejected_not_emitted_break. unfold rusty_accept.
    destruct Hout as [->| ->]; [done|]. by rewrite andb_false_r.
  - intros Hsrc targets map m ->%rulf_target_loop.
    rewrite (foldl_upd_other _ update_sum_other); [done|].
    intros (p & Hk & (t & Hin & _)%list_elem_of_bind)%list_elem_of_fmap.
    eapply (rejected_not_emitted_continue _ (rulf_accept cwd) t.2 fn r).
    + unfold rulf_accept. rewrite Hsrc. apply andb_false_r.
    + apply list_elem_of_fmap. eauto.
Qed.

Lemma file_filters_other_scripts_witness :
  match RustyUnit.collect_result "/p" demo_tree 0 0 ["bin"]
          [Func "m" ["/p/src/rusty_monitor.rs"] [Region 1 1 2 2 5]; demo_func] with
  | inr (m, _) => m !! region_key "/p/src/rusty_monitor.rs" (Region 1 1 2 2 5)
  | inl _ => Some 0
  end = None.
Proof.
  destruct (RustyUnit.collect_result "/p" demo_tree 0 0 ["bin"]
              [Func "m" ["/p/src/rusty_monitor.rs"] [Region 1 1 2 2 5]; demo_func])
    as [e|[m printed]] eqn:Hrun; [by vm_compute in Hrun|].
  destruct (file_filters_other_scripts "/p" demo_tree "/p/src/rusty_monitor.rs"
              (Region 1 1 2 2 5)) as (_ & HT & _).
  eapply HT; [right; reflexivity | exact Hrun].
Defined.

(** ** The other scripts: what the store holds *)

Section SumSemantics.
Implicit Types (m : gmap string (Z * Z)) (p : string * region) (k : string).

(** A new entry holds the line count of the region and the hits of the
    pass. *)
Lemma foldl_sum_new_lines l m p :
  m !! key_of p = None → p ∈ l →
  foldl update_sum m l !! key_of p
    = Some (reg2 p.2 - reg0 p.2 + 1, hits (key_of p) l).
Proof.
  revert m. induction l as [|q l IH]; intros m Hk Hin; [by apply elem_of_nil in Hin|].
  simpl. case_decide as Hq.
  - erewrite foldl_sum_old; last first.
    { unfold update_sum. rewrite Hq, Hk, <- Hq. apply lookup_insert_eq. }
    simpl. apply region_key_inj in Hq as (_ & -> & _ & -> & _). done.
  - apply elem_of_cons in Hin as [->|Hin]; [done|].
    rewrite Z.add_0_l. apply IH; [|done]. by rewrite update_sum_other.
Qed.
End SumSemantics.

(** X3: what [collect_cov.py] accumulates.  After the target loop of
    [cov_select], the entry of the key of an emitted region holds the
    line count [led - lst + 1] of the region and the sum of the hit
    counts of all emitted regions with that key, over all targets; a key
    that no emitted region has is absent. *)
Theorem cov_select_sums (cwd : string) (fs : source_tree)
    (targets : list (Z * export)) (map : gmap string Z) (m : gmap string (Z * Z))
    (Hrun : for_each (Rulf.target_body cwd fs) targets (∅, ∅) = inr (map, m)) :
  (∀ p, p ∈ rulf_reported cwd fs targets →
     m !! key_of p
       = Some (reg2 p.2 - reg0 p.2 + 1, hits (key_of p) (rulf_reported cwd fs targets))) ∧
  (∀ k, k ∉ key_of <$> rulf_reported cwd fs targets → m !! k = None).
Proof.
  apply rulf_target_loop in Hrun as ->. split.
  - intros p Hp. by apply foldl_sum_new_lines.
  - intros k Hk. by rewrite (foldl_upd_other _ update_sum_other).
Qed.

Lemma cov_select_sums_witness :
  match for_each (Rulf.target_body "/p" demo_tree)
          [(0, [demo_func]); (0, [demo_func])] (∅, ∅) with
  | inr (_, m) => m !! key_of ("/p/src/a.rs", Region 2 1 5 2 3)
  | inl _ => None
  end = Some (4, 6).
Proof.
  destruct (for_each (Rulf.target_body "/p" demo_tree)
              [(0, [demo_func]); (0, [demo_func])] (∅, ∅))
    as [e|[map m]] eqn:Hrun; [by vm_compute in Hrun|].
  destruct (cov_select_sums "/p" demo_tree _ map m Hrun) as [Hsum _].
  rewrite (Hsum ("/p/src/a.rs", Region 2 1 5 2 3)).
  - vm_compute. reflexivity.
  - vm_compute. left.
Defined.

Section MaxSemantics.
Implicit Types (m : gmap string Z) (p : string * region) (k : string).

(** The entry of a key after the fold: at least its old value (0 for a
    new key), at least every count emitted for the key, and equal to the
    old value or to one of those counts. *)
Lemma foldl_max_lookup l m k :
  k ∈ key_of <$> l →
  ∃ v, foldl update_max m l !! k = Some v ∧
    default 0 (m !! k) ≤ v ∧
    (∀ p, p ∈ l → key_of p = k → reg4 p.2 ≤ v) ∧
    (v = default 0 (m !! k) ∨ ∃ p, p ∈ l ∧ key_of p = k ∧ reg4 p.2 = v).
Proof.
  revert m. induction l as [|q l IH]; intros m Hin; [by apply elem_of_nil in Hin|].
  simpl. destruct (decide (key_of q = k)) as [Hq|Hq].
  - assert (update_max m q !! k = Some (Z.max (reg4 q.2) (default 0 (m !! k)))) as Hk1.
    { unfold update_max. subst k. by rewrite lookup_insert_eq. }
    destruct (decide (k ∈ key_of <$> l)) as [Hl|Hl].
    + destruct (IH (update_max m q) Hl) as (v & Hv & Hlo & Hall & Hone).
      rewrite Hk1 in Hlo, Hone. simpl in *.
      exists v. split; [done|]. split; [lia|]. split.
      * intros p [->|Hp]%elem_of_cons Hpk; [lia | by apply Hall].
      * destruct Hone as [->|(p & Hp & Hpk & Hpv)].
        -- destruct (Z.max_spec (reg4 q.2) (default 0 (m !! k))) as [[_ ->]|[_ ->]].
           ++ by left.
           ++ right. exists q. split; [by left|done].
        -- right. exists p. split; [by right|done].
    + rewrite (foldl_upd_other _ update_max_other) by done.
      eexists. split; [done|]. split; [lia|]. split.
      * intros p [->|Hp]%elem_of_cons Hpk; [lia|].
        destruct Hl. apply list_elem_of_fmap. eauto.
      * destruct (Z.max_spec (reg4 q.2) (default 0 (m !! k))) as [[_ ->]|[_ ->]].
        -- by left.
        -- right. exists q. split; [by left|done].
  - rewrite fmap_cons, elem_of_cons in Hin. destruct Hin as [?|Hin]; [congruence|].
    destruct (IH (update_max m q) Hin) as (v & Hv & Hlo & Hall & Hone).
    rewrite update_max_other in Hlo, Hone by done.
    exists v. split; [done|]. split; [done|]. split.
    + intros p [->|Hp]%elem_of_cons Hpk; [congruence | by apply Hall].
    + destruct Hone as [->|(p & Hp & Hpk & Hpv)]; [by left|].
      right. exists p. split; [by right|done].
Qed.
End MaxSemantics.

(** X4: what [t.py] stores.  After [collect_result], the entry of a key
    is the largest hit count emitted for it, or 0 when none is positive:
    it is at least 0 and at least every emitted count of the key, and it
    is 0 or one of those counts.  So a key counts as covered exactly
    when some emitted region of it was hit, whatever the order of the
    function records.  Keys that are not emitted are absent. *)
Theorem collect_result_max (cwd : string) (fs : source_tree)
    (merge_rc export_rc : Z) (binaries : list string) (obj : export)
    (m : gmap string Z) (printed : Z * Z)
    (Hrun : RustyUnit.collect_result cwd fs merge_rc export_rc binaries obj
              = inr (m, printed)) (k : string) :
  (k ∈ key_of <$> emitted_break (RustyUnit.parse_file fs) (rusty_accept cwd) obj →
   ∃ v, m !! k = Some v ∧ 0 ≤ v ∧
     (∀ p, p ∈ emitted_break (RustyUnit.parse_file fs) (rusty_accept cwd) obj →
        key_of p = k → reg4 p.2 ≤ v) ∧
     (v = 0 ∨ ∃ p, p ∈ emitted_break (RustyUnit.parse_file fs) (rusty_accept cwd) obj ∧
                   key_of p = k ∧ reg4 p.2 = v) ∧
     (0 < v ↔ ∃ p, p ∈ emitted_break (RustyUnit.parse_file fs) (rusty_accept cwd) obj ∧
                   key_of p = k ∧ 0 < reg4 p.2)) ∧
  (k ∉ key_of <$> emitted_break (RustyUnit.parse_file fs) (rusty_accept cwd) obj →
   m !! k = None).
Proof.
  apply rusty_collect_result in Hrun as [-> _]. split.
  - intros Hin. destruct (foldl_max_lookup _ ∅ k Hin) as (v & Hv & Hlo & Hall & Hone).
    rewrite lookup_empty in Hlo, Hone. simpl in *.
    exists v. split; [done|]. split; [done|]. split; [done|]. split; [done|]. split.
    + intros Hpos. destruct Hone as [->|(p & Hp & Hpk & Hpv)]; [lia|].
      exists p. split; [done|]. split; [done|]. lia.
    + intros (p & Hp & Hpk & Hpos). specialize (Hall p Hp Hpk). lia.
  - intros Hk. by rewrite (foldl_upd_other _ update_max_other).
Qed.

Lemma collect_result_max_witness :
  match RustyUnit.collect_result "/p" demo_tree 0 0 ["bin"]
          [cold_func; warm_func; cold_func] with
  | inr (m, _) => ∃ v, m !! "/p/src/b.rs/1/1/3/2" = Some v ∧ 0 < v
  | inl _ => False
  end.
Proof.
  destruct (RustyUnit.collect_result "/p" demo_tree 0 0 ["bin"]
              [cold_func; warm_func; cold_func])
    as [e|[m printed]] eqn:Hrun; [by vm_compute in Hrun|].
  destruct (collect_result_max "/p" demo_tree 0 0 ["bin"] _ m printed Hrun
              "/p/src/b.rs/1/1/3/2") as [Hin _].
  destruct Hin as (v & Hv & _ & _ & _ & Hpos).
  - vm_compute. left.
  - exists v. split; [done|]. apply Hpos.
    exists ("/p/src/b.rs", Region 1 1 3 2 2). vm_compute.
    split; [right; left|]. split; reflexivity.
Defined.


(** ** The counters of [cov_collect.py] *)



(** X6: the region and function counters that [cov_collect.py] prints
    are consistent: the covered regions are among the regions, the
    functions with a hit are among the functions counted, and these are
    among the function records of the export; none of these four
    counters is negative, and every value of the dictionary is 1.  The
    two line counters obey [0 <= line_count <= line_total] when every
    emitted region starts no later than it ends. *)
Theorem collect_result_counters (cwd : string) (fs : source_tree)
    (merge_rc export_rc : Z) (obj : export) (s : CovCollect.state)
    (Hrun : CovCollect.collect_result cwd fs merge_rc export_rc obj = inr s) :
  0 ≤ CovCollect.reg_count s ≤ CovCollect.reg_total s ∧
  0 ≤ CovCollect.func_count s ≤ CovCollect.func_total s ∧
  CovCollect.func_total s ≤ Z.of_nat (length obj) ∧
  (∀ k v, CovCollect.mamp_reg s !! k = Some v → v = 1) ∧
  ((∀ p, p ∈ emitted_break (CovCollect.parse_file fs) (str_in cwd) obj →
         reg0 p.2 ≤ reg2 p.2) →
   0 ≤ CovCollect.line_count s ≤ CovCollect.line_total s).
Proof.
  pose proof (covcollect_collect_result _ _ _ _ _ _ Hrun) as Hm.
  unfold CovCollect.collect_result in Hrun.
  destruct (negb (merge_rc =? 0)); [done|].
  destruct (negb (export_rc =? 0)); [done|].
  apply covcollect_for_each_counted in Hrun as [(A1 & A2 & A3 & A4) Hf];
    [|apply cache_ok_empty].
  unfold funcs_counted in Hf. simpl in A1, A2, A3, A4, Hf.
  split.
  { rewrite A1, A2. pose proof (length_filter (λ p, was_hit p = true)
      (first_sightings ∅ (emitted_break (CovCollect.parse_file fs) (str_in cwd) obj))).
    lia. }
  split; [lia|]. split; [lia|]. split.
  - rewrite Hm. apply foldl_seen_values. intros k v. by rewrite lookup_empty.
  - intros Hlines. rewrite A3, A4. apply sum_lines_filter.
    intros p Hp. apply Hlines.
    apply first_sightings_elem in Hp as (_ & l1 & l2 & -> & _).
    apply elem_of_app. right. left.
Qed.

Lemma collect_result_counters_witness :
  match CovCollect.collect_result "/p" demo_tree 0 0 [demo_func; cold_func] with
  | inr s => CovCollect.func_total s ≤ 2 ∧
             0 ≤ CovCollect.line_count s ≤ CovCollect.line_total s
  | inl _ => False
  end.
Proof.
  destruct (CovCollect.collect_result "/p" demo_tree 0 0 [demo_func; cold_func])
    as [e|s] eqn:Hrun; [by vm_compute in Hrun|].
  destruct (collect_result_counters "/p" demo_tree 0 0 _ s Hrun)
    as (_ & _ & H & _ & Hlines).
  split; [exact H|]. apply Hlines.
  intros p Hp. vm_compute in Hp.
  apply elem_of_cons in Hp as [->|Hp]; [vm_compute; congruence|].
  apply elem_of_cons in Hp as [->|Hp]; [vm_compute; congruence|].
  by apply elem_of_nil in Hp.
Defined.



(** ** The look-ahead boundary scan of [t.py] *)

Section LookAhead.
Lemma scan_lines_mod_prefix pre x rest ans :
  no_stop (pre ++ [x]) = true →
  RustyUnit.scan_lines_mod (pre ++ x :: rest) ans =
  RustyUnit.scan_lines_mod (x :: rest) (ans + Z.of_nat (length pre)).
Proof.
  revert ans. induction pre as [|p pre IH]; intros ans Hns.
  - simpl. by rewrite Z.add_0_r.
  - assert (no_stop (pre ++ [x]) = true ∧
            ∃ next tl, pre ++ x :: rest = next :: tl ∧ stops_scan p next = false)
      as (Hns' & next & tl & Heq & Hstop).
    { destruct pre as [|q pre]; simpl in Hns |- *;
        apply andb_true_iff in Hns as [Hs Hn]; apply negb_true_iff in Hs;
        (split; [exact Hn|]); eauto. }
    rewrite <- app_comm_cons.
    change (RustyUnit.scan_lines_mod (p :: pre ++ x :: rest) ans) with
      (if RustyUnit.is_marker p then
         match pre ++ x :: rest with
         | [] => raise IndexError
         | next :: _ =>
             if startswith next "mod" then ret ans
             else RustyUnit.scan_lines_mod (pre ++ x :: rest) (ans + 1)
         end
       else RustyUnit.scan_lines_mod (pre ++ x :: rest) (ans + 1)).
    unfold stops_scan in Hstop.
    destruct (RustyUnit.is_marker p); simpl in Hstop.
    + rewrite Heq, Hstop, <- Heq, IH by done. f_equal. simpl length. lia.
    + rewrite IH by done. f_equal. simpl length. lia.
Qed.
End LookAhead.

(** X7: the boundary scan of [t.py].  A marker line ends the scan only
    when the line after it starts with [mod].  If line [M] is the first
    marker line followed by such a line, [parse_file] returns [M]; a
    marker line followed by another kind of line is passed over.  If no
    marker line is followed by a [mod] line, the result is [N + 1] for a
    file of [N] lines, unless the last line is itself a marker line: the
    read of the line after it then raises [IndexError]. *)
Theorem parse_file_look_ahead (fs : source_tree) (file : string) (ls : list string)
    (Hfile : fs file = Some ls) :
  (∀ pre m next post,
     ls = pre ++ m :: next :: post → no_stop (pre ++ [m]) = true →
     RustyUnit.is_marker m = true → startswith next "mod" = true →
     RustyUnit.parse_file fs file = inr (Z.of_nat (length pre) + 1)) ∧
  (∀ pre m,
     ls = pre ++ [m] → no_stop ls = true → RustyUnit.is_marker m = true →
     RustyUnit.parse_file fs file = inl IndexError) ∧
  (∀ pre x,
     ls = pre ++ [x] → no_stop ls = true → RustyUnit.is_marker x = false →
     RustyUnit.parse_file fs file = inr (Z.of_nat (length ls) + 1)) ∧
  (ls = [] → RustyUnit.parse_file fs file = inr 1).
Proof.
  unfold RustyUnit.parse_file. rewrite Hfile. repeat split.
  - intros pre m next post -> Hns Hm Hnext.
    rewrite scan_lines_mod_prefix by done. simpl. rewrite Hm, Hnext.
    unfold ret. f_equal. lia.
  - intros pre m -> Hns Hm.
    rewrite scan_lines_mod_prefix by done. simpl. by rewrite Hm.
  - intros pre x -> Hns Hx.
    rewrite scan_lines_mod_prefix by done. simpl. rewrite Hx.
    unfold ret. f_equal. rewrite length_app. simpl. lia.
  - by intros ->.
Qed.

Lemma parse_file_look_ahead_witness :
  RustyUnit.parse_file demo_tree "/p/src/a.rs" = inr 7 ∧
  RustyUnit.parse_file (λ _, Some ["fn f() {}"; "#[cfg(test)]"]) "x.rs" = inl IndexError.
Proof.
  split.
  - destruct (parse_file_look_ahead demo_tree "/p/src/a.rs" ten_lines eq_refl)
      as (H & _).
    apply (H (take 6 ten_lines) "#[cfg(test)]" "mod tests {" (drop 8 ten_lines));
      reflexivity.
  - destruct (parse_file_look_ahead (λ _, Some ["fn f() {}"; "#[cfg(test)]"]) "x.rs"
                ["fn f() {}"; "#[cfg(test)]"] eq_refl) as (_ & H & _).
    apply (H ["fn f() {}"] "#[cfg(test)]"); reflexivity.
Defined.


(** ** Finding and slicing *)

Section FindSlice.
Implicit Types (s t a b : string) (c : Ascii.ascii).

Lemma string_length_app s t :
  String.length (s +:+ t) = (String.length s + String.length t)%nat.
Proof.
  induction s as [|x s IH]; [done|].
  rewrite string_app_cons. simpl. by rewrite IH.
Qed.

Lemma prefix_char_hd c x s :
  String.prefix (String c EmptyString) (String x s) = Ascii.eqb x c.
Proof.
  simpl. destruct (Ascii.ascii_dec c x) as [->|Hne].
  - rewrite Ascii.eqb_refl. by destruct s.
  - symmetry. apply Ascii.eqb_neq. congruence.
Qed.

Lemma find_from_char_absent c s i :
  has_char c s = false → find_from (String c EmptyString) s i = -1.
Proof.
  revert i. induction s as [|x s IH]; intros i Hs; [done|].
  simpl in Hs. apply orb_false_iff in Hs as [Hx Hs].
  unfold find_from; fold find_from. rewrite prefix_char_hd, Hx. by apply IH.
Qed.

Lemma find_from_char_first c a t i :
  has_char c a = false →
  find_from (String c EmptyString) (a +:+ String c t) i = i + Z.of_nat (String.length a).
Proof.
  revert i. induction a as [|x a IH]; intros i Ha.
  - rewrite string_app_nil. unfold find_from; fold find_from.
    rewrite prefix_char_hd, Ascii.eqb_refl. simpl. lia.
  - simpl in Ha. apply orb_false_iff in Ha as [Hx Ha].
    rewrite string_app_cons. unfold find_from; fold find_from.
    rewrite prefix_char_hd, Hx, IH by done. simpl String.length. lia.
Qed.

Lemma has_char_app c s t : has_char c (s +:+ t) = has_char c s || has_char c t.
Proof.
  induction s as [|x s IH]; [done|].
  rewrite string_app_cons. simpl. by rewrite IH, orb_assoc.
Qed.

Lemma drop_chars_app a t : drop_chars (String.length a) (a +:+ t) = t.
Proof. induction a as [|x a IH]; [done|]. rewrite string_app_cons. simpl. apply IH. Qed.

Lemma take_chars_app b t : take_chars (String.length b) (b +:+ t) = b.
Proof.
  induction b as [|x b IH]; [by destruct t|].
  rewrite string_app_cons. simpl. by rewrite IH.
Qed.

Lemma drop_chars_zero s : drop_chars 0 s = s.
Proof. by destruct s. Qed.

(** A slice with both bounds inside the text. *)
Lemma slice_middle a b t :
  slice (a +:+ b +:+ t) (Z.of_nat (String.length a))
    (Z.of_nat (String.length a + String.length b)) = b.
Proof.
  unfold slice, slice_bound. rewrite !string_length_app.
  destruct (Z.ltb_spec (Z.of_nat (String.length a)) 0); [lia|].
  destruct (Z.ltb_spec (Z.of_nat (String.length a + String.length b)) 0); [lia|].
  rewrite !Z.min_l by lia.
  replace (Z.to_nat (Z.of_nat (String.length a + String.length b) -
                     Z.of_nat (String.length a))) with (String.length b) by lia.
  by rewrite Nat2Z.id, drop_chars_app, take_chars_app.
Qed.

(** [s[0:-1]]: all but the last character. *)
Lemma slice_drop_last s :
  slice s 0 (-1) = take_chars (String.length s - 1) s.
Proof.
  unfold slice, slice_bound.
  change (0 <? 0) with false. change (-1 <? 0) with true. cbv iota.
  rewrite Z.min_l by lia. change (Z.to_nat 0) with 0%nat.
  rewrite drop_chars_zero. f_equal. lia.
Qed.
End FindSlice.


(** ** Finding the test binaries *)

Section ReadTargets.
Lemma str_in_char c s : str_in (String c EmptyString) s = has_char c s.
Proof.
  induction s as [|x s IH]; [done|].
  unfold str_in; fold str_in. rewrite prefix_char_hd, IH. done.
Qed.

Lemma binary_of_parenthesized a b c :
  outside_parens a b → Base4Run.binary_of (parenthesized a b c) = b.
Proof.
  intros (Ha1 & Ha2 & Hb). unfold Base4Run.binary_of, parenthesized, find.
  rewrite (find_from_char_first "(" a) by done.
  replace (a +:+ String "(" (b +:+ String ")" c))
    with ((a +:+ String "(" b) +:+ String ")" c)
    by (by rewrite string_app_assoc, string_app_cons).
  rewrite (find_from_char_first ")" (a +:+ String "(" b)).
  2:{ rewrite has_char_app. simpl. by rewrite Ha2, Hb. }
  replace ((a +:+ String "(" b) +:+ String ")" c)
    with ((a +:+ String "(" EmptyString) +:+ b +:+ String ")" c)
    by (by rewrite !string_app_assoc, !string_app_cons, !string_app_nil).
  rewrite string_length_app. simpl String.length.
  replace (0 + Z.of_nat (String.length a) + 1)
    with (Z.of_nat (String.length (a +:+ String "(" EmptyString)))
    by (rewrite string_length_app; simpl; lia).
  replace (0 + Z.of_nat (String.length a + S (String.length b)))
    with (Z.of_nat (String.length (a +:+ String "(" EmptyString) + String.length b))
    by (rewrite string_length_app; simpl; lia).
  apply slice_middle.
Qed.

Lemma binary_of_no_parens l :
  has_char "(" l = false → has_char ")" l = false →
  Base4Run.binary_of l = take_chars (String.length l - 1) l.
Proof.
  intros H1 H2. unfold Base4Run.binary_of, find.
  rewrite !find_from_char_absent by done. apply slice_drop_last.
Qed.

Lemma base4_read_lines ls bins :
  Base4Run.read_lines ls bins =
  bins ++ (Base4Run.binary_of <$> filter (λ l, str_in "Running unittests" l = true) ls).
Proof.
  revert bins. induction ls as [|l ls IH]; intros bins; simpl.
  - by rewrite app_nil_r.
  - rewrite filter_cons. destruct (str_in "Running unittests" l) eqn:Hl.
    + rewrite decide_True by done. rewrite IH, <- app_assoc. done.
    + rewrite decide_False by done. apply IH.
Qed.
End ReadTargets.

(** X8: [read_targets] of [main.py].  When [cargo] fails it returns no
    binary.  Otherwise it returns one entry per line of the standard
    error that contains [Running unittests], in order: for a line of
    the shape [a(b)c] the entry is [b], the text between the first
    opening and the first closing parenthesis; for a line without any
    parenthesis both [find] calls give -1 and the entry is the line
    without its last character. *)
Theorem read_targets_binaries (returncode : Z) (stderr : list string) :
  (returncode ≠ 0 → Base4Run.read_targets returncode stderr = []) ∧
  (returncode = 0 →
   Base4Run.read_targets returncode stderr =
   Base4Run.binary_of <$> filter (λ l, str_in "Running unittests" l = true) stderr) ∧
  (∀ a b c, returncode = 0 → outside_parens a b →
     parenthesized a b c ∈ stderr →
     str_in "Running unittests" (parenthesized a b c) = true →
     b ∈ Base4Run.read_targets returncode stderr) ∧
  (∀ l, has_char "(" l = false → has_char ")" l = false →
     Base4Run.binary_of l = take_chars (String.length l - 1) l).
Proof.
  assert (returncode = 0 →
          Base4Run.read_targets returncode stderr =
          Base4Run.binary_of <$>
            filter (λ l, str_in "Running unittests" l = true) stderr) as Hok.
  { intros ->. unfold Base4Run.read_targets. simpl. by rewrite base4_read_lines. }
  split; [|split; [done|split]].
  - intros Hrc. unfold Base4Run.read_targets.
    destruct (Z.eqb_spec returncode 0); [done|]. done.
  - intros a b c Hrc Hout Hin Hrun. rewrite Hok by done.
    apply list_elem_of_fmap. exists (parenthesized a b c). split.
    + by rewrite binary_of_parenthesized.
    + by apply list_elem_of_filter.
  - apply binary_of_no_parens.
Qed.

Lemma read_targets_binaries_witness :
  "target/debug/deps/foo-1a2b" ∈
  Base4Run.read_targets 0
    ["   Compiling foo v0.1.0";
     parenthesized "     Running unittests src/lib.rs " "target/debug/deps/foo-1a2b" EmptyString].
Proof.
  destruct (read_targets_binaries 0
    ["   Compiling foo v0.1.0";
     parenthesized "     Running unittests src/lib.rs " "target/debug/deps/foo-1a2b" EmptyString])
    as (_ & _ & H & _).
  apply (H "     Running unittests src/lib.rs " "target/debug/deps/foo-1a2b" EmptyString).
  - reflexivity.
  - repeat split; reflexivity.
  - right. left.
  - reflexivity.
Defined.

(** X9: [read_targets] of [t.py].  Every binary it returns exists on
    disk and is the slice between the parentheses of a line that
    contains [Running ] and both parentheses; for a line of the shape
    [a(b)c] whose [b] exists, [b] is returned.  The return code of
    [cargo] plays no part. *)
Theorem read_targets_existing (exists_ : string → bool) (returncode : Z)
    (stderr : list string) :
  (∀ b, b ∈ RustyUnitRun.read_targets exists_ returncode stderr →
     exists_ b = true ∧
     ∃ l, l ∈ stderr ∧ str_in "Running " l = true ∧
          has_char "(" l = true ∧ has_char ")" l = true ∧
          b = Base4Run.binary_of l) ∧
  (∀ a b c, outside_parens a b → parenthesized a b c ∈ stderr →
     str_in "Running " (parenthesized a b c) = true → exists_ b = true →
     b ∈ RustyUnitRun.read_targets exists_ returncode stderr) ∧
  (∀ returncode',
     RustyUnitRun.read_targets exists_ returncode' stderr =
     RustyUnitRun.read_targets exists_ returncode stderr).
Proof.
  unfold RustyUnitRun.read_targets.
  assert (∀ ls bins b, b ∈ RustyUnitRun.read_lines exists_ ls bins ↔
            b ∈ bins ∨ ∃ l, l ∈ ls ∧
              (str_in "Running " l && str_in "(" l && str_in ")" l = true) ∧
              exists_ (Base4Run.binary_of l) = true ∧ b = Base4Run.binary_of l) as Hloop.
  { induction ls as [|l ls IH]; intros bins b; simpl.
    - split; [by left|]. intros [?|(l & ?%elem_of_nil & _)]; done.
    - fold (Base4Run.binary_of l).
      destruct (str_in "Running " l && str_in "(" l && str_in ")" l) eqn:Hl;
        [destruct (exists_ (Base4Run.binary_of l)) eqn:He|]; rewrite IH.
      + rewrite elem_of_app, list_elem_of_singleton. split.
        * intros [[?| ->]|(l' & Hl' & ?)]; [by left| |].
          -- right. exists l. split; [by left|done].
          -- right. exists l'. split; [by right|done].
        * intros [?|(l' & [->|Hl']%elem_of_cons & H1 & H2 & ->)];
            [by left; left|by left; right|].
          right. exists l'. done.
      + split.
        * intros [?|(l' & Hl' & ?)]; [by left|].
          right. exists l'. split; [by right|done].
        * intros [?|(l' & [->|Hl']%elem_of_cons & H1 & H2 & ->)];
            [by left|congruence|].
          right. exists l'. done.
      + split.
        * intros [?|(l' & Hl' & ?)]; [by left|].
          right. exists l'. split; [by right|done].
        * intros [?|(l' & [->|Hl']%elem_of_cons & H1 & H2 & ->)];
            [by left|congruence|].
          right. exists l'. done. }
  split; [|split; [|done]].
  - intros b [?%elem_of_nil|(l & Hl & Hc & He & ->)]%Hloop; [done|].
    apply andb_true_iff in Hc as [[H1 H2]%andb_true_iff H3].
    rewrite str_in_char in H2, H3. split; [done|]. exists l. done.
  - intros a b c Hout Hin Hrun He. apply Hloop. right.
    exists (parenthesized a b c). rewrite binary_of_parenthesized by done.
    split; [done|]. split; [|done].
    rewrite Hrun, !str_in_char. unfold parenthesized.
    rewrite !has_char_app. simpl. rewrite !has_char_app. simpl.
    by rewrite !orb_true_r.
Qed.

Lemma read_targets_existing_witness :
  "target/debug/deps/foo-1a2b" ∈
  RustyUnitRun.read_targets (λ _, true) 101
    [parenthesized "     Running unittests src/lib.rs " "target/debug/deps/foo-1a2b" EmptyString].
Proof.
  destruct (read_targets_existing (λ _, true) 101
    [parenthesized "     Running unittests src/lib.rs " "target/debug/deps/foo-1a2b" EmptyString])
    as (_ & H & _).
  apply (H "     Running unittests src/lib.rs " "target/debug/deps/foo-1a2b" EmptyString).
  - repeat split; reflexivity.
  - left.
  - reflexivity.
  - reflexivity.
Defined.

(** ** Running the tests *)

Section ExecuteCov.
Variable cwd : string.
Variable listing : string → list string.

Lemma tests_loop_numbered HOME binary ls counter cmds :
  Base4Run.tests_loop HOME binary ls (counter, cmds) =
  let tests := (λ l, (binary, split_head l ": ")) <$>
                 filter (λ l, str_in "tests_rug" l || str_in "tests_llm_16" l = true) ls in
  (counter + Z.of_nat (length tests), cmds ++ numbered HOME counter tests).
Proof.
  revert counter cmds. induction ls as [|l ls IH]; intros counter cmds; simpl.
  - by rewrite Z.add_0_r, app_nil_r.
  - rewrite filter_cons.
    destruct (str_in "tests_rug" l || str_in "tests_llm_16" l) eqn:Hl.
    + rewrite decide_True by done. rewrite IH, fmap_cons.
      cbv zeta. cbn [length numbered fst snd].
      rewrite <- app_assoc. f_equal. lia.
    + rewrite decide_False by done. apply IH.
Qed.

Lemma numbered_app HOME counter t1 t2 :
  numbered HOME counter (t1 ++ t2) =
  numbered HOME counter t1 ++ numbered HOME (counter + Z.of_nat (length t1)) t2.
Proof.
  revert counter. induction t1 as [|bt t1 IH]; intros counter; simpl.
  - by rewrite Z.add_0_r.
  - rewrite IH. do 3 f_equal. lia.
Qed.

Lemma bins_loop_numbered HOME bins counter cmds :
  Base4Run.bins_loop listing HOME bins (counter, cmds) =
  (counter + Z.of_nat (length (selected_tests listing bins)),
   cmds ++ numbered HOME counter (selected_tests listing bins)).
Proof.
  unfold selected_tests.
  revert counter cmds. induction bins as [|binary bins IH]; intros counter cmds.
  - simpl. by rewrite Z.add_0_r, app_nil_r.
  - cbn [Base4Run.bins_loop]. rewrite tests_loop_numbered. cbv zeta.
    rewrite IH, bind_cons, length_app, numbered_app, <- app_assoc.
    f_equal. lia.
Qed.

Lemma numbered_lookup HOME counter tests k :
  numbered HOME counter tests !! k =
  (λ bt, Base4Run.test_command HOME (counter + Z.of_nat k + 1) bt.1 bt.2) <$> tests !! k.
Proof.
  revert counter k. induction tests as [|bt tests IH]; intros counter [|k]; simpl; try done.
  - by rewrite Z.add_0_r.
  - rewrite IH. destruct (tests !! k); simpl; [|done]. do 2 f_equal. lia.
Qed.

Lemma string_app_inj_l s t1 t2 : s +:+ t1 = s +:+ t2 → t1 = t2.
Proof.
  induction s as [|a s IH]; [done|].
  rewrite !string_app_cons. intros [= H]. by apply IH.
Qed.

Lemma profile_of_inj HOME i j :
  Base4Run.profile_of HOME i = Base4Run.profile_of HOME j → i = j.
Proof.
  unfold Base4Run.profile_of. intros H.
  apply string_app_inj_l, string_app_inj_l in H.
  apply (split_last_sep "."%char _ _ "profraw" "profraw") in H as [H _]; [|done..].
  by apply str_inj.
Qed.
End ExecuteCov.

(** X10: [execute_cov] of [main.py] runs one command per listed test
    whose line contains [tests_rug] or [tests_llm_16], binary after
    binary, and the counter in the profile file name of the [k]-th
    command (from 0) is [k + 1].  Profile file names with different
    counters differ, so no test run writes to the profile of another. *)
Theorem execute_cov_profiles (cwd : string) (listing : string → list string)
    (bins : list string) :
  length (Base4Run.execute_cov cwd listing bins)
    = length (selected_tests listing bins) ∧
  (∀ k : nat,
     Base4Run.execute_cov cwd listing bins !! k =
     (λ bt, Base4Run.test_command (cwd +:+ "/") (Z.of_nat k + 1) bt.1 bt.2)
       <$> selected_tests listing bins !! k) ∧
  (∀ i j, Base4Run.profile_of (cwd +:+ "/") i = Base4Run.profile_of (cwd +:+ "/") j →
     i = j).
Proof.
  unfold Base4Run.execute_cov. rewrite bins_loop_numbered. simpl.
  assert (∀ k : nat,
            numbered (cwd +:+ "/") 0 (selected_tests listing bins) !! k =
            (λ bt, Base4Run.test_command (cwd +:+ "/") (Z.of_nat k + 1) bt.1 bt.2)
              <$> selected_tests listing bins !! k) as Hk.
  { intros k. by rewrite numbered_lookup. }
  split; [|split; [done|]].
  - generalize (selected_tests listing bins) 0. intros tests.
    induction tests as [|bt tests IH]; intros c; simpl; [done|]. by rewrite IH.
  - intros i j. apply profile_of_inj.
Qed.

(** ** Patching the sources *)

Section Patch.
Lemma to_comment_commented l : RustyUnitRun.to_comment ("//" +:+ l) = false.
Proof.
  unfold RustyUnitRun.to_comment, startswith.
  rewrite !string_app_cons, string_app_nil.
  assert (str_in "//" (String "/" (String "/" l)) = true) as ->.
  { unfold str_in; fold str_in. simpl String.prefix.
    destruct (Ascii.ascii_dec "/" "/"); [|done]. by destruct l. }
  simpl String.prefix.
  repeat (destruct (Ascii.ascii_dec _ _) as [?|_]; [done|]).
  simpl. by rewrite !andb_false_r.
Qed.
End Patch.

(** X11: the patching loop of [run_single] in [t.py] keeps the number
    of lines, leaves a line as it is or puts [//] before it, and leaves
    no line that its own test would comment out again: patching a
    patched file changes nothing. *)
Theorem patch_lines_settled (ls : list string) :
  length (RustyUnitRun.patch_lines ls) = length ls ∧
  Forall2 (λ l l', l' = l ∧ RustyUnitRun.to_comment l = false ∨
                   l' = "//" +:+ l ∧ RustyUnitRun.to_comment l = true)
    ls (RustyUnitRun.patch_lines ls) ∧
  Forall (λ l', RustyUnitRun.to_comment l' = false) (RustyUnitRun.patch_lines ls) ∧
  RustyUnitRun.patch_lines (RustyUnitRun.patch_lines ls) = RustyUnitRun.patch_lines ls.
Proof.
  induction ls as [|l ls (IH1 & IH2 & IH3 & IH4)]; simpl; [by repeat constructor|].
  destruct (RustyUnitRun.to_comment l) eqn:Hl.
  - rewrite to_comment_commented, IH1, IH4. repeat split; try done.
    + constructor; [by right|done].
    + constructor; [apply to_comment_commented|done].
  - rewrite Hl, IH1, IH4. repeat split; try done.
    + constructor; [by left|done].
    + constructor; done.
Qed.

(** ** Scanning the source tree *)

Section Scan.
(** Induction on a directory entry, with the property known of the
    entries below it. *)
Lemma tree_rect_entries (P : tree → Prop) :
  (∀ f isdir entries, Forall P entries → P (Entry f isdir entries)) →
  ∀ t, P t.
Proof.
  intros Hstep. fix IH 1. intros [f isdir entries]. apply Hstep.
  induction entries as [|t entries IHes]; constructor; [apply IH|apply IHes].
Qed.

Lemma scan_entry_unfold folder f isdir entries :
  RustyUnitRun.scan_entry folder (Entry f isdir entries) =
  (if endswith f ".rs" then [folder +:+ "/" +:+ f] else []) ++
  (if isdir then flat_map (RustyUnitRun.scan_entry (folder +:+ "/" +:+ f)) entries
   else []).
Proof.
  reflexivity.
Qed.

Lemma endswith_app a s p : endswith s p = true → endswith (a +:+ s) p = true.
Proof.
  intros H. induction a as [|x a IH]; [done|].
  rewrite string_app_cons. simpl. rewrite IH. apply orb_true_r.
Qed.

Lemma scan_entry_sound t :
  ∀ folder p, p ∈ RustyUnitRun.scan_entry folder t →
    endswith p ".rs" = true ∧ ∃ rest, p = folder +:+ "/" +:+ rest.
Proof.
  induction t as [f isdir entries IH] using tree_rect_entries.
  intros folder p. rewrite scan_entry_unfold, elem_of_app.
  intros [Hp|Hp].
  - destruct (endswith f ".rs") eqn:Hf; [|by apply elem_of_nil in Hp].
    apply list_elem_of_singleton in Hp as ->. split; [|by eauto].
    by apply endswith_app, endswith_app.
  - destruct isdir; [|by apply elem_of_nil in Hp].
    apply list_elem_of_In, in_flat_map in Hp as (t & Ht & Hp).
    rewrite Forall_forall in IH.
    apply list_elem_of_In in Ht, Hp.
    destruct (IH t Ht _ _ Hp) as (Hrs & rest & ->). split; [done|].
    exists (f +:+ "/" +:+ rest). by rewrite !string_app_assoc.
Qed.
End Scan.

(** X12: [recur_scan] of [t.py] keeps what [ans] held and appends only
    paths that lie below [folder] and end in [.rs].  It appends the path
    of every entry of [folder] whose name ends in [.rs], and for every
    entry that is a directory all that a scan of that directory appends,
    also when the name of the directory itself ends in [.rs]. *)
Theorem recur_scan_paths (folder : string) (entries : list tree) (ans : list string) :
  (∀ p, p ∈ ans → p ∈ RustyUnitRun.recur_scan folder entries ans) ∧
  (∀ p, p ∈ RustyUnitRun.recur_scan folder entries ans →
     p ∈ ans ∨ endswith p ".rs" = true ∧ ∃ rest, p = folder +:+ "/" +:+ rest) ∧
  (∀ f isdir below, Entry f isdir below ∈ entries → endswith f ".rs" = true →
     folder +:+ "/" +:+ f ∈ RustyUnitRun.recur_scan folder entries ans) ∧
  (∀ f below p, Entry f true below ∈ entries →
     p ∈ RustyUnitRun.recur_scan (folder +:+ "/" +:+ f) below [] →
     p ∈ RustyUnitRun.recur_scan folder entries ans).
Proof.
  unfold RustyUnitRun.recur_scan. repeat split.
  - intros p Hp. apply elem_of_app. by left.
  - intros p [Hp|Hp]%elem_of_app; [by left|right].
    apply list_elem_of_In, in_flat_map in Hp as (t & _ & Hp).
    apply list_elem_of_In in Hp. by eapply scan_entry_sound.
  - intros f isdir below Hin Hf. apply elem_of_app. right.
    apply list_elem_of_In, in_flat_map. exists (Entry f isdir below).
    split; [by apply list_elem_of_In|]. apply list_elem_of_In.
    rewrite scan_entry_unfold, Hf. apply elem_of_app. left. by left.
  - intros f below p Hin Hp. apply elem_of_app. right.
    apply list_elem_of_In, in_flat_map. exists (Entry f true below).
    split; [by apply list_elem_of_In|]. apply list_elem_of_In.
    rewrite scan_entry_unfold. apply elem_of_app. right. done.
Qed.

Lemma recur_scan_paths_witness :
  "src//gen/y.rs" ∈
  RustyUnitRun.recur_scan "src/"
    [Entry "a.rs" false []; Entry "gen" true [Entry "y.rs" false []]] [].
Proof.
  destruct (recur_scan_paths "src/"
    [Entry "a.rs" false []; Entry "gen" true [Entry "y.rs" false []]] [])
    as (_ & _ & Hfile & Hdir).
  apply (Hdir "gen" [Entry "y.rs" false []]); [right; left|].
  destruct (recur_scan_paths ("src/" +:+ "/" +:+ "gen") [Entry "y.rs" false []] [])
    as (_ & _ & Hfile' & _).
  apply (Hfile' "y.rs" false []); [left|reflexivity].
Defined.

(** ** Replaying the fuzzing queue *)

Section ReplayQueue.
Lemma queue_loop_lookup dir target queue idx cmds cmd :
  cmd ∈ (RulfRun.queue_loop dir target queue (idx, cmds)).2 ↔
  cmd ∈ cmds ∨
  ∃ (k : nat) ipt, queue !! k = Some ipt ∧ startswith ipt "id" = true ∧
    cmd = RulfRun.replay_command dir (idx + Z.of_nat k + 1) target ipt.
Proof.
  revert idx cmds. induction queue as [|ipt queue IH]; intros idx cmds.
  - simpl. split; [by left|]. by intros [?|(k & ipt & ? & _)].
  - cbn [RulfRun.queue_loop fst snd].
    destruct (startswith ipt "id") eqn:Hid; rewrite IH; clear IH.
    + rewrite elem_of_app, list_elem_of_singleton. split.
      * intros [[?| ->]|(k & i & Hk & Hi & ->)]; [by left| |].
        -- right. exists 0%nat, ipt. simpl. rewrite Z.add_0_r. done.
        -- right. exists (S k), i. split; [done|]. split; [done|]. f_equal. lia.
      * intros [?|([|k] & i & Hk & Hi & ->)]; [by left; left| |].
        -- simpl in Hk. injection Hk as <-. left; right. f_equal. simpl. lia.
        -- right. exists k, i. split; [done|]. split; [done|]. f_equal. lia.
    + split.
      * intros [?|(k & i & Hk & Hi & ->)]; [by left|].
        right. exists (S k), i. split; [done|]. split; [done|]. f_equal. lia.
      * intros [?|([|k] & i & Hk & Hi & ->)]; [by left| |].
        -- simpl in Hk. injection Hk as <-. congruence.
        -- right. exists k, i. split; [done|]. split; [done|]. f_equal. lia.
Qed.

Lemma target_of_rs t : RulfRun.target_of (t +:+ ".rs") = t.
Proof.
  unfold RulfRun.target_of, slice, slice_bound. rewrite string_length_app.
  change (0 <? 0) with false. change (-3 <? 0) with true. cbv iota.
  rewrite Z.min_l by lia. change (Z.to_nat 0) with 0%nat.
  rewrite drop_chars_zero.
  replace (Z.to_nat _) with (String.length t) by (simpl String.length; lia).
  apply take_chars_app.
Qed.
End ReplayQueue.

(** X13: for a test file [f], [cov_select] of [collect_cov.py] replays
    exactly the entries of the queue listing whose name starts with [id];
    the number in the profile file name of an entry is its position in
    the listing counted from 1, skipped entries included; and the target
    of the test file [t.rs] is [t]. *)
Theorem replay_queue_commands (dir f : string) (queue : list string) (cmd : string) :
  (cmd ∈ RulfRun.replay_queue dir f queue ↔
   ∃ (k : nat) ipt, queue !! k = Some ipt ∧ startswith ipt "id" = true ∧
     cmd = RulfRun.replay_command dir (Z.of_nat k + 1) (RulfRun.target_of f) ipt) ∧
  (∀ t, RulfRun.target_of (t +:+ ".rs") = t).
Proof.
  split; [|apply target_of_rs].
  unfold RulfRun.replay_queue. rewrite queue_loop_lookup. split.
  - intros [H|H]; [by apply elem_of_nil in H|done].
  - intros H. by right.
Qed.

(** ** Coverage by function name *)

Section ReplayPass.
Variable cwd : string.

Lemma replay_regions_loop rs has :
  Replay.regions_loop rs has = true ↔ has = true ∨ ∃ r, r ∈ rs ∧ 0 < reg4 r.
Proof.
  revert has. induction rs as [|r rs IH]; intros has; simpl.
  - split; [by left|]. intros [?|(r & Hr & _)]; [done|]. by apply elem_of_nil in Hr.
  - rewrite IH. destruct (Z.gtb_spec (reg4 r) 0) as [Hpos|Hneg].
    + split; [|by left]. intros _. right. exists r. split; [left|lia].
    + split.
      * intros [?|(r' & Hr' & ?)]; [by left|]. right. exists r'. split; [by right|done].
      * intros [?|(r' & Hr' & ?)]; [by left|].
        apply elem_of_cons in Hr' as [->|Hr']; [lia|]. right. by exists r'.
Qed.

Lemma replay_has_hit f :
  Replay.regions_loop (regions f) false = true ↔ has_hit_region f.
Proof. rewrite replay_regions_loop. unfold has_hit_region. split; [by intros [?|?]|by right]. Qed.

(** What one function record does to the dictionary. *)
Lemma replay_func_body m0 f m :
  Replay.func_body cwd m0 f = inr m →
  (¬ in_cwd cwd f ∧ m = m0) ∨
  (in_cwd cwd f ∧ has_hit_region f ∧ m = <[name f := 1]> m0) ∨
  (in_cwd cwd f ∧ ¬ has_hit_region f ∧ is_Some (m0 !! name f) ∧ m = m0) ∨
  (in_cwd cwd f ∧ ¬ has_hit_region f ∧ m0 !! name f = None ∧ m = <[name f := 0]> m0).
Proof.
  unfold Replay.func_body. destruct (length (filenames f) <=? 1)%nat; [|done].
  destruct (filenames f) as [|filename rest] eqn:Hf; [done|].
  destruct (str_in cwd filename) eqn:Hin.
  - assert (in_cwd cwd f) as Hcwd by (by exists filename, rest).
    intros [= <-]. right.
    destruct (Replay.regions_loop (regions f) false) eqn:Hhas.
    + apply replay_has_hit in Hhas. left. split; [done|]. split; [done|].
      destruct (m0 !! name f); [done|]. by rewrite insert_insert_eq.
    + assert (¬ has_hit_region f) as Hno.
      { intros H%replay_has_hit. congruence. }
      right. destruct (m0 !! name f) eqn:Hm.
      * left. split; [done|]. split; [done|]. split; [by eexists|done].
      * right. done.
  - intros [= <-]. left. split; [|done].
    intros (fn & rest' & Hf' & Hin'). congruence.
Qed.

Lemma replay_for_each obj m0 m :
  for_each (Replay.func_body cwd) obj m0 = inr m →
  (∀ n, is_Some (m !! n) ↔
        is_Some (m0 !! n) ∨ ∃ f, f ∈ obj ∧ name f = n ∧ in_cwd cwd f) ∧
  (∀ n, m !! n = Some 1 ↔
        m0 !! n = Some 1 ∨
        ∃ f, f ∈ obj ∧ name f = n ∧ in_cwd cwd f ∧ has_hit_region f) ∧
  ((∀ n v, m0 !! n = Some v → v = 0 ∨ v = 1) →
   ∀ n v, m !! n = Some v → v = 0 ∨ v = 1).
Proof.
  revert m0. induction obj as [|f obj IH]; intros m0; simpl.
  - intros [= <-]. split; [|split; [|done]]; intros n.
    + split; [by left|]. intros [?|(f & Hf & _)]; [done|]. by apply elem_of_nil in Hf.
    + split; [by left|]. intros [?|(f & Hf & _)]; [done|]. by apply elem_of_nil in Hf.
  - intros (m1 & Hbody & Hrest)%bind_inr.
    destruct (IH m1 Hrest) as (Hdom & Hone & Hval). clear IH Hrest.
    apply replay_func_body in Hbody.
    assert (∀ n, is_Some (m1 !! n) ↔
                 is_Some (m0 !! n) ∨ (name f = n ∧ in_cwd cwd f)) as Hdom1.
    { intros n.
      destruct Hbody as [(Hno & ->)|[(Hc & Hh & ->)|[(Hc & Hh & Hs & ->)|(Hc & Hh & Hs & ->)]]].
      - split; [by left|]. by intros [?|[_ ?]].
      - destruct (decide (name f = n)) as [<-|Hn].
        + rewrite lookup_insert_eq. split; [by right|by eexists].
        + rewrite lookup_insert_ne by done. split; [by left|]. by intros [?|[? _]].
      - split; [by left|]. intros [?|[<- _]]; done.
      - destruct (decide (name f = n)) as [<-|Hn].
        + rewrite lookup_insert_eq. split; [by right|by eexists].
        + rewrite lookup_insert_ne by done. split; [by left|]. by intros [?|[? _]]. }
    assert (∀ n, m1 !! n = Some 1 ↔
                 m0 !! n = Some 1 ∨ (name f = n ∧ in_cwd cwd f ∧ has_hit_region f))
      as Hone1.
    { intros n.
      destruct Hbody as [(Hno & ->)|[(Hc & Hh & ->)|[(Hc & Hh & Hs & ->)|(Hc & Hh & Hs & ->)]]].
      - split; [by left|]. by intros [?|(_ & ? & _)].
      - destruct (decide (name f = n)) as [<-|Hn].
        + rewrite lookup_insert_eq. split; [by right|done].
        + rewrite lookup_insert_ne by done. split; [by left|]. by intros [?|[? _]].
      - split; [by left|]. by intros [?|(_ & _ & ?)].
      - destruct (decide (name f = n)) as [<-|Hn].
        + rewrite lookup_insert_eq, Hs. split; [done|]. by intros [?|(_ & _ & ?)].
        + rewrite lookup_insert_ne by done. split; [by left|]. by intros [?|[? _]]. }
    assert ((∀ n v, m0 !! n = Some v → v = 0 ∨ v = 1) →
            ∀ n v, m1 !! n = Some v → v = 0 ∨ v = 1) as Hval1.
    { intros H0 n v.
      destruct Hbody as [(Hno & ->)|[(Hc & Hh & ->)|[(Hc & Hh & Hs & ->)|(Hc & Hh & Hs & ->)]]];
        [apply H0| |apply H0|].
      - destruct (decide (name f = n)) as [<-|Hn].
        + rewrite lookup_insert_eq. intros [= <-]. by right.
        + rewrite lookup_insert_ne by done. apply H0.
      - destruct (decide (name f = n)) as [<-|Hn].
        + rewrite lookup_insert_eq. intros [= <-]. by left.
        + rewrite lookup_insert_ne by done. apply H0. }
    split; [|split].
    + intros n. rewrite Hdom, Hdom1. split.
      * intros [[?|[? ?]]|(g & Hg & ? & ?)]; [by left| |].
        -- right. exists f. split; [left|done].
        -- right. exists g. split; [by right|done].
      * intros [?|(g & Hg & Hn & Hc)]; [by left; left|].
        apply elem_of_cons in Hg as [->|Hg]; [by left; right|]. right. by exists g.
    + intros n. rewrite Hone, Hone1. split.
      * intros [[?|(? & ? & ?)]|(g & Hg & ? & ? & ?)]; [by left| |].
        -- right. exists f. split; [left|done].
        -- right. exists g. split; [by right|done].
      * intros [?|(g & Hg & Hn & Hc & Hh)]; [by left; left|].
        apply elem_of_cons in Hg as [->|Hg]; [by left; right|]. right. by exists g.
    + intros H0. by apply Hval, Hval1.
Qed.

(** Every pass adds at most one name. *)
Lemma replay_for_each_size obj m0 m :
  for_each (Replay.func_body cwd) obj m0 = inr m →
  (size m ≤ size m0 + length obj)%nat.
Proof.
  revert m0. induction obj as [|f obj IH]; intros m0; simpl.
  - intros [= <-]. lia.
  - intros (m1 & Hbody & Hrest)%bind_inr. apply IH in Hrest.
    apply replay_func_body in Hbody.
    assert (size m1 ≤ S (size m0))%nat; [|lia].
    destruct Hbody as [(Hno & ->)|[(Hc & Hh & ->)|[(Hc & Hh & Hs & ->)|(Hc & Hh & Hs & ->)]]];
      [lia| |lia|].
    + destruct (m0 !! name f) eqn:Hm.
      * rewrite map_size_insert_Some by done. lia.
      * rewrite map_size_insert_None by done. lia.
    + rewrite map_size_insert_None by done. lia.
Qed.
End ReplayPass.

(** X14: when [collect_result] of [rustyunit_replay/main.py] goes
    through, the dictionary it dumps has an entry for a name exactly when
    the export has a function record of that name whose file name
    contains the working directory as a substring, anywhere in the path;
    the entry is 1 exactly when one of these records has a region with a
    positive count, whatever its line, and 0 otherwise; and the pair
    printed counts the entries 1 and all entries, with
    covered <= total <= number of function records. *)
Theorem replay_collect_result (cwd : string) (merge_rc export_rc : Z) (obj : export)
    (m : gmap string Z) (printed : Z * Z)
    (Hrun : Replay.collect_result cwd merge_rc export_rc obj = inr (Some (m, printed))) :
  (∀ n, is_Some (m !! n) ↔ ∃ f, f ∈ obj ∧ name f = n ∧ in_cwd cwd f) ∧
  (∀ n, m !! n = Some 1 ↔
        ∃ f, f ∈ obj ∧ name f = n ∧ in_cwd cwd f ∧ has_hit_region f) ∧
  (∀ n v, m !! n = Some v → v = 0 ∨ v = 1) ∧
  printed = (Z.of_nat (size (filter (λ kv : string * Z, kv.2 = 1) m)),
             Z.of_nat (size m)) ∧
  0 ≤ printed.1 ≤ printed.2 ∧ printed.2 ≤ Z.of_nat (length obj).
Proof.
  unfold Replay.collect_result in Hrun.
  destruct (negb (merge_rc =? 0)); [done|].
  destruct (negb (export_rc =? 0)); [done|].
  apply bind_inr in Hrun as (m' & Hloop & [= <- <-]).
  destruct (replay_for_each cwd obj ∅ m' Hloop) as (Hdom & Hone & Hval).
  pose proof (replay_for_each_size cwd obj ∅ m' Hloop) as Hsize.
  rewrite map_size_empty in Hsize.
  assert (∀ n v, m' !! n = Some v → v = 0 ∨ v = 1) as Hval'.
  { apply Hval. intros n v. by rewrite lookup_empty. }
  assert (filter (λ kv : string * Z, kv.2 ≠ 0) m'
          = filter (λ kv : string * Z, kv.2 = 1) m') as Hfilter.
  { apply map_filter_ext. intros n v Hv. simpl.
    destruct (Hval' n v Hv) as [-> | ->]; split; done. }
  split; [|split; [|split; [done|split]]].
  - intros n. rewrite Hdom, lookup_empty. split.
    + intros [[? ?]|?]; done.
    + intros ?. by right.
  - intros n. rewrite Hone, lookup_empty. split.
    + intros [?|?]; done.
    + intros ?. by right.
  - unfold Replay.reg_count, Replay.reg_total. by rewrite Hfilter.
  - unfold Replay.reg_count, Replay.reg_total. simpl.
    pose proof (map_filter_subseteq (λ kv : string * Z, kv.2 ≠ 0) m') as Hsub.
    apply map_subseteq_size in Hsub. lia.
Qed.

Lemma replay_collect_result_witness :
  Replay.collect_result "/p" 0 0 replay_demo
    = inr (Some ({[ "double" := 1; "id" := 1; "unused" := 0 ]}, (2, 3))) ∧
  ({[ "double" := 1; "id" := 1; "unused" := 0 ]} : gmap string Z) !! "id" = Some 1 ∧
  String.prefix "/p" "/x/p/src/lib.rs" = false.
Proof.
  assert (Replay.collect_result "/p" 0 0 replay_demo
            = inr (Some ({[ "double" := 1; "id" := 1; "unused" := 0 ]}, (2, 3)))) as Hrun
    by (vm_compute; reflexivity).
  split; [exact Hrun|].
  destruct (replay_collect_result "/p" 0 0 replay_demo _ _ Hrun) as (_ & Hone & _).
  split; [|reflexivity].
  apply Hone. exists dep_func. split; [vm_compute; right; left|].
  split; [reflexivity|]. split.
  - exists "/x/p/src/lib.rs", []. split; [reflexivity | vm_compute; reflexivity].
  - exists (Region 1 1 3 2 4). split; [left | reflexivity].
Defined.

(** ** Comparing two runs *)

Section Compare.
Lemma replace_absent old new s : str_in old s = false → replace s old new = s.
Proof.
  unfold replace. induction s as [|a s IH]; [done|].
  unfold str_in; fold str_in. intros [Hp Hin]%orb_false_iff.
  cbn [replace_from]. rewrite Hp. f_equal. by apply IH.
Qed.

Lemma item_body_spec mb ct k v :
  let st := RugCompare.item_body (mb, ct) (k, v) in
  (∀ n, is_Some (st.1 !! n) ↔ is_Some (mb !! n)) ∧
  (∀ n, st.1 !! n = Some 1 ↔
        mb !! n = Some 1 ∨ (is_Some (mb !! n) ∧ renamed k = n ∧ v ≠ 0)) ∧
  (∀ n w, mb !! n = Some w → st.1 !! n = Some w ∨ st.1 !! n = Some 1) ∧
  st.2 = ct + Z.of_nat (length (missing mb [(k, v)])).
Proof.
  unfold RugCompare.item_body, missing. cbn [fst snd]. fold (renamed k).
  destruct (mb !! renamed k) as [w|] eqn:Hk.
  - rewrite filter_cons_False by (cbn [fst]; congruence). rewrite filter_nil.
    destruct (Z.eqb_spec v 0) as [->|Hv]; cbn [negb fst snd length].
    + split; [done|]. split; [|split; [by left; done|lia]].
      intros n. split; [by left|]. by intros [?|(_ & _ & ?)].
    + split; [|split; [|split; [|lia]]]; intros n.
      * destruct (decide (renamed k = n)) as [<-|Hn].
        -- rewrite lookup_insert_eq, Hk. split; by eexists.
        -- by rewrite lookup_insert_ne.
      * destruct (decide (renamed k = n)) as [<-|Hn].
        -- rewrite lookup_insert_eq, Hk. split; [|done].
           intros _. right. split; [by eexists|done].
        -- rewrite lookup_insert_ne by done. split; [by left|]. by intros [?|(_ & ? & _)].
      * intros w' Hw'. destruct (decide (renamed k = n)) as [<-|Hn].
        -- right. by rewrite lookup_insert_eq.
        -- left. by rewrite lookup_insert_ne.
  - rewrite filter_cons_True by done. rewrite filter_nil. cbn [fst snd length].
    split; [done|]. split; [|split; [by left|lia]].
    intros n. split; [by left|]. intros [?|([? Hs] & <- & _)]; [done|congruence].
Qed.

Lemma items_loop_spec ma mb ct :
  let st := RugCompare.items_loop ma (mb, ct) in
  (∀ n, is_Some (st.1 !! n) ↔ is_Some (mb !! n)) ∧
  (∀ n, st.1 !! n = Some 1 ↔
        mb !! n = Some 1 ∨
        (is_Some (mb !! n) ∧ ∃ k v, (k, v) ∈ ma ∧ renamed k = n ∧ v ≠ 0)) ∧
  (∀ n w, mb !! n = Some w → st.1 !! n = Some w ∨ st.1 !! n = Some 1) ∧
  st.2 = ct + Z.of_nat (length (missing mb ma)).
Proof.
  unfold RugCompare.items_loop. revert mb ct.
  induction ma as [|[k v] ma IH]; intros mb ct; cbn [foldl].
  - cbn [fst snd]. split; [done|]. split; [|split; [by left|unfold missing; simpl; lia]].
    intros n. split; [by left|]. intros [?|(_ & k & v & Hin & _)]; [done|].
    by apply elem_of_nil in Hin.
  - destruct (item_body_spec mb ct k v) as (Hd1 & Ho1 & Hk1 & Hc1).
    destruct (RugCompare.item_body (mb, ct) (k, v)) as [mb1 ct1] eqn:Hst.
    cbn [fst snd] in Hd1, Ho1, Hk1, Hc1.
    destruct (IH mb1 ct1) as (Hd & Ho & Hk & Hc). clear IH.
    split; [|split; [|split]].
    + intros n. by rewrite Hd, Hd1.
    + intros n. rewrite Ho, Ho1, Hd1. split.
      * intros [[?|(? & ? & ?)]|(? & k' & v' & Hin & ? & ?)]; [by left| |].
        -- right. split; [done|]. exists k, v. split; [left|done].
        -- right. split; [done|]. exists k', v'. split; [by right|done].
      * intros [?|(Hs & k' & v' & Hin & Hn & Hv)]; [by left; left|].
        apply elem_of_cons in Hin as [[= -> ->]|Hin]; [by left; right|].
        right. split; [done|]. by exists k', v'.
    + intros n w Hw. destruct (Hk1 n w Hw) as [H1|H1].
      * destruct (Hk n w H1) as [?|?]; [by left|by right].
      * destruct (Hk n 1 H1) as [?|?]; by right.
    + rewrite Hc, Hc1. unfold missing.
      assert (filter (λ kv : string * Z, mb1 !! renamed kv.1 = None) ma
              = filter (λ kv : string * Z, mb !! renamed kv.1 = None) ma) as ->.
      { apply list_filter_iff. intros kv. by rewrite !eq_None_not_Some, Hd1. }
      destruct (decide (mb !! renamed k = None)) as [Hm|Hm].
      * rewrite !(filter_cons_True _ (k, v)) by done. rewrite filter_nil.
        cbn [length]. lia.
      * rewrite !(filter_cons_False _ (k, v)) by done. rewrite filter_nil.
        cbn [length]. lia.
Qed.
End Compare.

(** X15: [run_single] of [rug-gpt/t.py] merges the coverage map [ma] of
    one run into the map [mb] of another under renamed keys.  The merge
    adds no key: the total printed is the size of [mb], and the items of
    [ma] whose renamed key [mb] lacks are only counted.  An entry becomes
    1 when an item of [ma] with a non-zero value is renamed to its key,
    and otherwise keeps its value, so the covered number never drops; a
    key that does not contain the replaced path is looked up unchanged. *)
Theorem run_single_merge (ma : list (string * Z)) (mb : gmap string Z)
    (cover total ct : Z)
    (Hrun : RugCompare.run_single (Some ma) (Some mb) = Some (cover, total, ct)) :
  (∀ n, is_Some ((RugCompare.items_loop ma (mb, 0)).1 !! n) ↔ is_Some (mb !! n)) ∧
  (∀ n, (RugCompare.items_loop ma (mb, 0)).1 !! n = Some 1 ↔
        mb !! n = Some 1 ∨
        (is_Some (mb !! n) ∧ ∃ k v, (k, v) ∈ ma ∧ renamed k = n ∧ v ≠ 0)) ∧
  (∀ n w, mb !! n = Some w →
        (RugCompare.items_loop ma (mb, 0)).1 !! n = Some w ∨
        (RugCompare.items_loop ma (mb, 0)).1 !! n = Some 1) ∧
  total = Z.of_nat (size mb) ∧
  ct = Z.of_nat (length (missing mb ma)) ∧
  RugCompare.cover_of mb ≤ cover ≤ total ∧
  (∀ k, str_in RugCompare.rp k = false → renamed k = k).
Proof.
  destruct (items_loop_spec ma mb 0) as (Hd & Ho & Hk & Hc).
  unfold RugCompare.run_single in Hrun. cbv zeta in Hrun.
  injection Hrun as <- <- <-.
  assert (size (RugCompare.items_loop ma (mb, 0)).1 = size mb) as Hsize.
  { apply Nat.le_antisymm; apply size_mono; intros n; apply Hd. }
  split; [done|]. split; [done|]. split; [done|].
  split; [by rewrite Hsize|]. split; [lia|]. split.
  - unfold RugCompare.cover_of. split.
    + apply inj_le. apply size_filter_mono. intros n w Hw Hne.
      destruct (Hk n w Hw) as [H1|H1]; eexists; (split; [exact H1|done]).
    + pose proof (map_filter_subseteq (λ kv : string * Z, kv.2 ≠ 0)
                    (RugCompare.items_loop ma (mb, 0)).1) as Hsub.
      apply map_subseteq_size in Hsub. lia.
  - intros k. apply replace_absent.
Qed.

Lemma run_single_merge_witness :
  RugCompare.run_single (Some base_map) (Some rug_map) = Some (2, 3, 1) ∧
  3 = Z.of_nat (size rug_map) ∧
  1 = Z.of_nat (length (missing rug_map base_map)) ∧
  RugCompare.cover_of rug_map ≤ 2 ≤ 3.
Proof.
  assert (RugCompare.run_single (Some base_map) (Some rug_map) = Some (2, 3, 1))
    as Hrun by (vm_compute; reflexivity).
  split; [exact Hrun|].
  destruct (run_single_merge base_map rug_map 2 3 1 Hrun)
    as (_ & _ & _ & Ht & Hc & Hcov & _).
  split; [exact Ht|]. split; [exact Hc|]. exact Hcov.
Defined.
